(** * a22-runtime: workflow engine, model gateway, policy and sandbox layer

    A shallow embedding of the TypeScript sources of the runtime
    (security/policy.ts, security/sandbox.ts, gateway/provider.ts,
    gateway/gateway.ts, workflow.ts) together with the properties the
    specification states about them.

    Conventions of the embedding:
    - a JavaScript [number] is an exact rational ([Q]): limits, counters and
      clock readings are integers in practice, and the arithmetic of the
      token bucket is carried out without rounding;
    - an optional field [f?: T] is [option T]; [undefined] is [None];
    - a function that may [throw] returns a [result]; the thrown object is an
      [error] carrying the class of the exception and its message;
    - [Map<string, V>] is [gmap string V]; plain JavaScript objects whose
      key order is observable ([Object.entries], [for ... of]) are
      association lists of their own properties in enumeration order;
    - the built-in objects of the host (the standard prototypes and what
      hangs from them) are a parameter, [Realm]: a member access that finds
      no own property goes on to them. *)

From Stdlib Require Import Ascii String QArith Qminmax Qround Lqa.
From stdpp Require Import base option list strings gmap fin_maps sorting.

Set Warnings "-register-all".

Local Open Scope string_scope.
Local Open Scope list_scope.

(** ** Exceptions *)

(** The exception classes of the runtime: [PolicyError] (policy.ts),
    [ValidationError] and [SandboxError] (sandbox.ts), the built-in [Error]
    thrown with [new Error(...)], and the engine's own [TypeError]. *)
Inductive error : Type :=
| Error (message : string)
| TypeError (message : string)
| PolicyError (message : string)
| ValidationError (message : string)
| SandboxError (message : string).

(** [error.message]. *)
Definition message (e : error) : string :=
  match e with
  | Error m | TypeError m | PolicyError m | ValidationError m | SandboxError m => m
  end.

(** The outcome of a synchronous call, or of an awaited call that is known
    to settle. *)
Inductive result (A : Type) : Type :=
| Ok (a : A)
| Throw (e : error).
Arguments Ok {A} a.
Arguments Throw {A} e.

(** The outcome of awaiting a promise that may stay pending for ever. *)
Inductive outcome (A : Type) : Type :=
| Returns (a : A)
| Throws (e : error)
| Hangs.
Arguments Returns {A} a.
Arguments Throws {A} e.
Arguments Hangs {A}.

Definition settled {A} (r : result A) : outcome A :=
  match r with
  | Ok a => Returns a
  | Throw e => Throws e
  end.

Definition is_ok {A} (r : result A) : Prop := ∃ a, r = Ok a.
Definition is_policy_error {A} (r : result A) : Prop := ∃ m, r = Throw (PolicyError m).
Definition is_sandbox_error {A} (r : result A) : Prop := ∃ m, r = Throw (SandboxError m).

(** The double quote character, for the template literals of the source. *)
Definition dquote : string := String (Ascii.ascii_of_nat 34) EmptyString.
Definition quoted (s : string) : string := dquote ++ s ++ dquote.

(** [Array.prototype.includes] on an array of strings. *)
Definition includes (l : list string) (x : string) : bool :=
  existsb (String.eqb x) l.

(** Truthiness of an optional number: [undefined] and [0] are falsy. *)
Definition truthy_num (n : option Q) : bool :=
  match n with
  | Some q => negb (Qeq_bool q 0)
  | None => false
  end.

(** [a > b] on numbers. *)
Definition Qgtb (a b : Q) : bool := negb (Qle_bool a b).

Lemma includes_elem_of (l : list string) (x : string) :
  includes l x = true ↔ x ∈ l.
Proof.
  unfold includes. rewrite existsb_exists. split.
  - intros (y & Hy & Heq). apply String.eqb_eq in Heq. subst y.
    by apply list_elem_of_In.
  - intros Hx. exists x. split; [by apply list_elem_of_In | apply String.eqb_refl].
Qed.

Lemma includes_not_elem_of (l : list string) (x : string) :
  includes l x = false ↔ x ∉ l.
Proof.
  rewrite <- includes_elem_of. destruct (includes l x); split; congruence.
Qed.

(** ** JavaScript values *)

(** The values the engine passes around: step inputs and results, the
    scope, JSON bodies. An object is the list of its own properties in
    enumeration order and has [Object.prototype] as its prototype; strings
    are sequences of 8-bit characters. [VHost] is a built-in function
    ([callable]) or a built-in object that is not a function, such as a
    prototype: a member access on data reaches one as soon as the key names
    something a prototype defines. It is known by the path that names it,
    [Object.prototype.toString] for instance. *)
Inductive value : Type :=
| VUndefined
| VNull
| VBool (b : bool)
| VNum (n : Q)
| VStr (s : string)
| VArr (elements : list value)
| VObj (properties : list (string * value))
| VHost (callable : bool) (name : string).

(** Truthiness ([if (v)], [!v]). *)
Definition truthy (v : value) : bool :=
  match v with
  | VUndefined | VNull => false
  | VBool b => b
  | VNum n => negb (Qeq_bool n 0)
  | VStr s => negb (String.eqb s "")
  | VArr _ | VObj _ | VHost _ _ => true
  end.

(** Own property lookup by key; the first binding is the only one, since
    no assignment duplicates a key. *)
Fixpoint assoc {A} (k : string) (l : list (string * A)) : option A :=
  match l with
  | [] => None
  | (k', a) :: l' => if String.eqb k k' then Some a else assoc k l'
  end.

(** Replace or append: an existing key keeps its place, a new key goes
    last. This is [m.set(k, v)] on the entries of a [Map], and the
    definition of a property whose key is not an array index. *)
Fixpoint obj_set {A} (l : list (string * A)) (k : string) (v : A) : list (string * A) :=
  match l with
  | [] => [(k, v)]
  | (k', a) :: l' => if String.eqb k k' then (k', v) :: l' else (k', a) :: obj_set l' k v
  end.

Definition keys {A} (l : list (string * A)) : list string := map fst l.

(** Decimal digits of a canonical array index. *)
Definition digit (c : Ascii.ascii) : option nat :=
  let n := Ascii.nat_of_ascii c in
  if (48 <=? n)%nat && (n <=? 57)%nat then Some (n - 48)%nat else None.

Fixpoint digits (s : string) (acc : nat) : option nat :=
  match s with
  | EmptyString => Some acc
  | String c s' =>
      match digit c with
      | Some d => digits s' (10 * acc + d)%nat
      | None => None
      end
  end.

(** A property key that is an array index: ["0"], or digits with no
    leading zero. *)
Definition array_index (k : string) : option nat :=
  match k with
  | EmptyString => None
  | String c EmptyString => digit c
  | String c _ => if Ascii.eqb c "0"%char then None else digits k 0
  end.

(** *** Property order

    The own properties of an object are enumerated with the array indices
    first, in ascending numeric order, and the other keys after them in the
    order in which they were created. An array index is the canonical
    decimal form of an integer from 0 to 2^32 - 2. *)
Fixpoint digitsN (s : string) (acc : N) : option N :=
  match s with
  | EmptyString => Some acc
  | String c s' =>
      match digit c with
      | Some d => digitsN s' (10 * acc + N.of_nat d)%N
      | None => None
      end
  end.

Definition index_value (k : string) : option N :=
  match k with
  | EmptyString => None
  | String c rest =>
      if Ascii.eqb c "0"%char && negb (String.eqb rest "") then None
      else match digitsN k 0 with
           | Some n => if (n <=? 4294967294)%N then Some n else None
           | None => None
           end
  end.

(** A new index [n], written [k], goes before the first property that is
    not a smaller index. *)
Fixpoint insert_index {A} (n : N) (k : string) (v : A) (l : list (string * A))
  : list (string * A) :=
  match l with
  | [] => [(k, v)]
  | (k', a) :: l' =>
      match index_value k' with
      | Some n' => if (n' <? n)%N then (k', a) :: insert_index n k v l' else (k, v) :: l
      | None => (k, v) :: l
      end
  end.

(** The definition of the own data property [k] with value [v]: what an
    assignment [o[k] = v] comes to when no setter stands in its way. *)
Definition define {A} (l : list (string * A)) (k : string) (v : A) : list (string * A) :=
  match assoc k l, index_value k with
  | None, Some n => insert_index n k v l
  | _, _ => obj_set l k v
  end.

(** [o[k] = v] on the own properties of an object whose prototype chain
    ends in [Object.prototype]. The one setter on that chain is
    [__proto__]: unless the object has an own property of that name, the
    assignment defines nothing (it changes the prototype when [v] is an
    object or [null], and the embedding has no place for that: see
    [VObj]). *)
Definition assign {A} (l : list (string * A)) (k : string) (v : A) : list (string * A) :=
  if String.eqb k "__proto__" && negb (bool_decide (is_Some (assoc k l))) then l
  else define l k v.

(** *** Built-in objects

    The built-in objects of the host are not part of the sources. Which
    methods a standard prototype defines depends on the edition of the
    language the host implements, and what a built-in has as members is the
    host's business: both are parameters of the embedding. *)
Inductive prototype : Type :=
| ObjectPrototype
| ArrayPrototype
| StringPrototype
| NumberPrototype
| BooleanPrototype.

Definition prototype_name (p : prototype) : string :=
  match p with
  | ObjectPrototype => "Object.prototype"
  | ArrayPrototype => "Array.prototype"
  | StringPrototype => "String.prototype"
  | NumberPrototype => "Number.prototype"
  | BooleanPrototype => "Boolean.prototype"
  end.

(** [method p k]: prototype [p] has an own method named [k] (the
    constructor counts as one). [member h k]: the outcome of [h[k]] for the
    built-in named [h], when [k] is not a restricted property. *)
Record Realm : Type := {
  method : prototype → string → bool;
  member : string → string → result value
}.

(** The prototype chain of a value of each data kind. *)
Definition chain (v : value) : list prototype :=
  match v with
  | VArr _ => [ArrayPrototype; ObjectPrototype]
  | VStr _ => [StringPrototype; ObjectPrototype]
  | VNum _ => [NumberPrototype; ObjectPrototype]
  | VBool _ => [BooleanPrototype; ObjectPrototype]
  | _ => [ObjectPrototype]
  end.

(** What the prototype chain gives for a key that is not an own property:
    the method of the first prototype that defines one, the prototype
    itself for the accessor [__proto__] of [Object.prototype], and
    [undefined] otherwise. Every other string-keyed member of the five
    prototypes is shadowed by an own property ([length]). *)
Definition inherited (realm : Realm) (v : value) (k : string) : value :=
  match List.find (λ p, method realm p k) (chain v) with
  | Some p => VHost true (prototype_name p ++ "." ++ k)
  | None =>
      if String.eqb k "__proto__" then VHost false (prototype_name (hd ObjectPrototype (chain v)))
      else VUndefined
  end.

(** The message of the [TypeError] thrown by the accessors [caller] and
    [arguments] that every built-in function inherits from
    [Function.prototype]. *)
Definition restricted : string :=
  "'caller', 'callee', and 'arguments' properties may not be accessed on strict mode functions or the arguments objects for calls to them".

(** [v[k]] for a value that is neither [undefined] nor [null] (on those
    the access throws a [TypeError]): an own property if there is one, and
    the prototype chain otherwise. *)
Definition get (realm : Realm) (v : value) (k : string) : result value :=
  match v with
  | VUndefined => Throw (TypeError "Cannot read properties of undefined")
  | VNull => Throw (TypeError "Cannot read properties of null")
  | VObj props => Ok (default (inherited realm v k) (assoc k props))
  | VArr elements =>
      if String.eqb k "length" then Ok (VNum (inject_Z (Z.of_nat (length elements))))
      else Ok (default (inherited realm v k) (array_index k ≫= λ i, elements !! i))
  | VStr s =>
      if String.eqb k "length" then Ok (VNum (inject_Z (Z.of_nat (String.length s))))
      else Ok (default (inherited realm v k)
                 ((λ c, VStr (String c EmptyString)) <$> (array_index k ≫= λ i, String.get i s)))
  | VBool _ | VNum _ => Ok (inherited realm v k)
  | VHost callable name =>
      if callable && (String.eqb k "caller" || String.eqb k "arguments") then
        Throw (TypeError restricted)
      else member realm name k
  end.

(** Optional chaining, [v?.[k]]. *)
Definition opt_get (realm : Realm) (v : value) (k : string) : result value :=
  match v with
  | VUndefined | VNull => Ok VUndefined
  | _ => get realm v k
  end.

(** [s.startsWith(p)] and [s.endsWith(p)]. *)
Definition startsWith (s p : string) : bool := String.prefix p s.

Definition endsWith (s p : string) : bool :=
  (String.length p <=? String.length s)%nat &&
  String.eqb (String.substring (String.length s - String.length p) (String.length p) s) p.

(** [l.join(', ')]. *)
Definition join (sep : string) (l : list string) : string := String.concat sep l.

(** ** Policy enforcement (security/policy.ts) *)

Module Policy.

(** The [Policy] value of the intermediate representation, as
    [PolicyEnforcer] reads it: every list and every limit is optional. *)
Record PolicyAllow : Type := {
  allow_tools : option (list string);
  allow_workflows : option (list string);
  allow_data : option (list string);
  allow_capabilities : option (list string)
}.

Record PolicyDeny : Type := {
  deny_tools : option (list string);
  deny_workflows : option (list string);
  deny_data : option (list string)
}.

Record ResourceLimits : Type := {
  max_memory_mb : option Q;
  max_execution_time : option Q;
  max_tool_calls : option Q;
  max_workflow_depth : option Q
}.

Record Policy : Type := {
  id : string;
  allow : option PolicyAllow;
  deny : option PolicyDeny;
  limits : option ResourceLimits
}.

(** [list?.includes(x)] used as a condition: [undefined] is falsy. *)
Definition opt_includes (l : option (list string)) (x : string) : bool :=
  match l with
  | Some l => includes l x
  | None => false
  end.

Section Enforcer.

(** [Number.prototype.toString], used only to build messages. *)
Variable show : Q → string.

Definition checkToolAccess (policy : Policy) (toolId : string) : result unit :=
  if opt_includes (deny policy ≫= deny_tools) toolId then
    Throw (PolicyError ("Tool " ++ quoted toolId ++ " is explicitly denied by policy"))
  else
    match allow policy ≫= allow_tools with
    | Some tools =>
        if negb (includes tools toolId) then
          Throw (PolicyError ("Tool " ++ quoted toolId ++ " is not in the allowed tools list"))
        else Ok ()
    | None => Ok ()
    end.

Definition checkWorkflowAccess (policy : Policy) (workflowId : string) : result unit :=
  if opt_includes (deny policy ≫= deny_workflows) workflowId then
    Throw (PolicyError ("Workflow " ++ quoted workflowId ++ " is explicitly denied by policy"))
  else
    match allow policy ≫= allow_workflows with
    | Some workflows =>
        if negb (includes workflows workflowId) then
          Throw (PolicyError
                   ("Workflow " ++ quoted workflowId ++ " is not in the allowed workflows list"))
        else Ok ()
    | None => Ok ()
    end.

Definition checkDataAccess (policy : Policy) (dataId : string) : result unit :=
  if opt_includes (deny policy ≫= deny_data) dataId then
    Throw (PolicyError ("Data " ++ quoted dataId ++ " is explicitly denied by policy"))
  else
    match allow policy ≫= allow_data with
    | Some data =>
        if negb (includes data dataId) then
          Throw (PolicyError ("Data " ++ quoted dataId ++ " is not in the allowed data list"))
        else Ok ()
    | None => Ok ()
    end.

Definition checkCapabilityAccess (policy : Policy) (capabilityId : string) : result unit :=
  match allow policy ≫= allow_capabilities with
  | Some capabilities =>
      if negb (includes capabilities capabilityId) then
        Throw (PolicyError
                 ("Capability " ++ quoted capabilityId ++
                  " is not in the allowed capabilities list"))
      else Ok ()
  | None => Ok ()
  end.

Definition getLimits (policy : Policy) : option ResourceLimits := limits policy.

(** [limit && value > limit]. *)
Definition exceeded (limit : option Q) (value : Q) : bool :=
  truthy_num limit && match limit with Some l => Qgtb value l | None => false end.

Definition shown (limit : option Q) : string :=
  match limit with Some l => show l | None => "undefined" end.

Definition checkMemoryLimit (policy : Policy) (usedMemoryMb : Q) : result unit :=
  let limit := limits policy ≫= max_memory_mb in
  if exceeded limit usedMemoryMb then
    Throw (PolicyError
             ("Memory limit exceeded: " ++ show usedMemoryMb ++ "MB > " ++ shown limit ++ "MB"))
  else Ok ().

Definition checkExecutionTimeLimit (policy : Policy) (executionTimeMs : Q) : result unit :=
  let limit := limits policy ≫= max_execution_time in
  if exceeded limit executionTimeMs then
    Throw (PolicyError
             ("Execution time limit exceeded: " ++ show executionTimeMs ++ "ms > " ++
              shown limit ++ "ms"))
  else Ok ().

Definition checkToolCallsLimit (policy : Policy) (toolCallCount : Q) : result unit :=
  let limit := limits policy ≫= max_tool_calls in
  if exceeded limit toolCallCount then
    Throw (PolicyError
             ("Tool calls limit exceeded: " ++ show toolCallCount ++ " > " ++ shown limit))
  else Ok ().

Definition checkWorkflowDepthLimit (policy : Policy) (depth : Q) : result unit :=
  let limit := limits policy ≫= max_workflow_depth in
  if exceeded limit depth then
    Throw (PolicyError
             ("Workflow depth limit exceeded: " ++ show depth ++ " > " ++ shown limit))
  else Ok ().

End Enforcer.

(** What the specification asks of an access check whose deny list is [d]
    and whose allow list is [a], run on the resource id [x] with outcome
    [r]. *)
Definition deny_before_allow
    (r : result unit) (d a : option (list string)) (x : string) : Prop :=
  let denied := ∃ l, d = Some l ∧ x ∈ l in
  (denied → is_policy_error r) ∧
  (¬ denied → (∃ l, a = Some l ∧ x ∉ l) → is_policy_error r) ∧
  (¬ denied → (a = None ∨ ∃ l, a = Some l ∧ x ∈ l) → r = Ok ()).

Lemma opt_includes_true (d : option (list string)) (x : string) :
  opt_includes d x = true ↔ ∃ l, d = Some l ∧ x ∈ l.
Proof.
  destruct d as [l|]; simpl.
  - rewrite includes_elem_of. split; [eauto | by intros (? & [= <-] & ?)].
  - split; [done | by intros (? & ? & ?)].
Qed.

(** One access check, whatever the resource kind: the three functions of
    the source share this shape. *)
Lemma check_shape (d a : option (list string)) (x : string) (m1 m2 : string) :
  deny_before_allow
    (if opt_includes d x then Throw (PolicyError m1)
     else match a with
          | Some l => if negb (includes l x) then Throw (PolicyError m2) else Ok ()
          | None => Ok ()
          end) d a x.
Proof.
  unfold deny_before_allow; cbv zeta.
  destruct (opt_includes d x) eqn:Hd.
  - apply opt_includes_true in Hd.
    split; [by eexists |]. split; intros Hn; by destruct Hn.
  - assert (Hnd : ¬ ∃ l, d = Some l ∧ x ∈ l).
    { rewrite <- opt_includes_true. congruence. }
    split; [done |]. split; intros _.
    + intros (l & -> & Hx). apply includes_not_elem_of in Hx. rewrite Hx. by eexists.
    + intros [-> | (l & -> & Hx)]; [done |].
      apply includes_elem_of in Hx. by rewrite Hx.
Qed.

(** C1. For every policy and every resource id, each of [checkToolAccess],
    [checkWorkflowAccess] and [checkDataAccess] raises a policy error when
    the id is in the deny list of its kind (whatever the allow list holds),
    raises a policy error when the id is not denied but an allow list
    exists and does not contain it, and returns normally otherwise; with no
    allow list, everything that is not denied is allowed. *)
Theorem access_checks_deny_before_allow (policy : Policy) (x : string) :
  deny_before_allow (checkToolAccess policy x)
    (deny policy ≫= deny_tools) (allow policy ≫= allow_tools) x ∧
  deny_before_allow (checkWorkflowAccess policy x)
    (deny policy ≫= deny_workflows) (allow policy ≫= allow_workflows) x ∧
  deny_before_allow (checkDataAccess policy x)
    (deny policy ≫= deny_data) (allow policy ≫= allow_data) x.
Proof.
  split; [| split]; apply check_shape.
Qed.

(** A policy that allows two tools and denies one of them. *)
Definition guarded : Policy :=
  {| id := "guarded";
     allow := Some {| allow_tools := Some ["shell"; "echo"]; allow_workflows := None;
                      allow_data := None; allow_capabilities := None |};
     deny := Some {| deny_tools := Some ["shell"]; deny_workflows := None;
                     deny_data := Some ["secrets"] |};
     limits := None |}.

Lemma access_checks_deny_before_allow_witness :
  is_policy_error (checkToolAccess guarded "shell") ∧
  checkToolAccess guarded "echo" = Ok () ∧
  is_policy_error (checkToolAccess guarded "curl") ∧
  checkWorkflowAccess guarded "nightly" = Ok () ∧
  is_policy_error (checkDataAccess guarded "secrets").
Proof.
  destruct (access_checks_deny_before_allow guarded "shell") as ((Hshell & _ & _) & _ & _).
  destruct (access_checks_deny_before_allow guarded "echo") as ((_ & _ & Hecho) & _ & _).
  destruct (access_checks_deny_before_allow guarded "curl") as ((_ & Hcurl & _) & _ & _).
  destruct (access_checks_deny_before_allow guarded "nightly") as (_ & (_ & _ & Hwf) & _).
  destruct (access_checks_deny_before_allow guarded "secrets") as (_ & _ & (Hdata & _ & _)).
  assert (Hnot : ∀ x, includes ["shell"] x = false →
                      ¬ ∃ l, Some ["shell"] = Some l ∧ x ∈ l).
  { intros x Hx (l & [= <-] & Hin). apply includes_not_elem_of in Hx. by apply Hx. }
  split; [apply Hshell; eexists; split; [reflexivity | by apply includes_elem_of] |].
  split.
  { apply Hecho; [by apply Hnot |]. right. eexists. split; [reflexivity |].
    by apply includes_elem_of. }
  split.
  { apply Hcurl; [by apply Hnot |]. eexists. split; [reflexivity |].
    by apply includes_not_elem_of. }
  split.
  { apply Hwf; [by intros (l & Hl & _) | by left]. }
  apply Hdata. eexists. split; [reflexivity | by apply includes_elem_of].
Defined.

(** [policy] with its [limits] field replaced. *)
Definition with_limits (policy : Policy) (l : option ResourceLimits) : Policy :=
  {| id := id policy; allow := allow policy; deny := deny policy; limits := l |}.

Lemma exceeded_zero (z v : Q) : z == 0 → exceeded (Some z) v = false.
Proof.
  intros Hz. unfold exceeded, truthy_num.
  apply Qeq_bool_iff in Hz. by rewrite Hz.
Qed.

(** C9. For each of the four limit checks and every measured value: when
    the limit is configured as 0 the check does not raise, exactly as when
    the policy has no limits at all. *)
Theorem zero_limit_never_raises
    (show : Q → string) (policy : Policy) (l : ResourceLimits) (z v : Q) :
  limits policy = Some l →
  z == 0 →
  (max_memory_mb l = Some z →
     checkMemoryLimit show policy v = Ok () ∧
     checkMemoryLimit show policy v = checkMemoryLimit show (with_limits policy None) v) ∧
  (max_execution_time l = Some z →
     checkExecutionTimeLimit show policy v = Ok () ∧
     checkExecutionTimeLimit show policy v
       = checkExecutionTimeLimit show (with_limits policy None) v) ∧
  (max_tool_calls l = Some z →
     checkToolCallsLimit show policy v = Ok () ∧
     checkToolCallsLimit show policy v = checkToolCallsLimit show (with_limits policy None) v) ∧
  (max_workflow_depth l = Some z →
     checkWorkflowDepthLimit show policy v = Ok () ∧
     checkWorkflowDepthLimit show policy v
       = checkWorkflowDepthLimit show (with_limits policy None) v).
Proof.
  intros Hl Hz.
  unfold checkMemoryLimit, checkExecutionTimeLimit, checkToolCallsLimit,
    checkWorkflowDepthLimit.
  rewrite Hl; simpl.
  split; [| split; [| split]]; intros ->; by rewrite exceeded_zero.
Qed.

(** A policy whose four limits are all configured as 0. *)
Definition zero_limits : ResourceLimits :=
  {| max_memory_mb := Some 0%Q; max_execution_time := Some 0%Q;
     max_tool_calls := Some 0%Q; max_workflow_depth := Some 0%Q |}.

Definition zero_policy : Policy :=
  {| id := "locked"; allow := None; deny := None; limits := Some zero_limits |}.

Lemma zero_limit_never_raises_witness :
  checkMemoryLimit (λ _, "n") zero_policy 4096%Q = Ok () ∧
  checkToolCallsLimit (λ _, "n") zero_policy 7%Q = Ok ().
Proof.
  pose proof (zero_limit_never_raises (λ _, "n") zero_policy zero_limits 0%Q 4096%Q
                eq_refl (Qeq_refl 0%Q)) as (Hm & _).
  pose proof (zero_limit_never_raises (λ _, "n") zero_policy zero_limits 0%Q 7%Q
                eq_refl (Qeq_refl 0%Q)) as (_ & _ & Ht & _).
  split; [apply (Hm eq_refl) | apply (Ht eq_refl)].
Defined.

End Policy.

(** ** Tool sandbox (security/sandbox.ts) *)

Module Sandbox.

(** The tool security configuration of the intermediate representation, as
    the sandbox reads it. *)
Record FieldValidation : Type := {
  max_length : option Q;
  min_length : option Q;
  pattern : option string;
  deny_patterns : option (list string);
  min : option Q;
  max : option Q
}.

Record SandboxConfig : Type := {
  timeout_ms : option Q;
  network_allowed : option bool;
  network_hosts : option (list string);
  filesystem_allowed : option bool;
  filesystem_mode : option string;
  filesystem_paths : option (list string)
}.

Record OutputValidation : Type := {
  max_size_kb : option Q
}.

Record ToolSecurityConfig : Type := {
  validate : option (gmap string FieldValidation);
  sandbox : option SandboxConfig;
  output : option OutputValidation
}.

(** [if violated then throw e], followed by the rest of the function. *)
Definition guard (violated : bool) (e : error) (rest : result unit) : result unit :=
  if violated then Throw e else rest.

(** Completion of the wrapped tool function: the time it takes to settle
    and what it settles to, or [None] when its promise stays pending. *)
Definition completion : Type := option (Q * result value).

Section Sandbox.

(** [Number.prototype.toString], [new RegExp(p).test(s)] and the byte size of
    [JSON.stringify(v)] belong to the JavaScript run time. *)
Variable show : Q → string.
Variable regex_test : string → string → bool.
Variable json_bytes : value → Q.

(** The state of everything outside the sandbox that a tool may touch. *)
Variable World : Type.

Definition str_length (s : string) : Q := inject_Z (Z.of_nat (String.length s)).

Fixpoint check_deny_patterns (fieldName v : string) (patterns : list string) : result unit :=
  match patterns with
  | [] => Ok ()
  | p :: rest =>
      guard (regex_test p v)
        (ValidationError ("Field " ++ quoted fieldName ++ " matches denied pattern: " ++ p))
        (check_deny_patterns fieldName v rest)
  end.

Definition validateField (fieldName : string) (v : value) (rules : FieldValidation)
  : result unit :=
  match v with
  | VStr s =>
      guard (truthy_num (max_length rules) &&
             match max_length rules with Some m => Qgtb (str_length s) m | None => false end)
        (ValidationError
           ("Field " ++ quoted fieldName ++ " exceeds max length: " ++ show (str_length s) ++
            " > " ++ from_option show "undefined" (max_length rules)))
      (guard (truthy_num (min_length rules) &&
              match min_length rules with Some m => Qgtb m (str_length s) | None => false end)
        (ValidationError
           ("Field " ++ quoted fieldName ++ " below min length: " ++ show (str_length s) ++
            " < " ++ from_option show "undefined" (min_length rules)))
      (guard (match pattern rules with
              | Some p => negb (String.eqb p "") && negb (regex_test p s)
              | None => false
              end)
        (ValidationError
           ("Field " ++ quoted fieldName ++ " does not match pattern: " ++
            default "undefined" (pattern rules)))
      (match deny_patterns rules with
       | Some patterns => check_deny_patterns fieldName s patterns
       | None => Ok ()
       end)))
  | VNum n =>
      guard (match min rules with Some m => Qgtb m n | None => false end)
        (ValidationError
           ("Field " ++ quoted fieldName ++ " below minimum: " ++ show n ++ " < " ++
            from_option show "undefined" (min rules)))
      (guard (match max rules with Some m => Qgtb n m | None => false end)
        (ValidationError
           ("Field " ++ quoted fieldName ++ " exceeds maximum: " ++ show n ++ " > " ++
            from_option show "undefined" (max rules)))
        (Ok ()))
  | _ => Ok ()
  end.

(** [InputValidator.validate]: the fields of the input in enumeration
    order; a field with no rule is skipped. *)
Fixpoint validate_fields (rules : gmap string FieldValidation) (input : list (string * value))
  : result unit :=
  match input with
  | [] => Ok ()
  | (fieldName, v) :: rest =>
      match rules !! fieldName with
      | None => validate_fields rules rest
      | Some fieldRules =>
          match validateField fieldName v fieldRules with
          | Throw e => Throw e
          | Ok _ => validate_fields rules rest
          end
      end
  end.

Definition validate_input (rules : option (gmap string FieldValidation))
    (input : list (string * value)) : result unit :=
  match rules with
  | None => Ok ()
  | Some rules => validate_fields rules input
  end.

(** [OutputValidator.validate]. *)
Definition validate_output (config : option OutputValidation) (out : value) : result unit :=
  match config with
  | None => Ok ()
  | Some config =>
      if truthy_num (max_size_kb config) then
        let sizeKb := (json_bytes out / 1024)%Q in
        guard (match max_size_kb config with Some m => Qgtb sizeKb m | None => false end)
          (ValidationError
             ("Output size exceeds limit: " ++ show sizeKb ++ "KB > " ++
              from_option show "undefined" (max_size_kb config) ++ "KB"))
          (Ok ())
      else Ok ()
  end.

Definition ToolFn : Type := list (string * value) → World → World * completion.

(** The delay [setTimeout] arms for a requested number of milliseconds: a
    request below 1 or above 2^31 - 1 is replaced by 1, and fractions of a
    millisecond are dropped. *)
Definition setTimeout_delay (ms : Q) : Q :=
  if Qle_bool 1 ms && Qle_bool ms 2147483647 then inject_Z (Qfloor ms) else 1%Q.

(** [executeWithTimeout]: the tool's promise races a timer. The tool is
    called first, and the timer is armed once the call has returned its
    promise: the time [elapsed] of a completion counts from there. The tool
    is started in any case and its effects on the world stay; when both
    settle at the same instant the tool, which came first, wins. The
    message names the number requested, not the delay armed. *)
Definition executeWithTimeout (fn : ToolFn) (input : list (string * value)) (timeoutMs : Q)
    (w : World) : World * result value :=
  let '(w', c) := fn input w in
  match c with
  | Some (elapsed, r) =>
      if Qle_bool elapsed (setTimeout_delay timeoutMs) then (w', r)
      else (w', Throw (SandboxError
                         ("Tool execution timeout after " ++ show timeoutMs ++ "ms")))
  | None => (w', Throw (SandboxError
                          ("Tool execution timeout after " ++ show timeoutMs ++ "ms")))
  end.

(** [ToolSandbox.execute]. *)
Definition execute (securityConfig : option ToolSecurityConfig) (toolFn : ToolFn)
    (input : list (string * value)) (w : World) : World * outcome value :=
  match validate_input (securityConfig ≫= validate) input with
  | Throw e => (w, Throws e)
  | Ok _ =>
      match securityConfig ≫= sandbox with
      | None =>
          let '(w', c) := toolFn input w in
          match c with
          | None => (w', Hangs)
          | Some (_, Throw e) => (w', Throws e)
          | Some (_, Ok out) =>
              match validate_output (securityConfig ≫= output) out with
              | Throw e => (w', Throws e)
              | Ok _ => (w', Returns out)
              end
          end
      | Some config =>
          let timeout := if truthy_num (timeout_ms config)
                         then default 30000%Q (timeout_ms config) else 30000%Q in
          match executeWithTimeout toolFn input timeout w with
          | (w', Throw e) => (w', Throws e)
          | (w', Ok out) =>
              match validate_output (securityConfig ≫= output) out with
              | Throw e => (w', Throws e)
              | Ok _ => (w', Returns out)
              end
          end
      end
  end.

End Sandbox.

(** [!flag] for an optional boolean. *)
Definition falsy_flag (b : option bool) : bool := negb (default false b).

(** [ToolSandbox.checkNetworkAccess]. *)
Definition checkNetworkAccess (securityConfig : option ToolSecurityConfig) (host : string)
  : result unit :=
  match securityConfig ≫= sandbox with
  | None => Ok ()
  | Some config =>
      if falsy_flag (network_allowed config) then
        Throw (SandboxError "Network access is not allowed by sandbox policy")
      else
        match network_hosts config with
        | Some hosts =>
            if (0 <? length hosts)%nat then
              let allowed :=
                existsb (λ allowedHost,
                           String.eqb host allowedHost || endsWith host ("." ++ allowedHost))
                        hosts in
              if negb allowed then
                Throw (SandboxError
                         ("Network access to " ++ quoted host ++
                          " is not allowed. Allowed hosts: " ++ join ", " hosts))
              else Ok ()
            else Ok ()
        | None => Ok ()
        end
  end.

(** [ToolSandbox.checkFilesystemAccess]; [write] defaults to [false] in the
    source when the caller leaves it out. *)
Definition checkFilesystemAccess (securityConfig : option ToolSecurityConfig)
    (path : string) (write : bool) : result unit :=
  match securityConfig ≫= sandbox with
  | None => Ok ()
  | Some config =>
      if falsy_flag (filesystem_allowed config) then
        Throw (SandboxError "Filesystem access is not allowed by sandbox policy")
      else if write && from_option (String.eqb "readonly") false (filesystem_mode config) then
        Throw (SandboxError "Filesystem is in readonly mode, write access denied")
      else
        match filesystem_paths config with
        | Some paths =>
            if (0 <? length paths)%nat then
              let allowed := existsb (λ allowedPath, startsWith path allowedPath) paths in
              if negb allowed then
                Throw (SandboxError
                         ("Filesystem access to " ++ quoted path ++
                          " is not allowed. Allowed paths: " ++ join ", " paths))
              else Ok ()
            else Ok ()
        | None => Ok ()
        end
  end.

Definition getConfig (securityConfig : option ToolSecurityConfig) : option SandboxConfig :=
  securityConfig ≫= sandbox.

(** C10. A sandbox built without a sandbox configuration (no security
    configuration at all, or one with no [sandbox] part) lets every network
    and filesystem check pass, for every host, every path and both write
    modes. *)
Theorem no_sandbox_config_allows_all (securityConfig : option ToolSecurityConfig) :
  getConfig securityConfig = None →
  (∀ host, checkNetworkAccess securityConfig host = Ok ()) ∧
  (∀ path write, checkFilesystemAccess securityConfig path write = Ok ()).
Proof.
  unfold getConfig, checkNetworkAccess, checkFilesystemAccess.
  intros ->. by split.
Qed.

(** A tool that declares input rules and an output budget but no sandbox. *)
Definition rules_only : ToolSecurityConfig :=
  {| validate := Some ∅; sandbox := None; output := Some {| max_size_kb := Some 64%Q |} |}.

Lemma no_sandbox_config_allows_all_witness :
  checkNetworkAccess (Some rules_only) "example.org" = Ok () ∧
  checkFilesystemAccess (Some rules_only) "/etc/passwd" true = Ok ().
Proof.
  destruct (no_sandbox_config_allows_all (Some rules_only) eq_refl) as [Hnet Hfs].
  split; [apply Hnet | apply Hfs].
Defined.

(** With a sandbox configuration the same checks do deny. *)
Example sandboxed_network_denied :
  checkNetworkAccess
    (Some {| validate := None; output := None;
             sandbox := Some {| timeout_ms := None; network_allowed := None;
                                network_hosts := None; filesystem_allowed := Some true;
                                filesystem_mode := None; filesystem_paths := None |} |})
    "example.org"
  = Throw (SandboxError "Network access is not allowed by sandbox policy").
Proof. reflexivity. Qed.

End Sandbox.

(** ** Rate limiter (gateway/provider.ts) *)

Module RateLimiter.

Local Open Scope Q_scope.

(** The rate limits of a provider; the limiter reads one field. *)
Record RateLimits : Type := {
  requests_per_minute : option Q
}.

(** The fields of a [RateLimiter] instance. Times are milliseconds, as
    [Date.now()] gives them. *)
Record t : Type := {
  limits : RateLimits;
  maxTokens : Q;
  tokens : Q;
  lastRefill : Q
}.

(** [new RateLimiter(limits, maxTokens = 60)], constructed at time [now]. *)
Definition new (limits : RateLimits) (maxTokens : option Q) (now : Q) : t :=
  {| limits := limits;
     maxTokens := default 60 maxTokens;
     tokens := default 60 maxTokens;
     lastRefill := now |}.

(** [refill()], when [Date.now()] reads [now]. *)
Definition refill (rl : t) (now : Q) : t :=
  let elapsed := now - lastRefill rl in
  if truthy_num (requests_per_minute (limits rl)) then
    let tokensToAdd := (elapsed / 60000) * default 0 (requests_per_minute (limits rl)) in
    {| limits := limits rl;
       maxTokens := maxTokens rl;
       tokens := Qmin (maxTokens rl) (tokens rl + tokensToAdd);
       lastRefill := now |}
  else rl.

Definition getWaitTime (rl : t) : Q :=
  if truthy_num (requests_per_minute (limits rl)) then
    60000 / default 0 (requests_per_minute (limits rl))
  else 1000.

(** [this.tokens--]. *)
Definition decrement (rl : t) : t :=
  {| limits := limits rl; maxTokens := maxTokens rl;
     tokens := tokens rl - 1; lastRefill := lastRefill rl |}.

(** [a < b] on numbers. *)
Definition Qltb (a b : Q) : bool := negb (Qle_bool b a).

(** [acquire()], entered when the clock reads [now]; [wake] is what the
    clock reads when the timer of the suspension, if there is one, has
    fired. The second component is the duration handed to [setTimeout], or
    [None] when the call does not suspend. *)
Definition acquire (rl : t) (now wake : Q) : t * option Q :=
  let rl1 := refill rl now in
  if Qltb (tokens rl1) 1 then
    let waitTime := getWaitTime rl1 in
    (decrement (refill rl1 wake), Some waitTime)
  else (decrement rl1, None).

(** A sequence of calls on one limiter, each given by the clock reading on
    entry and the one after its suspension. *)
Fixpoint run (rl : t) (calls : list (Q * Q)) : t :=
  match calls with
  | [] => rl
  | (now, wake) :: rest => run (fst (acquire rl now wake)) rest
  end.

(** The suspension of each call of the sequence, in order. *)
Fixpoint sleeps (rl : t) (calls : list (Q * Q)) : list (option Q) :=
  match calls with
  | [] => []
  | (now, wake) :: rest =>
      snd (acquire rl now wake) :: sleeps (fst (acquire rl now wake)) rest
  end.

(** The clock does not run backwards between refills, and a suspension
    lasts at least as long as the duration it asked for. *)
Fixpoint timely (rl : t) (calls : list (Q * Q)) : Prop :=
  match calls with
  | [] => True
  | (now, wake) :: rest =>
      lastRefill rl <= now ∧ now + getWaitTime rl <= wake ∧
      timely (fst (acquire rl now wake)) rest
  end.

(** [t0 <= t1 <= ... <= tn]. *)
Fixpoint chronological (t0 : Q) (times : list Q) : Prop :=
  match times with
  | [] => True
  | t1 :: rest => t0 <= t1 ∧ chronological t1 rest
  end.

(** *** Calls that overlap

    [acquire()] gives up control once, at its [await]: a call that finds
    less than one token is suspended between its test and its decrement,
    and other calls may start or resume meanwhile. A schedule lists what
    happens to one limiter, in the order in which it happens: a call starts
    ([Enter]), or the timer of a suspended call fires ([Resume]); the clock
    reading is the one [refill] sees. *)
Inductive turn : Type :=
| Enter (now : Q)
| Resume (now : Q).

(** The part of [acquire()] before its [await]; the flag tells whether the
    call is suspended. *)
Definition enter (rl : t) (now : Q) : t * bool :=
  let rl1 := refill rl now in
  if Qltb (tokens rl1) 1 then (rl1, true) else (decrement rl1, false).

(** The part of [acquire()] after its [await]. *)
Definition resume (rl : t) (now : Q) : t := decrement (refill rl now).

(** A schedule played on a limiter with [suspended] calls waiting; [None]
    when it resumes a call that was never suspended. *)
Fixpoint play (rl : t) (suspended : nat) (schedule : list turn) : option (t * nat) :=
  match schedule with
  | [] => Some (rl, suspended)
  | Enter now :: rest =>
      let '(rl', waits) := enter rl now in
      play rl' (if waits then S suspended else suspended) rest
  | Resume now :: rest =>
      match suspended with
      | O => None
      | S n => play (resume rl now) n rest
      end
  end.

(** The schedule of calls made one after another: each call resumes, if it
    was suspended, before the next one starts. *)
Fixpoint serial (rl : t) (calls : list (Q * Q)) : list turn :=
  match calls with
  | [] => []
  | (now, wake) :: rest =>
      (if snd (enter rl now) then [Enter now; Resume wake] else [Enter now])
      ++ serial (fst (acquire rl now wake)) rest
  end.

Lemma Qltb_lt (a b : Q) : Qltb a b = true ↔ a < b.
Proof.
  unfold Qltb. rewrite negb_true_iff, <- not_true_iff_false, Qle_bool_iff.
  split; [apply Qnot_le_lt | apply Qlt_not_le].
Qed.

Lemma Qltb_ge (a b : Q) : Qltb a b = false ↔ b <= a.
Proof.
  unfold Qltb. rewrite negb_false_iff. apply Qle_bool_iff.
Qed.

Lemma truthy_num_Some (q : Q) : truthy_num (Some q) = true ↔ ¬ q == 0.
Proof.
  simpl. rewrite negb_true_iff, <- not_true_iff_false, Qeq_bool_iff. tauto.
Qed.

(** The fields [acquire] never writes. *)
Lemma refill_static (rl : t) (now : Q) :
  limits (refill rl now) = limits rl ∧ maxTokens (refill rl now) = maxTokens rl.
Proof. unfold refill. by destruct (truthy_num _). Qed.

Lemma acquire_static (rl : t) (now wake : Q) :
  limits (fst (acquire rl now wake)) = limits rl ∧
  maxTokens (fst (acquire rl now wake)) = maxTokens rl.
Proof.
  unfold acquire. destruct (Qltb _ _); simpl;
    repeat (rewrite ?(proj1 (refill_static _ _)), ?(proj2 (refill_static _ _))); done.
Qed.

Lemma run_static (rl : t) (calls : list (Q * Q)) :
  limits (run rl calls) = limits rl ∧ maxTokens (run rl calls) = maxTokens rl.
Proof.
  revert rl. induction calls as [| [now wake] rest IH]; intros rl; [done |].
  simpl. destruct (IH (fst (acquire rl now wake))) as [-> ->]. apply acquire_static.
Qed.

(** *** The capacity is an upper bound *)

Lemma refill_le_cap (rl : t) (now : Q) :
  tokens rl <= maxTokens rl → tokens (refill rl now) <= maxTokens rl.
Proof.
  intros H. unfold refill. destruct (truthy_num _); [| done].
  simpl. apply Q.le_min_l.
Qed.

Lemma acquire_le_cap (rl : t) (now wake : Q) :
  tokens rl <= maxTokens rl → tokens (fst (acquire rl now wake)) <= maxTokens rl.
Proof.
  intros H. unfold acquire.
  pose proof (refill_le_cap rl now H) as H1.
  destruct (Qltb _ _); simpl.
  - pose proof (refill_le_cap (refill rl now) wake) as H2.
    rewrite (proj2 (refill_static rl now)) in H2. specialize (H2 H1). lra.
  - lra.
Qed.

Lemma run_le_cap (rl : t) (calls : list (Q * Q)) :
  tokens rl <= maxTokens rl → tokens (run rl calls) <= maxTokens rl.
Proof.
  revert rl. induction calls as [| [now wake] rest IH]; intros rl H; [done |].
  simpl. rewrite <- (proj2 (acquire_static rl now wake)).
  apply IH. rewrite (proj2 (acquire_static rl now wake)). by apply acquire_le_cap.
Qed.

(** *** Zero is a lower bound only while the bucket refills *)

Lemma tokensToAdd_nonneg (elapsed rpm : Q) :
  0 <= elapsed → 0 < rpm → 0 <= elapsed / 60000 * rpm.
Proof.
  intros He Hr. apply Qmult_le_0_compat; [| lra].
  apply Qle_shift_div_l; lra.
Qed.

Lemma tokensToAdd_after_wait (elapsed rpm : Q) :
  0 < rpm → 60000 / rpm <= elapsed → 1 <= elapsed / 60000 * rpm.
Proof.
  intros Hr Hw.
  assert (H : 60000 <= elapsed * rpm).
  { assert (Hm : 60000 / rpm * rpm <= elapsed * rpm)
      by (apply Qmult_le_compat_r; lra).
    assert (Hf : 60000 / rpm * rpm == 60000) by (field; lra).
    lra. }
  assert (Heq : elapsed / 60000 * rpm == elapsed * rpm / 60000) by (field; lra).
  rewrite Heq. apply Qle_shift_div_l; lra.
Qed.

Lemma refill_nonneg (rl : t) (now rpm : Q) :
  requests_per_minute (limits rl) = Some rpm → 0 < rpm →
  0 <= maxTokens rl → 0 <= tokens rl → lastRefill rl <= now →
  0 <= tokens (refill rl now).
Proof.
  intros Hrpm Hpos Hcap Htok Hnow. unfold refill. rewrite Hrpm.
  assert (Ht : truthy_num (Some rpm) = true) by (apply truthy_num_Some; lra).
  rewrite Ht. simpl. apply Q.min_glb; [done |].
  pose proof (tokensToAdd_nonneg (now - lastRefill rl) rpm). lra.
Qed.

Lemma acquire_nonneg (rl : t) (now wake rpm : Q) :
  requests_per_minute (limits rl) = Some rpm → 0 < rpm →
  1 <= maxTokens rl → 0 <= tokens rl →
  lastRefill rl <= now → now + getWaitTime rl <= wake →
  0 <= tokens (fst (acquire rl now wake)).
Proof.
  intros Hrpm Hpos Hcap Htok Hnow Hwake.
  assert (Ht : truthy_num (Some rpm) = true) by (apply truthy_num_Some; lra).
  assert (H1 : 0 <= tokens (refill rl now)) by (eapply refill_nonneg; eauto; lra).
  unfold acquire. destruct (Qltb _ _) eqn:Hlt; simpl.
  - unfold getWaitTime in Hwake. rewrite Hrpm, Ht in Hwake. simpl in Hwake.
    assert (Hlast : lastRefill (refill rl now) = now).
    { unfold refill. by rewrite Hrpm, Ht. }
    unfold refill at 1. rewrite (proj1 (refill_static rl now)), Hrpm, Ht. simpl.
    rewrite Hlast, (proj2 (refill_static rl now)).
    pose proof (tokensToAdd_after_wait (wake - now) rpm Hpos) as Hadd.
    assert (1 <= Qmin (maxTokens rl) (tokens (refill rl now) + (wake - now) / 60000 * rpm)).
    { apply Q.min_glb; [done |]. lra. }
    lra.
  - apply Qltb_ge in Hlt. lra.
Qed.

Lemma run_nonneg (rl : t) (calls : list (Q * Q)) (rpm : Q) :
  requests_per_minute (limits rl) = Some rpm → 0 < rpm →
  1 <= maxTokens rl → 0 <= tokens rl → timely rl calls →
  0 <= tokens (run rl calls).
Proof.
  revert rl. induction calls as [| [now wake] rest IH]; intros rl Hrpm Hpos Hcap Htok Htm;
    [done |].
  simpl in *. destruct Htm as (Hnow & Hwake & Hrest).
  destruct (acquire_static rl now wake) as [Hl Hm].
  apply IH; rewrite ?Hl, ?Hm; try done.
  by eapply acquire_nonneg.
Qed.

(** Without a requests-per-minute limit nothing ever refills the bucket. *)
Lemma acquire_unconfigured (rl : t) (now wake : Q) :
  truthy_num (requests_per_minute (limits rl)) = false →
  tokens (fst (acquire rl now wake)) = tokens rl - 1.
Proof.
  intros Hf. unfold acquire, refill. rewrite Hf. destruct (Qltb _ _); simpl; [| done].
  by rewrite Hf.
Qed.

Lemma run_unconfigured (rl : t) (calls : list (Q * Q)) :
  truthy_num (requests_per_minute (limits rl)) = false →
  tokens (run rl calls) == tokens rl - inject_Z (Z.of_nat (length calls)).
Proof.
  revert rl. induction calls as [| [now wake] rest IH]; intros rl Hf.
  - cbn [run length]. change (inject_Z (Z.of_nat 0)) with 0. lra.
  - cbn [run length]. rewrite IH by (by rewrite (proj1 (acquire_static rl now wake))).
    rewrite acquire_unconfigured by done.
    rewrite Nat2Z.inj_succ, <- Z.add_1_r, inject_Z_plus.
    change (inject_Z 1) with 1. lra.
Qed.

(** A limiter with no requests-per-minute limit and the default capacity. *)
Definition unlimited : t := new {| requests_per_minute := None |} None 0.

(** C6, as stated, fails: 61 calls on a limiter with no requests-per-minute
    limit leave the count at -1. *)
Lemma tokens_negative_when_unconfigured :
  let rl := run unlimited (repeat (0, 1000) 61) in
  timely unlimited (repeat (0, 1000) 61) ∧
  tokens rl == -1 ∧ ¬ (0 <= tokens rl ∧ tokens rl <= maxTokens rl).
Proof.
  cbv zeta. assert (H : tokens (run unlimited (repeat (0, 1000) 61)) == -1).
  { vm_compute. reflexivity. }
  split; [vm_compute; repeat split; intro; discriminate |].
  split; [done |]. rewrite H. intros [Hneg _]. lra.
Qed.

(** *** Overlapping calls keep the upper bound only *)

Lemma enter_static (rl : t) (now : Q) :
  limits (fst (enter rl now)) = limits rl ∧ maxTokens (fst (enter rl now)) = maxTokens rl.
Proof. unfold enter. destruct (Qltb _ _); simpl; apply refill_static. Qed.

Lemma enter_le_cap (rl : t) (now : Q) :
  tokens rl <= maxTokens rl → tokens (fst (enter rl now)) <= maxTokens rl.
Proof.
  intros H. pose proof (refill_le_cap rl now H) as H1.
  unfold enter. destruct (Qltb _ _); simpl; lra.
Qed.

Lemma resume_le_cap (rl : t) (now : Q) :
  tokens rl <= maxTokens rl → tokens (resume rl now) <= maxTokens rl.
Proof.
  intros H. pose proof (refill_le_cap rl now H) as H1. unfold resume. simpl. lra.
Qed.

Lemma play_le_cap (schedule : list turn) :
  ∀ (rl rl' : t) (n n' : nat),
    tokens rl <= maxTokens rl → play rl n schedule = Some (rl', n') →
    tokens rl' <= maxTokens rl'.
Proof.
  induction schedule as [| [now | now] rest IH]; intros rl rl' n n' Hcap Hplay; simpl in *.
  - by injection Hplay as <- _.
  - destruct (enter rl now) as [rl1 waits] eqn:Henter.
    apply (IH rl1 rl' (if waits then S n else n) n'); [| exact Hplay].
    pose proof (enter_le_cap rl now Hcap) as H1.
    pose proof (proj2 (enter_static rl now)) as Hm.
    rewrite Henter in H1, Hm. simpl in H1, Hm. by rewrite Hm.
  - destruct n as [| n]; [done |].
    apply (IH (resume rl now) rl' n n'); [| exact Hplay].
    pose proof (resume_le_cap rl now Hcap) as H1.
    assert (Hm : maxTokens (resume rl now) = maxTokens rl)
      by (unfold resume; simpl; apply refill_static).
    by rewrite Hm.
Qed.

(** A call made alone is an [Enter], followed by its [Resume] when it was
    suspended. *)
Lemma acquire_enter_resume (rl : t) (now wake : Q) :
  fst (acquire rl now wake)
  = if snd (enter rl now) then resume (fst (enter rl now)) wake else fst (enter rl now).
Proof. unfold acquire, enter, resume. by destruct (Qltb _ _). Qed.

Lemma play_app (before after : list turn) :
  ∀ (rl rl1 : t) (n n1 : nat),
    play rl n before = Some (rl1, n1) → play rl n (before ++ after) = play rl1 n1 after.
Proof.
  induction before as [| [now | now] rest IH]; intros rl rl1 n n1 Hplay; simpl in *.
  - by injection Hplay as -> ->.
  - destruct (enter rl now) as [rl' waits]. by apply IH.
  - destruct n as [| n]; [done |]. by apply IH.
Qed.

Lemma play_serial (calls : list (Q * Q)) :
  ∀ (rl : t) (n : nat), play rl n (serial rl calls) = Some (run rl calls, n).
Proof.
  induction calls as [| [now wake] rest IH]; intros rl n; [done |].
  cbn [serial run].
  rewrite (play_app _ _ rl (fst (acquire rl now wake)) n n); [apply IH |].
  rewrite acquire_enter_resume.
  destruct (enter rl now) as [rl1 waits] eqn:Henter.
  destruct waits; simpl; by rewrite Henter.
Qed.

(** C6, amended. After any calls of [acquire()], overlapping or not, the
    token count is at most the capacity. When the calls are made one after
    another the count is at least 0, provided that a positive
    requests-per-minute limit is configured, the capacity is at least 1,
    the clock does not run backwards and every suspension lasts at least
    the duration asked for; calls that are suspended together can take the
    count below 0, as three calls at once on a bucket of one token do.
    With no requests-per-minute limit the count is the capacity minus the
    number of calls made. *)
Theorem tokens_bounded
    (lim : RateLimits) (cap : option Q) (t0 : Q) (calls : list (Q * Q)) :
  let rl := run (new lim cap t0) calls in
  (∀ schedule rl' n,
      play (new lim cap t0) 0 schedule = Some (rl', n) → tokens rl' <= maxTokens rl') ∧
  play (new lim cap t0) 0 (serial (new lim cap t0) calls) = Some (rl, 0%nat) ∧
  tokens rl <= maxTokens rl ∧
  (∀ rpm, requests_per_minute lim = Some rpm → 0 < rpm → 1 <= default 60 cap →
          timely (new lim cap t0) calls → 0 <= tokens rl) ∧
  (∃ rl', play (new {| requests_per_minute := Some 60 |} (Some 1) 0) 0
            [Enter 0; Enter 0; Enter 0; Resume 1000; Resume 1000] = Some (rl', 0%nat) ∧
          tokens rl' == -1) ∧
  (truthy_num (requests_per_minute lim) = false →
   tokens rl == default 60 cap - inject_Z (Z.of_nat (length calls))).
Proof.
  cbv zeta. split; [| split; [| split; [| split; [| split]]]].
  - intros schedule rl' n. apply play_le_cap. simpl. lra.
  - apply play_serial.
  - rewrite (proj2 (run_static _ _)). apply run_le_cap. simpl. lra.
  - intros rpm Hrpm Hpos Hcap Htm. eapply run_nonneg; eauto. simpl. lra.
  - eexists. split; [vm_compute; reflexivity |]. vm_compute. reflexivity.
  - intros Hf. by rewrite run_unconfigured.
Qed.

(** The limits of a provider held to 60 requests per minute. *)
Definition sixty : RateLimits := {| requests_per_minute := Some 60 |}.

(** A bucket smaller than one token is short at every call, and the refill
    after the wait is capped below one token too. *)
Example small_bucket_goes_negative :
  tokens (run (new sixty (Some (1 # 2)) 0) [(0, 1000)]) == - (1 # 2).
Proof. vm_compute. reflexivity. Qed.

Lemma tokens_bounded_witness :
  let rl := run (new sixty (Some 60) 0) [(0, 1000); (5, 1005); (2000, 3000)] in
  0 <= tokens rl ∧ tokens rl <= 60.
Proof.
  destruct (tokens_bounded sixty (Some 60) 0 [(0, 1000); (5, 1005); (2000, 3000)])
    as (_ & _ & Hcap & Hlow & _).
  split; [| exact Hcap].
  apply (Hlow 60 eq_refl); [reflexivity | discriminate |].
  vm_compute. repeat split; intro; discriminate.
Defined.

(** *** What one call does *)

Lemma refill_configured (rl : t) (now rpm : Q) :
  requests_per_minute (limits rl) = Some rpm → ¬ rpm == 0 →
  refill rl now =
    {| limits := limits rl; maxTokens := maxTokens rl;
       tokens := Qmin (maxTokens rl) (tokens rl + (now - lastRefill rl) / 60000 * rpm);
       lastRefill := now |}.
Proof.
  intros Hrpm Hnz. unfold refill. rewrite Hrpm.
  by rewrite (proj2 (truthy_num_Some rpm) Hnz).
Qed.

Lemma refill_unconfigured (rl : t) (now : Q) :
  truthy_num (requests_per_minute (limits rl)) = false → refill rl now = rl.
Proof. intros Hf. unfold refill. by rewrite Hf. Qed.

Lemma getWaitTime_configured (rl : t) (rpm : Q) :
  requests_per_minute (limits rl) = Some rpm → ¬ rpm == 0 → getWaitTime rl = 60000 / rpm.
Proof.
  intros Hrpm Hnz. unfold getWaitTime. rewrite Hrpm.
  by rewrite (proj2 (truthy_num_Some rpm) Hnz).
Qed.

Lemma getWaitTime_unconfigured (rl : t) :
  truthy_num (requests_per_minute (limits rl)) = false → getWaitTime rl = 1000.
Proof. intros Hf. unfold getWaitTime. by rewrite Hf. Qed.

Lemma acquire_enough (rl : t) (now wake : Q) :
  1 <= tokens (refill rl now) → acquire rl now wake = (decrement (refill rl now), None).
Proof.
  intros H. unfold acquire. by rewrite (proj2 (Qltb_ge _ _) H).
Qed.

Lemma acquire_short (rl : t) (now wake : Q) :
  tokens (refill rl now) < 1 →
  acquire rl now wake = (decrement (refill (refill rl now) wake), Some (getWaitTime rl)).
Proof.
  intros H. unfold acquire. rewrite (proj2 (Qltb_lt _ _) H).
  do 2 f_equal. unfold getWaitTime. by rewrite (proj1 (refill_static rl now)).
Qed.

(** *** A burst on a full bucket of 60 at 60 requests per minute *)

(** After [k] calls of a burst that began at time [a]. *)
Definition in_burst (k : nat) (a : Q) (rl : t) : Prop :=
  requests_per_minute (limits rl) = Some 60 ∧ maxTokens rl == 60 ∧
  a <= lastRefill rl ∧
  60 - inject_Z (Z.of_nat k) <= tokens rl ∧
  tokens rl <= 60 - inject_Z (Z.of_nat k) + (lastRefill rl - a) / 1000.

Lemma inject_S (k : nat) : inject_Z (Z.of_nat (S k)) == inject_Z (Z.of_nat k) + 1.
Proof.
  rewrite Nat2Z.inj_succ, <- Z.add_1_r, inject_Z_plus. reflexivity.
Qed.

Lemma inject_nonneg (k : nat) : 0 <= inject_Z (Z.of_nat k).
Proof.
  change 0 with (inject_Z 0). rewrite <- Zle_Qle. lia.
Qed.

Lemma inject_le_59 (k : nat) : (k < 60)%nat → inject_Z (Z.of_nat k) <= 59.
Proof.
  intros H. change 59 with (inject_Z 59). rewrite <- Zle_Qle. lia.
Qed.

Lemma burst_refill (k : nat) (a now : Q) (rl : t) :
  in_burst k a rl → lastRefill rl <= now →
  lastRefill (refill rl now) = now ∧
  maxTokens (refill rl now) == 60 ∧
  requests_per_minute (limits (refill rl now)) = Some 60 ∧
  60 - inject_Z (Z.of_nat k) <= tokens (refill rl now) ∧
  tokens (refill rl now) <= 60 - inject_Z (Z.of_nat k) + (now - a) / 1000.
Proof.
  intros (Hrpm & Hcap & Ha & Hlo & Hhi) Hnow.
  rewrite (refill_configured rl now 60 Hrpm) by (intros H; discriminate H).
  simpl. repeat split; try done.
  - apply Q.min_glb.
    + pose proof (inject_nonneg k). lra.
    + pose proof (tokensToAdd_nonneg (now - lastRefill rl) 60). lra.
  - eapply Qle_trans; [apply Q.le_min_r |].
    assert (Heq : (now - lastRefill rl) / 60000 * 60 == (now - lastRefill rl) / 1000)
      by field.
    assert (Hsum : (lastRefill rl - a) / 1000 + (now - lastRefill rl) / 1000
                   == (now - a) / 1000) by field.
    lra.
Qed.

Lemma burst_call (k : nat) (a now wake : Q) (rl : t) :
  in_burst k a rl → (k < 60)%nat → lastRefill rl <= now →
  snd (acquire rl now wake) = None ∧
  in_burst (S k) a (fst (acquire rl now wake)) ∧
  lastRefill (fst (acquire rl now wake)) = now.
Proof.
  intros Hin Hk Hnow.
  destruct (burst_refill k a now rl Hin Hnow) as (Hlast & Hcap & Hrpm & Hlo & Hhi).
  destruct Hin as (_ & _ & Ha & _ & _).
  pose proof (inject_le_59 k Hk) as Hk'.
  rewrite acquire_enough by lra. simpl.
  split; [done |]. split; [| done].
  unfold in_burst. simpl. rewrite inject_S, Hlast.
  repeat split; try done; lra.
Qed.

Lemma burst_calls (calls : list (Q * Q)) :
  ∀ (k : nat) (a : Q) (rl : t) (later : list Q),
    in_burst k a rl → (k + length calls <= 60)%nat →
    chronological (lastRefill rl) (map fst calls ++ later) →
    sleeps rl calls = repeat None (length calls) ∧
    in_burst (k + length calls) a (run rl calls) ∧
    chronological (lastRefill (run rl calls)) later.
Proof.
  induction calls as [| [now wake] rest IH]; intros k a rl later Hin Hk Hch.
  - simpl. by rewrite Nat.add_0_r.
  - simpl in Hch, Hk. destruct Hch as [Hnow Hch].
    destruct (burst_call k a now wake rl Hin) as (Hnone & Hin' & Hlast); [lia | done |].
    destruct (IH (S k) a (fst (acquire rl now wake)) later Hin') as (Hs & Hin'' & Hl).
    { lia. } { by rewrite Hlast. }
    cbn [sleeps run length repeat map]. rewrite Hnone, Hs.
    split; [done |]. split; [| done].
    by replace (k + S (length rest))%nat with (S k + length rest)%nat by lia.
Qed.

Lemma burst_exhausted (a now wake : Q) (rl : t) :
  in_burst 60 a rl → lastRefill rl <= now → now - a < 1000 →
  ∃ w, snd (acquire rl now wake) = Some w ∧ w == 1000.
Proof.
  intros Hin Hnow Hwin.
  destruct (burst_refill 60 a now rl Hin Hnow) as (Hlast & Hcap & Hrpm & Hlo & Hhi).
  destruct Hin as (Hrpm0 & _).
  assert (Hfrac : (now - a) / 1000 < 1) by (apply Qlt_shift_div_r; lra).
  change (inject_Z (Z.of_nat 60)) with 60 in Hhi.
  rewrite acquire_short by lra. simpl.
  exists (getWaitTime rl). split; [done |].
  rewrite (getWaitTime_configured rl 60 Hrpm0) by (intros H; discriminate H).
  reflexivity.
Qed.

Lemma new_in_burst (t0 : Q) : in_burst 0 t0 (new sixty (Some 60) t0).
Proof.
  assert (H : (t0 - t0) / 1000 == 0) by field.
  unfold in_burst, new, sixty. cbn [limits maxTokens tokens lastRefill requests_per_minute].
  change (inject_Z (Z.of_nat 0)) with 0. change (default 60 (Some 60)) with 60.
  repeat split; try done; lra.
Qed.

Lemma sleeps_app (rl : t) (l1 l2 : list (Q * Q)) :
  sleeps rl (l1 ++ l2) = sleeps rl l1 ++ sleeps (run rl l1) l2.
Proof.
  revert rl. induction l1 as [| [now wake] rest IH]; intros rl; [done |].
  simpl. by rewrite IH.
Qed.

Lemma burst_first_call (t0 now wake : Q) :
  t0 <= now →
  snd (acquire (new sixty (Some 60) t0) now wake) = None ∧
  in_burst 1 now (fst (acquire (new sixty (Some 60) t0) now wake)).
Proof.
  intros Hnow.
  destruct (burst_refill 0 t0 now _ (new_in_burst t0) Hnow) as (Hlast & Hcap & Hrpm & Hlo & _).
  pose proof (refill_le_cap (new sixty (Some 60) t0) now) as Hhi.
  change (inject_Z (Z.of_nat 0)) with 0 in Hlo.
  change (maxTokens (new sixty (Some 60) t0)) with 60 in Hhi.
  change (tokens (new sixty (Some 60) t0)) with 60 in Hhi.
  assert (Hhi' : tokens (refill (new sixty (Some 60) t0) now) <= 60) by (apply Hhi; lra).
  rewrite acquire_enough by lra.
  split; [done |].
  assert (H0 : (now - now) / 1000 == 0) by field.
  unfold in_burst. cbn [fst decrement limits maxTokens tokens lastRefill].
  rewrite Hlast, H0. change (inject_Z (Z.of_nat 1)) with 1.
  repeat split; try done; lra.
Qed.

Lemma burst_of_sixty (t0 : Q) (burst : list (Q * Q)) (t61 wake : Q) :
  length burst = 60%nat →
  chronological t0 (map fst burst ++ [t61]) →
  (∀ t1, head (map fst burst) = Some t1 → t61 - t1 < 1000) →
  ∃ w, sleeps (new sixty (Some 60) t0) (burst ++ [(t61, wake)])
       = repeat None 60 ++ [Some w] ∧ w == 1000.
Proof.
  intros Hlen Hch Hwin.
  destruct burst as [| [t1 w1] mid]; [discriminate Hlen |].
  simpl in Hlen, Hch. destruct Hch as [H01 Hch].
  specialize (Hwin t1 eq_refl).
  destruct (burst_first_call t0 t1 w1 H01) as (Hnone & Hin).
  set (rl1 := fst (acquire (new sixty (Some 60) t0) t1 w1)) in *.
  assert (Hlast1 : lastRefill rl1 = t1).
  { destruct (burst_call 0 t0 t1 w1 _ (new_in_burst t0)) as (_ & _ & H); [lia | done | done]. }
  destruct (burst_calls mid 1 t1 rl1 [t61] Hin) as (Hs & Hin60 & Hlate).
  { lia. } { by rewrite Hlast1. }
  replace (1 + length mid)%nat with 60%nat in Hin60 by lia.
  destruct Hlate as [Hlate _].
  destruct (burst_exhausted t1 t61 wake (run rl1 mid) Hin60 Hlate Hwin) as (w & Hw & Hw1000).
  exists w. split; [| done].
  change ((t1, w1) :: mid) with ([(t1, w1)] ++ mid).
  rewrite <- app_assoc, sleeps_app. cbn [sleeps run]. fold rl1.
  rewrite Hnone, sleeps_app, Hs. cbn [sleeps]. rewrite Hw.
  replace (length mid) with 59%nat by lia. reflexivity.
Qed.

(** C7. [acquire()] refills in proportion to the time elapsed since the
    last refill, scaled by the requests-per-minute limit and capped at the
    capacity; with at least one token it takes one and returns without
    suspending; with less than one it suspends for [60000 / rpm] ms (1000 ms
    when no limit is configured), refills again and then takes one token
    whatever the count is. At 60 requests per minute with a bucket of 60,
    60 calls that start within one second of the first do not suspend and
    the 61st asks for a suspension of 1000 ms. *)
Theorem acquire_behaviour :
  (∀ rl now wake,
      (1 <= tokens (refill rl now) →
       acquire rl now wake = (decrement (refill rl now), None)) ∧
      (tokens (refill rl now) < 1 →
       acquire rl now wake
       = (decrement (refill (refill rl now) wake), Some (getWaitTime rl)))) ∧
  (∀ rl now rpm,
      requests_per_minute (limits rl) = Some rpm → ¬ rpm == 0 →
      getWaitTime rl = 60000 / rpm ∧
      refill rl now =
        {| limits := limits rl; maxTokens := maxTokens rl;
           tokens := Qmin (maxTokens rl) (tokens rl + (now - lastRefill rl) / 60000 * rpm);
           lastRefill := now |}) ∧
  (∀ rl now,
      truthy_num (requests_per_minute (limits rl)) = false →
      getWaitTime rl = 1000 ∧ refill rl now = rl) ∧
  (∀ t0 burst t61 wake,
      length burst = 60%nat →
      chronological t0 (map fst burst ++ [t61]) →
      (∀ t1, head (map fst burst) = Some t1 → t61 - t1 < 1000) →
      ∃ w, sleeps (new sixty (Some 60) t0) (burst ++ [(t61, wake)])
           = repeat None 60 ++ [Some w] ∧ w == 1000).
Proof.
  split; [| split; [| split]].
  - intros rl now wake. split; [apply acquire_enough | apply acquire_short].
  - intros rl now rpm Hrpm Hnz.
    split; [by apply getWaitTime_configured | by apply refill_configured].
  - intros rl now Hf.
    split; [by apply getWaitTime_unconfigured | by apply refill_unconfigured].
  - apply burst_of_sixty.
Qed.

(** Sixty-one calls made at the instant the limiter is built. *)
Lemma acquire_behaviour_witness :
  ∃ w, sleeps (new sixty (Some 60) 0) (repeat (0, 1000) 60 ++ [(0, 1000)])
       = repeat None 60 ++ [Some w] ∧ w == 1000.
Proof.
  destruct acquire_behaviour as (_ & _ & _ & Hburst).
  apply (Hburst 0 (repeat (0, 1000) 60) 0 1000).
  - reflexivity.
  - vm_compute. repeat split; intro; discriminate.
  - intros t1 [= <-]. reflexivity.
Defined.

End RateLimiter.

(** ** Model gateway (gateway/gateway.ts) *)

(** [s.split(c)] for a one-character separator: never empty. *)
Fixpoint split (c : ascii) (s : string) : list string :=
  match s with
  | EmptyString => [EmptyString]
  | String d s' =>
      if Ascii.eqb d c then EmptyString :: split c s'
      else match split c s' with
           | [] => [String d EmptyString]
           | seg :: segs => String d seg :: segs
           end
  end.

(** [s.toLowerCase()] on ASCII letters. *)
Definition lower (c : ascii) : ascii :=
  let n := nat_of_ascii c in
  if (65 <=? n)%nat && (n <=? 90)%nat then ascii_of_nat (n + 32) else c.

Fixpoint toLowerCase (s : string) : string :=
  match s with
  | EmptyString => EmptyString
  | String c s' => String (lower c) (toLowerCase s')
  end.

(** [s.includes(sub)]. *)
Definition str_includes (s sub : string) : bool :=
  bool_decide (is_Some (String.index 0 sub s)).

(** [{...a, ...b}] on property lists. *)
Definition spread {A} (a b : list (string * A)) : list (string * A) :=
  fold_left (λ acc '(k, v), define acc k v) b a.

(** The parts of the intermediate representation the gateway reads. *)
Module IR.

(** An entry of a credential block: an object that may lack either key of
    a credential reference. *)
Module CredentialEntry.
Record t : Type := {
  type : option string;
  ref : option string
}.
End CredentialEntry.

(** [credentials]: one reference [{type, ref}], or a block of named
    entries in [Object.entries] order. *)
Inductive Credentials : Type :=
| CredentialReference (type ref : string)
| CredentialBlock (entries : list (string * CredentialEntry.t)).

(** [provider.config]. *)
Module Settings.
Record t : Type := {
  endpoint : option string;
  timeout : option Q
}.
End Settings.

Module Provider.
Record t : Type := {
  id : string;
  name : string;
  type : string;
  credentials : option Credentials;
  config : option Settings.t;
  limits : option RateLimiter.RateLimits
}.
End Provider.

(** An entry of [AdvancedModelConfig]: [primary] or one of [fallback];
    [name] is the name of the model. *)
Module ModelProviderConfig.
Record t : Type := {
  provider : string;
  name : string;
  params : option (list (string * value))
}.
End ModelProviderConfig.

End IR.

Module Gateway.

(** The [CredentialResolver] interface; [getSecret] is asynchronous and may
    reject. *)
Record CredentialResolver : Type := {
  getEnv : string → option string;
  getSecret : string → result (option string)
}.

(** [DefaultCredentialResolver], over the environment of the process. *)
Definition DefaultCredentialResolver (env : list (string * string)) : CredentialResolver :=
  {| getEnv := λ varName, assoc varName env;
     getSecret := λ secretName, Ok (assoc secretName env) |}.

(** The two adapters, with the fields their constructors store. *)
Inductive AdapterKind : Type := OpenAI | Anthropic.

Record Adapter : Type := {
  kind : AdapterKind;
  apiKey : string;
  endpoint : string;
  timeout : Q
}.

Definition OpenAIProvider (apiKey : string) (endpoint : option string) (timeout : option Q)
  : Adapter :=
  {| kind := OpenAI; apiKey := apiKey;
     endpoint := default "https://api.openai.com/v1" endpoint;
     timeout := default 30000%Q timeout |}.

Definition AnthropicProvider (apiKey : string) (endpoint : option string) (timeout : option Q)
  : Adapter :=
  {| kind := Anthropic; apiKey := apiKey;
     endpoint := default "https://api.anthropic.com" endpoint;
     timeout := default 30000%Q timeout |}.

Record Usage : Type := {
  prompt_tokens : Q;
  completion_tokens : Q;
  total_tokens : Q
}.

Record ProviderResponse : Type := {
  content : string;
  model : string;
  usage : option Usage;
  finish_reason : option string
}.

(** The usage counters of one provider; [requests] and [errors] only ever
    count up from 0. *)
Record UsageStats : Type := {
  requests : nat;
  tokens : Q;
  errors : nat
}.

(** *** Credentials and provider construction *)

(** The body shared by the two places that resolve one reference. *)
Definition resolve (resolver : CredentialResolver) (type ref : string)
  : result (option string) :=
  if String.eqb type "env" then Ok (getEnv resolver ref)
  else if String.eqb type "secrets" then getSecret resolver ref
  else Ok None.

(** ['type' in credRef && 'ref' in credRef]. *)
Definition is_reference (e : IR.CredentialEntry.t) : bool :=
  bool_decide (is_Some (IR.CredentialEntry.type e)) &&
  bool_decide (is_Some (IR.CredentialEntry.ref e)).

(** The loop over [Object.entries(config.credentials)]: it stops at the
    first entry that has both keys. *)
Fixpoint resolve_block (resolver : CredentialResolver)
    (entries : list (string * IR.CredentialEntry.t)) : result (option string) :=
  match entries with
  | [] => Ok None
  | (_, credRef) :: rest =>
      match IR.CredentialEntry.type credRef, IR.CredentialEntry.ref credRef with
      | Some type, Some ref => resolve resolver type ref
      | _, _ => resolve_block resolver rest
      end
  end.

(** The first half of [createProvider]: the value of [apiKey]. A block
    that has a key named [type] is read as a single reference whose [type]
    is not one of the two strings. *)
Definition resolve_credentials (resolver : CredentialResolver)
    (credentials : option IR.Credentials) : result (option string) :=
  match credentials with
  | None => Ok None
  | Some (IR.CredentialReference type ref) => resolve resolver type ref
  | Some (IR.CredentialBlock entries) =>
      if bool_decide (is_Some (assoc "type" entries)) then Ok None
      else resolve_block resolver entries
  end.

Definition createProvider (resolver : CredentialResolver) (config : IR.Provider.t)
  : result Adapter :=
  match resolve_credentials resolver (IR.Provider.credentials config) with
  | Throw e => Throw e
  | Ok apiKey =>
      if negb (from_option (λ k, negb (String.eqb k "")) false apiKey) then
        Throw (Error ("No credentials found for provider " ++ IR.Provider.id config))
      else
        let apiKey := default "" apiKey in
        let endpoint := IR.Provider.config config ≫= IR.Settings.endpoint in
        let timeout := IR.Provider.config config ≫= IR.Settings.timeout in
        if String.eqb (IR.Provider.type config) "llm" then
          let providerName := toLowerCase (IR.Provider.name config) in
          if str_includes providerName "openai"
             || str_includes (IR.Provider.id config) "openai" then
            Ok (OpenAIProvider apiKey endpoint timeout)
          else if str_includes providerName "anthropic"
                  || str_includes (IR.Provider.id config) "anthropic" then
            Ok (AnthropicProvider apiKey endpoint timeout)
          else Throw (Error ("Unknown LLM provider: " ++ IR.Provider.name config))
        else Throw (Error ("Unsupported provider type: " ++ IR.Provider.type config))
  end.

(** [parts[parts.length - 1]] of [providerRef.split('.')]. *)
Definition extractProviderId (providerRef : string) : string :=
  List.last (split "." providerRef) "".

Definition estimateCost (modelName : string) : nat :=
  let name := toLowerCase modelName in
  if str_includes name "gpt-4" then 100
  else if str_includes name "gpt-3.5" then 10
  else if str_includes name "claude-3-opus" then 100
  else if str_includes name "claude-3-sonnet" then 50
  else if str_includes name "claude-3-haiku" then 10
  else 50.

(** [[...providers].sort((a, b) => cost(a) - cost(b))]: the sort of the
    engine is stable. *)
Fixpoint insert_by_cost (p : IR.ModelProviderConfig.t) (sorted : list IR.ModelProviderConfig.t)
  : list IR.ModelProviderConfig.t :=
  match sorted with
  | [] => [p]
  | q :: rest =>
      if (estimateCost (IR.ModelProviderConfig.name p)
          <=? estimateCost (IR.ModelProviderConfig.name q))%nat
      then p :: q :: rest
      else q :: insert_by_cost p rest
  end.

Definition sort_by_cost (providers : list IR.ModelProviderConfig.t)
  : list IR.ModelProviderConfig.t :=
  foldr insert_by_cost [] providers.

(** *** The gateway and its effects *)

Section Gateway.

(** Everything outside the process: the clock, the timers and the network
    behind the adapters. [clock] is [Date.now()], [sleep d] lets the timer
    of [setTimeout(_, d)] fire, and [adapter_complete] is
    [provider.complete(request)], which settles (its fetch carries a
    timeout signal). *)
Variable World : Type.
Variable clock : World → Q.
Variable sleep : Q → World → World.
Variable adapter_complete :
  Adapter → list (string * value) → World → World * result ProviderResponse.

(** The fields of a [ModelGateway], the console, and the list of requests
    handed to adapters so far (kept for stating which adapters ran). *)
Record state : Type := {
  registry : gmap string Adapter;
  rateLimiters : gmap string RateLimiter.t;
  usageStats : gmap string UsageStats;
  console : list string;
  calls : list (string * list (string * value));
  world : World
}.

Definition log (line : string) (st : state) : state :=
  {| registry := registry st; rateLimiters := rateLimiters st;
     usageStats := usageStats st; console := console st ++ [line];
     calls := calls st; world := world st |}.

Definition set_stats (f : UsageStats → UsageStats) (providerId : string) (st : state) : state :=
  {| registry := registry st; rateLimiters := rateLimiters st;
     usageStats := alter f providerId (usageStats st); console := console st;
     calls := calls st; world := world st |}.

Definition count_request (s : UsageStats) : UsageStats :=
  {| requests := S (requests s); tokens := tokens s; errors := errors s |}.

Definition count_error (s : UsageStats) : UsageStats :=
  {| requests := requests s; tokens := tokens s; errors := S (errors s) |}.

Definition count_tokens (n : Q) (s : UsageStats) : UsageStats :=
  {| requests := requests s; tokens := (tokens s + n)%Q; errors := errors s |}.

(** [new ModelGateway(...)] before [initializeProviders] has run. *)
Definition empty (w : World) : state :=
  {| registry := ∅; rateLimiters := ∅; usageStats := ∅; console := []; calls := [];
     world := w |}.

(** One turn of the loop of [initializeProviders]: a provider that cannot
    be created is reported on the console and skipped. *)
Definition initializeProvider (resolver : CredentialResolver) (st : state)
    (providerConfig : IR.Provider.t) : state :=
  match createProvider resolver providerConfig with
  | Ok provider =>
      let pid := IR.Provider.id providerConfig in
      {| registry := <[pid := provider]> (registry st);
         rateLimiters :=
           match IR.Provider.limits providerConfig with
           | Some limits =>
               <[pid := RateLimiter.new limits None (clock (world st))]> (rateLimiters st)
           | None => rateLimiters st
           end;
         usageStats := <[pid := {| requests := 0; tokens := 0%Q; errors := 0 |}]> (usageStats st);
         console := console st;
         calls := calls st;
         world := world st |}
  | Throw e =>
      log ("Failed to initialize provider " ++ IR.Provider.id providerConfig ++ ": " ++
           message e) st
  end.

Definition initializeProviders (resolver : CredentialResolver)
    (providers : list IR.Provider.t) (st : state) : state :=
  fold_left (initializeProvider resolver) providers st.

(** [await limiter.acquire()], on the clock of the world. *)
Definition acquire (rl : RateLimiter.t) (w : World) : RateLimiter.t * World :=
  let woken := sleep (RateLimiter.getWaitTime rl) w in
  match RateLimiter.acquire rl (clock w) (clock woken) with
  | (rl', Some _) => (rl', woken)
  | (rl', None) => (rl', w)
  end.

Definition completeWithProvider (providerId modelName : string) (messages : value)
    (params : list (string * value)) (st : state) : state * result ProviderResponse :=
  match registry st !! providerId with
  | None => (st, Throw (Error ("Provider not found: " ++ providerId)))
  | Some provider =>
      let st1 :=
        match rateLimiters st !! providerId with
        | Some limiter =>
            let '(limiter', w') := acquire limiter (world st) in
            {| registry := registry st;
               rateLimiters := <[providerId := limiter']> (rateLimiters st);
               usageStats := usageStats st; console := console st; calls := calls st;
               world := w' |}
        | None => st
        end in
      match usageStats st1 !! providerId with
      | None => (st1, Throw (TypeError "Cannot read properties of undefined"))
      | Some _ =>
          let st2 := set_stats count_request providerId st1 in
          let request := spread [("messages", messages); ("model", VStr modelName)] params in
          let '(w', r) := adapter_complete provider request (world st2) in
          let st3 :=
            {| registry := registry st2; rateLimiters := rateLimiters st2;
               usageStats := usageStats st2; console := console st2;
               calls := calls st2 ++ [(providerId, request)]; world := w' |} in
          match r with
          | Ok response =>
              match usage response with
              | Some u => (set_stats (count_tokens (total_tokens u)) providerId st3, Ok response)
              | None => (st3, Ok response)
              end
          | Throw e => (set_stats count_error providerId st3, Throw e)
          end
      end
  end.

(** One turn of the loops of the strategies: the call made for one
    candidate. *)
Definition attempt (providerConfig : IR.ModelProviderConfig.t) (messages : value)
    (params : option (list (string * value))) (st : state) : state * result ProviderResponse :=
  let providerId := extractProviderId (IR.ModelProviderConfig.provider providerConfig) in
  completeWithProvider providerId (IR.ModelProviderConfig.name providerConfig) messages
    (spread (default [] params) (default [] (IR.ModelProviderConfig.params providerConfig))) st.

Definition warning (providerConfig : IR.ModelProviderConfig.t) : string :=
  "Provider " ++ IR.ModelProviderConfig.provider providerConfig ++ " failed, trying next...".

(** The loop of [failoverStrategy], with [lastError] as it stands. *)
Fixpoint failover (providers : list IR.ModelProviderConfig.t) (messages : value)
    (params : option (list (string * value))) (lastError : option error) (st : state)
  : state * result ProviderResponse :=
  match providers with
  | [] =>
      (st, Throw (Error ("All providers failed. Last error: " ++
                         from_option message "undefined" lastError)))
  | providerConfig :: rest =>
      match attempt providerConfig messages params st with
      | (st', Ok response) => (st', Ok response)
      | (st', Throw e) =>
          failover rest messages params (Some e) (log (warning providerConfig) st')
      end
  end.

Definition failoverStrategy (providers : list IR.ModelProviderConfig.t) (messages : value)
    (params : option (list (string * value))) (st : state) : state * result ProviderResponse :=
  failover providers messages params None st.

Definition costOptimizedStrategy (providers : list IR.ModelProviderConfig.t)
    (messages : value) (params : option (list (string * value))) (st : state)
  : state * result ProviderResponse :=
  failoverStrategy (sort_by_cost providers) messages params st.

Definition latencyOptimizedStrategy (providers : list IR.ModelProviderConfig.t)
    (messages : value) (params : option (list (string * value))) (st : state)
  : state * result ProviderResponse :=
  failoverStrategy providers messages params st.

(** The sum of the request counters of every provider in [usageStats]. *)
Definition totalRequests (st : state) : nat :=
  map_fold (λ _ stats sum, sum + requests stats) 0 (usageStats st).

(** [providers[totalRequests % providers.length]]; on an empty list the
    index is [NaN] and reading [providerConfig.provider] throws. *)
Definition roundRobinStrategy (providers : list IR.ModelProviderConfig.t)
    (messages : value) (params : option (list (string * value))) (st : state)
  : state * result ProviderResponse :=
  match providers with
  | [] => (st, Throw (TypeError "Cannot read properties of undefined"))
  | _ :: _ =>
      let index := totalRequests st mod length providers in
      match providers !! index with
      | None => (st, Throw (TypeError "Cannot read properties of undefined"))
      | Some providerConfig => attempt providerConfig messages params st
      end
  end.

Definition completeWithStrategy (strategy : string)
    (providers : list IR.ModelProviderConfig.t) (messages : value)
    (params : option (list (string * value))) (st : state) : state * result ProviderResponse :=
  if String.eqb strategy "failover" then failoverStrategy providers messages params st
  else if String.eqb strategy "cost_optimized" then
    costOptimizedStrategy providers messages params st
  else if String.eqb strategy "latency_optimized" then
    latencyOptimizedStrategy providers messages params st
  else if String.eqb strategy "round_robin" then
    roundRobinStrategy providers messages params st
  else failoverStrategy providers messages params st.

(** Every candidate of [providers], tried in order from [st], throws: the
    state after the last warning, and the last error. *)
Fixpoint all_fail (providers : list IR.ModelProviderConfig.t) (messages : value)
    (params : option (list (string * value))) (lastError : option error) (st : state)
  : option (state * option error) :=
  match providers with
  | [] => Some (st, lastError)
  | providerConfig :: rest =>
      match attempt providerConfig messages params st with
      | (st', Throw e) =>
          all_fail rest messages params (Some e) (log (warning providerConfig) st')
      | (_, Ok _) => None
      end
  end.

(** The counters of a registered provider after one call to it. *)
Definition counted (r : result ProviderResponse) (s : UsageStats) : UsageStats :=
  match r with
  | Ok response =>
      match usage response with
      | Some u => count_tokens (total_tokens u) (count_request s)
      | None => count_request s
      end
  | Throw _ => count_error (count_request s)
  end.

(** *** Facts about maps of counters *)

Lemma alter_lookup {A} (f : A → A) (m : gmap string A) (i : string) (x : A) :
  m !! i = Some x → alter f i m = <[i := f x]> m.
Proof.
  intros H. rewrite <- (insert_id m i x H) at 1. apply alter_insert_eq.
Qed.

Definition sum_requests (m : gmap string UsageStats) : nat :=
  map_fold (λ _ stats sum, sum + requests stats) 0 m.

Lemma sum_requests_insert (m : gmap string UsageStats) (i : string) (s s' : UsageStats) :
  m !! i = Some s →
  sum_requests (<[i := s']> m) + requests s = sum_requests m + requests s'.
Proof.
  intros H. unfold sum_requests.
  rewrite <- insert_delete_eq.
  rewrite map_fold_insert_L; [| intros; lia | apply lookup_delete_eq].
  rewrite (map_fold_delete_L _ _ i s m); [lia | intros; lia | done].
Qed.

(** *** One call to a provider *)

Lemma completeWithProvider_unregistered
    (providerId modelName : string) (messages : value) (params : list (string * value))
    (st : state) :
  registry st !! providerId = None →
  completeWithProvider providerId modelName messages params st
  = (st, Throw (Error ("Provider not found: " ++ providerId))).
Proof. intros H. unfold completeWithProvider. by rewrite H. Qed.

Lemma completeWithProvider_registered
    (providerId modelName : string) (messages : value) (params : list (string * value))
    (st : state) (provider : Adapter) (s : UsageStats) :
  registry st !! providerId = Some provider →
  usageStats st !! providerId = Some s →
  ∃ st' r request w,
    completeWithProvider providerId modelName messages params st = (st', r) ∧
    r = snd (adapter_complete provider request w) ∧
    registry st' = registry st ∧
    usageStats st' = <[providerId := counted r s]> (usageStats st) ∧
    calls st' = calls st ++ [(providerId, request)] ∧
    console st' = console st.
Proof.
  intros Hreg Hstats. unfold completeWithProvider. rewrite Hreg.
  set (st1 := match rateLimiters st !! providerId with
              | Some limiter => _
              | None => st
              end).
  assert (H1 : registry st1 = registry st ∧ usageStats st1 = usageStats st ∧
               calls st1 = calls st ∧ console st1 = console st).
  { subst st1. destruct (rateLimiters st !! providerId) as [limiter |]; [| done].
    by destruct (acquire limiter (world st)). }
  destruct H1 as (Hr1 & Hu1 & Hc1 & Hl1).
  rewrite Hu1, Hstats.
  set (request := spread _ params).
  destruct (adapter_complete provider request (world (set_stats count_request providerId st1)))
    as [w' r] eqn:Hcall.
  assert (Hcount : alter count_request providerId (usageStats st1)
                   = <[providerId := count_request s]> (usageStats st)).
  { rewrite Hu1. by apply alter_lookup. }
  destruct r as [response | e].
  - destruct (usage response) as [u |] eqn:Hu.
    + eexists _, (Ok response), request, _. split; [done |].
      rewrite Hcall. simpl. rewrite Hu, Hcount, Hr1, Hc1, Hl1.
      repeat split; try done.
      rewrite (alter_lookup _ _ _ (count_request s)) by apply lookup_insert_eq.
      by rewrite insert_insert_eq.
    + eexists _, (Ok response), request, _. split; [done |].
      rewrite Hcall. simpl. rewrite Hu, Hcount, Hr1, Hc1, Hl1. done.
  - eexists _, (Throw e), request, _. split; [done |].
    rewrite Hcall. simpl. rewrite Hcount, Hr1, Hc1, Hl1.
    repeat split; try done.
    rewrite (alter_lookup _ _ _ (count_request s)) by apply lookup_insert_eq.
    by rewrite insert_insert_eq.
Qed.

(** A call reaches at most one adapter, the one of the provider it names. *)
Lemma completeWithProvider_calls
    (providerId modelName : string) (messages : value) (params : list (string * value))
    (st : state) :
  let st' := fst (completeWithProvider providerId modelName messages params st) in
  calls st' = calls st ∨ ∃ request, calls st' = calls st ++ [(providerId, request)].
Proof.
  cbv zeta. unfold completeWithProvider.
  destruct (registry st !! providerId) as [provider |]; [| by left].
  set (st1 := match rateLimiters st !! providerId with
              | Some limiter => _
              | None => st
              end).
  assert (Hc1 : calls st1 = calls st).
  { subst st1. destruct (rateLimiters st !! providerId) as [limiter |]; [| done].
    by destruct (acquire limiter (world st)). }
  destruct (usageStats st1 !! providerId); [| by left].
  destruct (adapter_complete _ _ _) as [w' [response | e]].
  - right. eexists. destruct (usage response); simpl; by rewrite Hc1.
  - right. eexists. simpl. by rewrite Hc1.
Qed.

Lemma totalRequests_registered
    (providerId modelName : string) (messages : value) (params : list (string * value))
    (st : state) (provider : Adapter) (s : UsageStats) :
  registry st !! providerId = Some provider →
  usageStats st !! providerId = Some s →
  totalRequests (fst (completeWithProvider providerId modelName messages params st))
  = S (totalRequests st).
Proof.
  intros Hreg Hstats.
  destruct (completeWithProvider_registered providerId modelName messages params st
              provider s Hreg Hstats) as (st' & r & request & w & -> & _ & _ & Hu & _).
  simpl. unfold totalRequests. rewrite Hu.
  pose proof (sum_requests_insert (usageStats st) providerId s (counted r s) Hstats) as Hsum.
  unfold sum_requests in Hsum.
  assert (Hreq : requests (counted r s) = S (requests s)).
  { destruct r as [response |]; simpl; [by destruct (usage response) | done]. }
  lia.
Qed.

(** *** Failover *)

Lemma failover_app (failed rest : list IR.ModelProviderConfig.t) (messages : value)
    (params : option (list (string * value))) :
  ∀ (lastError lastError' : option error) (st st' : state),
    all_fail failed messages params lastError st = Some (st', lastError') →
    failover (failed ++ rest) messages params lastError st
    = failover rest messages params lastError' st'.
Proof.
  induction failed as [| c failed IH]; intros lastError lastError' st st' Hfail.
  - simpl in Hfail. by injection Hfail as -> ->.
  - simpl in *. destruct (attempt c messages params st) as [st1 [response | e]]; [done |].
    by apply IH.
Qed.

Lemma all_fail_last (providers : list IR.ModelProviderConfig.t) (messages : value)
    (params : option (list (string * value))) :
  ∀ (lastError lastError' : option error) (st st' : state),
    all_fail providers messages params lastError st = Some (st', lastError') →
    providers ≠ [] ∨ is_Some lastError → is_Some lastError'.
Proof.
  induction providers as [| c rest IH]; intros lastError lastError' st st' Hfail Hne.
  - simpl in Hfail. injection Hfail as _ <-. by destruct Hne.
  - simpl in Hfail. destruct (attempt c messages params st) as [st1 [response | e]]; [done |].
    eapply IH; [exact Hfail | right; by eexists].
Qed.

(** The first candidate that succeeds ends the loop: its result is
    returned and no later candidate is tried. *)
Lemma failover_first_success
    (failed rest : list IR.ModelProviderConfig.t) (c : IR.ModelProviderConfig.t)
    (messages : value) (params : option (list (string * value)))
    (st st1 st2 : state) (lastError : option error) (response : ProviderResponse) :
  all_fail failed messages params None st = Some (st1, lastError) →
  attempt c messages params st1 = (st2, Ok response) →
  failoverStrategy (failed ++ c :: rest) messages params st = (st2, Ok response).
Proof.
  intros Hfail Hok. unfold failoverStrategy.
  rewrite (failover_app failed (c :: rest) messages params None lastError st st1 Hfail).
  simpl. by rewrite Hok.
Qed.

(** When every candidate has failed, the error raised names the last
    failure. *)
Lemma failover_exhausted
    (providers : list IR.ModelProviderConfig.t) (messages : value)
    (params : option (list (string * value))) (st st' : state) (lastError : option error) :
  providers ≠ [] →
  all_fail providers messages params None st = Some (st', lastError) →
  ∃ e, lastError = Some e ∧
       failoverStrategy providers messages params st
       = (st', Throw (Error ("All providers failed. Last error: " ++ message e))).
Proof.
  intros Hne Hfail.
  destruct (all_fail_last providers messages params None lastError st st' Hfail) as [e ->];
    [by left |].
  exists e. split; [done |]. unfold failoverStrategy.
  rewrite <- (app_nil_r providers).
  by rewrite (failover_app providers [] messages params None (Some e) st st' Hfail).
Qed.

(** C4. Failover tries the candidates in order: when the candidates before
    [c] all throw and [c] succeeds, the result of [c] is returned and the
    gateway is left as [c] left it; when every candidate of a non-empty
    list throws, the error raised names the last failure. For two
    candidates on distinct registered providers, the first of which fails
    and the second succeeds, the second result is returned, the first
    provider's error counter and the second provider's request counter
    each go up by exactly one. *)
Theorem failover_tries_in_order :
  (∀ failed c rest messages params st st1 st2 lastError response,
      all_fail failed messages params None st = Some (st1, lastError) →
      attempt c messages params st1 = (st2, Ok response) →
      failoverStrategy (failed ++ c :: rest) messages params st = (st2, Ok response)) ∧
  (∀ providers messages params st st' lastError,
      providers ≠ [] →
      all_fail providers messages params None st = Some (st', lastError) →
      ∃ e, lastError = Some e ∧
           failoverStrategy providers messages params st
           = (st', Throw (Error ("All providers failed. Last error: " ++ message e)))) ∧
  (∀ A B messages params st adapterA adapterB statsA statsB e response,
      let idA := extractProviderId (IR.ModelProviderConfig.provider A) in
      let idB := extractProviderId (IR.ModelProviderConfig.provider B) in
      idA ≠ idB →
      registry st !! idA = Some adapterA → usageStats st !! idA = Some statsA →
      registry st !! idB = Some adapterB → usageStats st !! idB = Some statsB →
      (∀ request w, snd (adapter_complete adapterA request w) = Throw e) →
      (∀ request w, snd (adapter_complete adapterB request w) = Ok response) →
      ∃ st' statsA' statsB',
        failoverStrategy [A; B] messages params st = (st', Ok response) ∧
        usageStats st' !! idA = Some statsA' ∧ usageStats st' !! idB = Some statsB' ∧
        errors statsA' = S (errors statsA) ∧ requests statsA' = S (requests statsA) ∧
        requests statsB' = S (requests statsB) ∧ errors statsB' = errors statsB ∧
        map fst (calls st') = map fst (calls st) ++ [idA; idB]).
Proof.
  split; [| split].
  - intros. by eapply failover_first_success.
  - intros. by eapply failover_exhausted.
  - intros A B messages params st adapterA adapterB statsA statsB e response idA idB
      Hne HrA HsA HrB HsB HfailA HokB.
    destruct (completeWithProvider_registered idA (IR.ModelProviderConfig.name A) messages
                (spread (default [] params) (default [] (IR.ModelProviderConfig.params A)))
                st adapterA statsA HrA HsA)
      as (st1 & r1 & req1 & w1 & Hrun1 & Hr1 & Hreg1 & Hu1 & Hc1 & _).
    rewrite HfailA in Hr1. subst r1.
    set (st1' := log (warning A) st1).
    assert (HrB' : registry st1' !! idB = Some adapterB) by (simpl; by rewrite Hreg1).
    assert (HsB' : usageStats st1' !! idB = Some statsB).
    { simpl. rewrite Hu1. by rewrite lookup_insert_ne. }
    destruct (completeWithProvider_registered idB (IR.ModelProviderConfig.name B) messages
                (spread (default [] params) (default [] (IR.ModelProviderConfig.params B)))
                st1' adapterB statsB HrB' HsB')
      as (st2 & r2 & req2 & w2 & Hrun2 & Hr2 & Hreg2 & Hu2 & Hc2 & _).
    rewrite HokB in Hr2. subst r2.
    exists st2, (counted (Throw e) statsA), (counted (Ok response) statsB).
    split.
    { unfold failoverStrategy. simpl. unfold attempt. fold idA idB.
      rewrite Hrun1. fold st1'. by rewrite Hrun2. }
    rewrite Hu2. simpl usageStats. rewrite Hu1.
    rewrite lookup_insert_ne by done. rewrite !lookup_insert_eq.
    repeat split; try done.
    + simpl. by destruct (usage response).
    + simpl. by destruct (usage response).
    + rewrite Hc2. simpl calls. rewrite Hc1, !map_app. simpl. by rewrite <- app_assoc.
Qed.

(** *** Round robin *)

(** C5. Round robin hands the request to the one candidate whose index is
    the sum of the request counters of all providers modulo the number of
    candidates; its result, a failure included, is the result of that one
    call, which reaches no adapter but that candidate's. With two
    candidates and three requests counted the request goes to index 1 (3
    mod 2); once that call is counted the total is four and the next request
    goes to index 0 (4 mod 2). *)
Theorem round_robin_routes :
  (∀ providers messages params st,
      providers ≠ [] →
      ∃ c, providers !! (totalRequests st mod length providers) = Some c ∧
           roundRobinStrategy providers messages params st = attempt c messages params st ∧
           let st' := fst (roundRobinStrategy providers messages params st) in
           (calls st' = calls st ∨
            ∃ request,
              calls st'
              = calls st ++ [(extractProviderId (IR.ModelProviderConfig.provider c), request)])) ∧
  (∀ c0 c1 messages params st adapter stats,
      totalRequests st = 3 →
      registry st !! extractProviderId (IR.ModelProviderConfig.provider c1) = Some adapter →
      usageStats st !! extractProviderId (IR.ModelProviderConfig.provider c1) = Some stats →
      let st' := fst (roundRobinStrategy [c0; c1] messages params st) in
      roundRobinStrategy [c0; c1] messages params st = attempt c1 messages params st ∧
      totalRequests st' = 4 ∧
      roundRobinStrategy [c0; c1] messages params st' = attempt c0 messages params st').
Proof.
  split.
  - intros providers messages params st Hne.
    destruct providers as [| p rest]; [done |].
    set (providers := p :: rest) in *.
    assert (Hlt : totalRequests st mod length providers < length providers).
    { apply Nat.mod_upper_bound. done. }
    destruct (lookup_lt_is_Some_2 providers _ Hlt) as [c Hc].
    exists c. split; [done |].
    assert (Hrr : roundRobinStrategy providers messages params st
                  = attempt c messages params st).
    { unfold roundRobinStrategy. subst providers. cbv zeta. by rewrite Hc. }
    split; [done |]. cbv zeta. rewrite Hrr. apply completeWithProvider_calls.
  - intros c0 c1 messages params st adapter stats Htotal Hreg Hstats. cbv zeta.
    assert (Hrr : roundRobinStrategy [c0; c1] messages params st
                  = attempt c1 messages params st).
    { unfold roundRobinStrategy. cbv zeta. by rewrite Htotal. }
    rewrite Hrr.
    assert (Hfour : totalRequests (fst (attempt c1 messages params st)) = 4).
    { unfold attempt. erewrite totalRequests_registered by done. by rewrite Htotal. }
    repeat split; [done |].
    unfold roundRobinStrategy. cbv zeta. by rewrite Hfour.
Qed.

(** *** Credential blocks *)

Definition with_credentials (config : IR.Provider.t) (c : option IR.Credentials)
  : IR.Provider.t :=
  {| IR.Provider.id := IR.Provider.id config;
     IR.Provider.name := IR.Provider.name config;
     IR.Provider.type := IR.Provider.type config;
     IR.Provider.credentials := c;
     IR.Provider.config := IR.Provider.config config;
     IR.Provider.limits := IR.Provider.limits config |}.

Lemma resolve_block_skip (resolver : CredentialResolver)
    (skipped rest : list (string * IR.CredentialEntry.t)) :
  Forall (λ e, is_reference e.2 = false) skipped →
  resolve_block resolver (skipped ++ rest) = resolve_block resolver rest.
Proof.
  induction 1 as [| [k e] skipped He _ IH]; [done |].
  simpl in *. unfold is_reference in He.
  by destruct (IR.CredentialEntry.type e), (IR.CredentialEntry.ref e).
Qed.

(** C8, amended. In a credential block that has no entry named [type],
    the first entry that has the shape of a reference decides: the provider
    is created exactly as if that reference stood alone, whatever entries
    follow it. When it does not resolve, creation fails with "No
    credentials found" and the provider is not registered, even if a later
    entry would resolve. A block that has an entry named [type] is taken
    for a single reference of no known kind: no entry is resolved, and
    creation fails in the same way. *)
Theorem first_reference_entry_decides
    (resolver : CredentialResolver) (config : IR.Provider.t)
    (skipped later : list (string * IR.CredentialEntry.t)) (key type ref : string) :
  let entry := {| IR.CredentialEntry.type := Some type; IR.CredentialEntry.ref := Some ref |} in
  let entries := skipped ++ (key, entry) :: later in
  IR.Provider.credentials config = Some (IR.CredentialBlock entries) →
  Forall (λ e, is_reference e.2 = false) skipped →
  (assoc "type" entries = None →
   createProvider resolver config
   = createProvider resolver (with_credentials config (Some (IR.CredentialReference type ref))) ∧
   (resolve resolver type ref = Ok None →
    createProvider resolver config
    = Throw (Error ("No credentials found for provider " ++ IR.Provider.id config)) ∧
    ∀ st, registry (initializeProviders resolver [config] st) = registry st)) ∧
  (is_Some (assoc "type" entries) →
   createProvider resolver config
   = Throw (Error ("No credentials found for provider " ++ IR.Provider.id config)) ∧
   ∀ st, registry (initializeProviders resolver [config] st) = registry st).
Proof.
  intros entry entries Hcred Hskip. split.
  - intros Hno.
    assert (Hres : resolve_credentials resolver (IR.Provider.credentials config)
                   = resolve resolver type ref).
    { rewrite Hcred. simpl. rewrite Hno.
      rewrite bool_decide_eq_false_2 by (by intros [? ?]).
      subst entries. by rewrite resolve_block_skip. }
    assert (Hcreate : createProvider resolver config
                      = createProvider resolver
                          (with_credentials config (Some (IR.CredentialReference type ref)))).
    { unfold createProvider. by rewrite Hres. }
    split; [done |]. intros Hnone.
    assert (Hthrow : createProvider resolver config
                     = Throw (Error ("No credentials found for provider " ++
                                     IR.Provider.id config))).
    { unfold createProvider. by rewrite Hres, Hnone. }
    split; [done |]. intros st. simpl. unfold initializeProvider. by rewrite Hthrow.
  - intros Htype.
    assert (Hthrow : createProvider resolver config
                     = Throw (Error ("No credentials found for provider " ++
                                     IR.Provider.id config))).
    { unfold createProvider. rewrite Hcred. simpl.
      by rewrite bool_decide_eq_true_2. }
    split; [done |]. intros st. simpl. unfold initializeProvider. by rewrite Hthrow.
Qed.

End Gateway.

Arguments state World : clear implicits.
Arguments empty {World} w.
Arguments registry {World} s.
Arguments usageStats {World} s.
Arguments rateLimiters {World} s.
Arguments console {World} s.
Arguments calls {World} s.
Arguments world {World} s.
Arguments totalRequests {World} st.

(** *** A small world for examples

    The world is the clock reading; a timer advances it by its delay. An
    adapter built with the key ["sk-down"] always fails, any other adapter
    answers. *)
Definition tick (d : Q) (w : Q) : Q := (w + d)%Q.

Definition pong : ProviderResponse :=
  {| content := "pong"; model := "claude-3-haiku";
     usage := Some {| prompt_tokens := 3; completion_tokens := 1; total_tokens := 4 |};
     finish_reason := Some "stop" |}.

Definition answer (a : Adapter) (request : list (string * value)) (w : Q)
  : Q * result ProviderResponse :=
  if String.eqb (apiKey a) "sk-down" then (w, Throw (Error "fetch failed"))
  else (w, Ok pong).

(** A provider whose credential block names a primary and a backup key. *)
Definition two_keys : IR.Provider.t :=
  {| IR.Provider.id := "openai";
     IR.Provider.name := "OpenAI";
     IR.Provider.type := "llm";
     IR.Provider.credentials :=
       Some (IR.CredentialBlock
               [("api_key", {| IR.CredentialEntry.type := Some "env";
                               IR.CredentialEntry.ref := Some "PRIMARY_KEY" |});
                ("backup_key", {| IR.CredentialEntry.type := Some "env";
                                  IR.CredentialEntry.ref := Some "BACKUP_KEY" |})]);
     IR.Provider.config := None;
     IR.Provider.limits := None |}.

(** An environment in which only the backup key is set. *)
Definition backup_only : CredentialResolver :=
  DefaultCredentialResolver [("BACKUP_KEY", "sk-backup")].

(** C8, as stated, fails: the first entry does not resolve, the second
    would, and the provider is not initialized. *)
Lemma later_entry_is_not_tried :
  resolve backup_only "env" "BACKUP_KEY" = Ok (Some "sk-backup") ∧
  createProvider backup_only two_keys
  = Throw (Error "No credentials found for provider openai") ∧
  registry (initializeProviders Q id backup_only [two_keys] (empty 0%Q)) !! "openai" = None ∧
  ¬ ∃ a, createProvider backup_only two_keys = Ok a ∧ apiKey a = "sk-backup".
Proof.
  split; [reflexivity |]. split; [reflexivity |]. split; [reflexivity |].
  intros (a & Ha & _). discriminate Ha.
Qed.

Lemma first_reference_entry_decides_witness :
  createProvider backup_only two_keys
  = Throw (Error "No credentials found for provider openai") ∧
  registry (initializeProviders Q id backup_only [two_keys] (empty 0%Q)) = ∅.
Proof.
  destruct (first_reference_entry_decides Q id backup_only two_keys []
              [("backup_key", {| IR.CredentialEntry.type := Some "env";
                                 IR.CredentialEntry.ref := Some "BACKUP_KEY" |})]
              "api_key" "env" "PRIMARY_KEY" eq_refl (Forall_nil_2 _))
    as [Hfirst _].
  destruct (Hfirst eq_refl) as [_ Hfail].
  destruct (Hfail eq_refl) as [Hthrow Hreg].
  split; [exact Hthrow | apply (Hreg (empty 0%Q))].
Defined.

(** Two providers, "openai" (down) and "anthropic" (up), registered with
    two and one requests counted. *)
Definition busy : state Q :=
  {| registry := {[ "openai" := OpenAIProvider "sk-down" None None;
                    "anthropic" := AnthropicProvider "sk-live" None None ]};
     rateLimiters := {[ "anthropic" := RateLimiter.new RateLimiter.sixty None 0 ]};
     usageStats := {[ "openai" := {| requests := 2; tokens := 0; errors := 0 |};
                      "anthropic" := {| requests := 1; tokens := 8; errors := 0 |} ]};
     console := [];
     calls := [];
     world := 0%Q |}.

Definition gpt4 : IR.ModelProviderConfig.t :=
  {| IR.ModelProviderConfig.provider := "provider.openai";
     IR.ModelProviderConfig.name := "gpt-4";
     IR.ModelProviderConfig.params := None |}.

Definition haiku : IR.ModelProviderConfig.t :=
  {| IR.ModelProviderConfig.provider := "provider.anthropic";
     IR.ModelProviderConfig.name := "claude-3-haiku";
     IR.ModelProviderConfig.params := Some [("max_tokens", VNum 256)] |}.

Definition hello : value :=
  VArr [VObj [("role", VStr "user"); ("content", VStr "ping")]].

Lemma failover_tries_in_order_witness :
  ∃ st' statsA' statsB',
    failoverStrategy Q id tick answer [gpt4; haiku] hello None busy = (st', Ok pong) ∧
    usageStats st' !! "openai" = Some statsA' ∧
    usageStats st' !! "anthropic" = Some statsB' ∧
    errors statsA' = 1 ∧ requests statsA' = 3 ∧
    requests statsB' = 2 ∧ errors statsB' = 0 ∧
    map fst (calls st') = ["openai"; "anthropic"].
Proof.
  destruct (failover_tries_in_order Q id tick answer) as (_ & _ & Htwo).
  apply (Htwo gpt4 haiku hello None busy
           (OpenAIProvider "sk-down" None None) (AnthropicProvider "sk-live" None None)
           {| requests := 2; tokens := 0; errors := 0 |}
           {| requests := 1; tokens := 8; errors := 0 |}
           (Error "fetch failed") pong).
  - vm_compute. discriminate.
  - reflexivity.
  - reflexivity.
  - reflexivity.
  - reflexivity.
  - intros request w. reflexivity.
  - intros request w. reflexivity.
Defined.

Lemma round_robin_routes_witness :
  roundRobinStrategy Q id tick answer [gpt4; haiku] hello None busy
  = attempt Q id tick answer haiku hello None busy ∧
  totalRequests (fst (roundRobinStrategy Q id tick answer [gpt4; haiku] hello None busy)) = 4 ∧
  roundRobinStrategy Q id tick answer [gpt4; haiku] hello None
    (fst (roundRobinStrategy Q id tick answer [gpt4; haiku] hello None busy))
  = attempt Q id tick answer gpt4 hello None
      (fst (roundRobinStrategy Q id tick answer [gpt4; haiku] hello None busy)).
Proof.
  destruct (round_robin_routes Q id tick answer) as (_ & Hnext).
  apply (Hnext gpt4 haiku hello None busy (AnthropicProvider "sk-live" None None)
           {| requests := 1; tokens := 8; errors := 0 |}); reflexivity.
Defined.

(** Round robin does not fall back: with the total at 2 the request goes to
    "openai", which is down, and the error is the caller's. *)
Example round_robin_no_fallback :
  let idle :=
    {| registry := registry busy; rateLimiters := ∅;
       usageStats := {[ "openai" := {| requests := 2; tokens := 0; errors := 0 |};
                        "anthropic" := {| requests := 0; tokens := 0; errors := 0 |} ]};
       console := []; calls := []; world := 0%Q |} in
  let '(st', r) := roundRobinStrategy Q id tick answer [gpt4; haiku] hello None idle in
  r = Throw (Error "fetch failed") ∧ map fst (calls st') = ["openai"].
Proof. vm_compute. by split. Qed.

End Gateway.

(** ** Workflow engine (workflow.ts) *)

Module Workflow.

(** The expressions of the syntax tree, by [kind]; every kind the engine
    does not name is [OtherExpression]. *)
Inductive Expression : Type :=
| Literal (value : value)
| Reference (path : list string)
| ListExpression (elements : list Expression)
| MapExpression (properties : list (string * Expression))
| BlockExpression (type : string) (identifier : option string)
    (attributes : list (string * Expression))
| OtherExpression (kind : string).

(** A value with no built-in anywhere inside it. *)
Fixpoint data (v : value) : bool :=
  match v with
  | VHost _ _ => false
  | VArr elements => forallb data elements
  | VObj properties => forallb (λ p, data p.2) properties
  | _ => true
  end.


Section Evaluator.

(** The built-in objects of the host the engine runs on. *)
Variable realm : Realm.

(** The loop of a [Reference]: [value = value?.[part]] for each part. *)
Fixpoint resolve_path (path : list string) (v : value) : result value :=
  match path with
  | [] => Ok v
  | part :: rest =>
      match opt_get realm v part with
      | Throw e => Throw e
      | Ok v' => resolve_path rest v'
      end
  end.

Fixpoint evaluateExpression (expr : Expression) (scope : value) {struct expr} : result value :=
  match expr with
  | Literal v => Ok v
  | Reference path => resolve_path path scope
  | ListExpression elements =>
      let fix map_elements (es : list Expression) : result (list value) :=
        match es with
        | [] => Ok []
        | e :: es' =>
            match evaluateExpression e scope with
            | Throw err => Throw err
            | Ok v =>
                match map_elements es' with
                | Throw err => Throw err
                | Ok vs => Ok (v :: vs)
                end
            end
        end in
      match map_elements elements with
      | Throw err => Throw err
      | Ok vs => Ok (VArr vs)
      end
  | MapExpression properties =>
      let fix set_properties (props : list (string * Expression))
              (obj : list (string * value)) : result (list (string * value)) :=
        match props with
        | [] => Ok obj
        | (key, e) :: props' =>
            match evaluateExpression e scope with
            | Throw err => Throw err
            | Ok v => set_properties props' (assign obj key v)
            end
        end in
      match set_properties properties [] with
      | Throw err => Throw err
      | Ok obj => Ok (VObj obj)
      end
  | BlockExpression _ _ _ | OtherExpression _ => Ok VNull
  end.

(** The two local loops of [evaluateExpression], by name. *)
Fixpoint map_elements (scope : value) (es : list Expression) : result (list value) :=
  match es with
  | [] => Ok []
  | e :: es' =>
      match evaluateExpression e scope with
      | Throw err => Throw err
      | Ok v =>
          match map_elements scope es' with
          | Throw err => Throw err
          | Ok vs => Ok (v :: vs)
          end
      end
  end.

Fixpoint set_properties (scope : value) (props : list (string * Expression))
    (obj : list (string * value)) : result (list (string * value)) :=
  match props with
  | [] => Ok obj
  | (key, e) :: props' =>
      match evaluateExpression e scope with
      | Throw err => Throw err
      | Ok v => set_properties scope props' (assign obj key v)
      end
  end.

(** A key that some standard prototype answers: a member access with such
    a key can leave the data. *)
Definition inherited_name (k : string) : bool :=
  String.eqb k "__proto__" ||
  existsb (λ p, method realm p k)
    [ObjectPrototype; ArrayPrototype; StringPrototype; NumberPrototype; BooleanPrototype].

(** An expression none of whose reference paths has such a key (and whose
    literals are data, as the literals of the syntax are). *)
Fixpoint plain (expr : Expression) : bool :=
  match expr with
  | Literal v => data v
  | Reference path => forallb (λ k, negb (inherited_name k)) path
  | ListExpression elements => forallb plain elements
  | MapExpression properties => forallb (λ p, plain p.2) properties
  | _ => true
  end.

(** Induction over expressions, through the lists they nest in. *)
Lemma Expression_nested_ind (P : Expression → Prop) :
  (∀ v, P (Literal v)) →
  (∀ path, P (Reference path)) →
  (∀ elements, Forall P elements → P (ListExpression elements)) →
  (∀ properties, Forall (λ p, P p.2) properties → P (MapExpression properties)) →
  (∀ type identifier attributes, P (BlockExpression type identifier attributes)) →
  (∀ kind, P (OtherExpression kind)) →
  ∀ expr, P expr.
Proof.
  intros Hlit Href Hlist Hmap Hblock Hother.
  fix IH 1. intros [v | path | elements | properties | type identifier attributes | kind].
  - apply Hlit.
  - apply Href.
  - apply Hlist. induction elements as [| e es IHes]; constructor; [apply IH | apply IHes].
  - apply Hmap. induction properties as [| [k e] ps IHps]; constructor; [apply IH | apply IHps].
  - apply Hblock.
  - apply Hother.
Qed.

Lemma evaluate_list (elements : list Expression) (scope : value) :
  evaluateExpression (ListExpression elements) scope
  = match map_elements scope elements with
    | Throw err => Throw err
    | Ok vs => Ok (VArr vs)
    end.
Proof.
  cbn [evaluateExpression].
  match goal with
  | |- match ?f elements with _ => _ end = _ =>
      assert (H : ∀ es, f es = map_elements scope es)
  end.
  { induction es as [| e es IH]; [done |].
    cbn [map_elements]. rewrite <- IH. reflexivity. }
  by rewrite H.
Qed.

Lemma evaluate_map (properties : list (string * Expression)) (scope : value) :
  evaluateExpression (MapExpression properties) scope
  = match set_properties scope properties [] with
    | Throw err => Throw err
    | Ok obj => Ok (VObj obj)
    end.
Proof.
  cbn [evaluateExpression].
  match goal with
  | |- match ?f properties [] with _ => _ end = _ =>
      assert (H : ∀ ps acc, f ps acc = set_properties scope ps acc)
  end.
  { induction ps as [| [k e] ps IH]; intros acc; [done |].
    cbn [set_properties]. destruct (evaluateExpression e scope); [apply IH | done]. }
  by rewrite H.
Qed.

(** *** References *)





(** A key that no prototype answers finds own properties only. *)
Lemma inherited_undefined (v : value) (k : string) :
  inherited_name k = false → inherited realm v k = VUndefined.
Proof.
  unfold inherited_name, inherited. intros H.
  apply orb_false_iff in H as [Hproto H]. rewrite Hproto. simpl in H.
  repeat (apply orb_false_iff in H as [? H]).
  destruct v; simpl; by repeat match goal with Hm : method realm _ k = false |- _ =>
                                          rewrite Hm; clear Hm end.
Qed.

Lemma data_lookup (elements : list value) (i : nat) (v : value) :
  forallb data elements = true → elements !! i = Some v → data v = true.
Proof.
  intros Hall Hi. apply list_elem_of_lookup_2, list_elem_of_In in Hi.
  by apply (proj1 (forallb_forall data elements) Hall).
Qed.

Lemma data_assoc (properties : list (string * value)) (k : string) (v : value) :
  forallb (λ p, data p.2) properties = true → assoc k properties = Some v → data v = true.
Proof.
  induction properties as [| [k' a] l IH]; [done |]. simpl.
  intros [Ha Hl]%andb_true_iff. destruct (String.eqb k k'); [by intros [= <-] | by apply IH].
Qed.

Lemma opt_get_data (v : value) (k : string) :
  data v = true → inherited_name k = false →
  ∃ w, opt_get realm v k = Ok w ∧ data w = true.
Proof.
  intros Hv Hk. pose proof (inherited_undefined v k Hk) as Hinh.
  destruct v as [| | b | n | s | elements | properties | callable name]; simpl in *;
    try discriminate Hv; rewrite ?Hinh; try (by eexists).
  - destruct (String.eqb k "length"); [by eexists |].
    destruct (array_index k) as [i |]; simpl; [| by eexists].
    destruct (String.get i s); simpl; by eexists.
  - destruct (String.eqb k "length"); [by eexists |].
    destruct (array_index k) as [i |]; simpl; [| by eexists].
    destruct (elements !! i) as [w |] eqn:Hw; simpl; [| by eexists].
    exists w. split; [done |]. by eapply data_lookup.
  - destruct (assoc k properties) as [w |] eqn:Hw; simpl; [| by eexists].
    exists w. split; [done |]. by eapply data_assoc.
Qed.

Lemma resolve_path_data (path : list string) (v : value) :
  data v = true → forallb (λ k, negb (inherited_name k)) path = true →
  ∃ w, resolve_path path v = Ok w ∧ data w = true.
Proof.
  revert v. induction path as [| part rest IH]; intros v Hv Hpath; simpl in *.
  - by exists v.
  - apply andb_true_iff in Hpath as [Hpart Hrest]. apply negb_true_iff in Hpart.
    destruct (opt_get_data v part Hv Hpart) as (w & -> & Hw). by apply IH.
Qed.

(** *** Lists *)


(** *** Objects built by assignment *)

Lemma assoc_app {A} (k : string) (l1 l2 : list (string * A)) :
  assoc k (l1 ++ l2) = match assoc k l1 with Some a => Some a | None => assoc k l2 end.
Proof.
  induction l1 as [| [k' a] l1 IH]; [done |].
  simpl. by destruct (String.eqb k k').
Qed.

Lemma assoc_obj_set {A} (l : list (string * A)) (k k' : string) (v : A) :
  assoc k' (obj_set l k v) = if String.eqb k' k then Some v else assoc k' l.
Proof.
  induction l as [| [k0 a] l IH]; simpl.
  - by destruct (String.eqb k' k).
  - destruct (String.eqb k k0) eqn:Hk0; simpl.
    + apply String.eqb_eq in Hk0. subst k0. by destruct (String.eqb k' k).
    + rewrite IH. destruct (String.eqb k' k0) eqn:Hk'; [| done].
      apply String.eqb_eq in Hk'. subst k0.
      rewrite String.eqb_sym in Hk0. by rewrite Hk0.
Qed.

Lemma assoc_insert_index {A} (n : N) (l : list (string * A)) (k k' : string) (v : A) :
  assoc k l = None →
  assoc k' (insert_index n k v l) = if String.eqb k' k then Some v else assoc k' l.
Proof.
  induction l as [| [k0 a] l IH]; intros Hk; simpl in *; [by destruct (String.eqb k' k) |].
  destruct (String.eqb k k0) eqn:Hk0; [done |].
  destruct (index_value k0) as [n' |]; [destruct (n' <? n)%N |]; simpl; try done.
  rewrite (IH Hk). destruct (String.eqb k' k) eqn:Hk'; [| done].
  apply String.eqb_eq in Hk'. subst k'. by rewrite Hk0.
Qed.

Lemma assoc_define {A} (l : list (string * A)) (k k' : string) (v : A) :
  assoc k' (define l k v) = if String.eqb k' k then Some v else assoc k' l.
Proof.
  unfold define. destruct (assoc k l) eqn:Hk; [apply assoc_obj_set |].
  destruct (index_value k); [by apply assoc_insert_index | apply assoc_obj_set].
Qed.

(** An assignment to a key other than [__proto__] binds that key and no
    other; an assignment to [__proto__] never creates the key. *)
Lemma assoc_assign {A} (l : list (string * A)) (k k' : string) (v : A) :
  k ≠ "__proto__" →
  assoc k' (assign l k v) = if String.eqb k' k then Some v else assoc k' l.
Proof.
  intros Hk. unfold assign.
  rewrite (proj2 (String.eqb_neq k "__proto__") Hk). apply assoc_define.
Qed.

Lemma assoc_assign_other {A} (l : list (string * A)) (k k' : string) (v : A) :
  k' ≠ k → assoc k' (assign l k v) = assoc k' l.
Proof.
  intros Hk'. unfold assign. destruct (_ && _); [done |].
  by rewrite assoc_define, (proj2 (String.eqb_neq k' k) Hk').
Qed.


Lemma assoc_Some_elem_of {A} (l : list (string * A)) (k : string) (a : A) :
  assoc k l = Some a → (k, a) ∈ l.
Proof.
  induction l as [| [k' a'] l IH]; [done |]. simpl.
  destruct (String.eqb k k') eqn:Hk.
  - apply String.eqb_eq in Hk. subst k'. intros [= <-]. by left.
  - intros H. right. by apply IH.
Qed.

Lemma elem_of_obj_set {A} (l : list (string * A)) (k : string) (v : A) (p : string * A) :
  p ∈ obj_set l k v → p = (k, v) ∨ p ∈ l.
Proof.
  induction l as [| [k' a] l IH]; simpl.
  - intros ->%list_elem_of_singleton. by left.
  - destruct (String.eqb k k') eqn:Hk.
    + apply String.eqb_eq in Hk. subst k'.
      intros [-> | H]%elem_of_cons; [by left | right; by right].
    + intros [-> | H]%elem_of_cons; [right; by left |].
      destruct (IH H) as [-> | H']; [by left | right; by right].
Qed.

Lemma elem_of_insert_index {A} (n : N) (l : list (string * A)) (k : string) (v : A)
    (p : string * A) :
  p ∈ insert_index n k v l → p = (k, v) ∨ p ∈ l.
Proof.
  induction l as [| [k' a] l IH]; simpl.
  - intros ->%list_elem_of_singleton. by left.
  - destruct (index_value k') as [n' |]; [destruct (n' <? n)%N |].
    + intros [-> | H]%elem_of_cons; [right; by left |].
      destruct (IH H) as [-> | H']; [by left | right; by right].
    + intros [-> | H]%elem_of_cons; [by left | by right].
    + intros [-> | H]%elem_of_cons; [by left | by right].
Qed.

Lemma elem_of_assign {A} (l : list (string * A)) (k : string) (v : A) (p : string * A) :
  p ∈ assign l k v → p = (k, v) ∨ p ∈ l.
Proof.
  unfold assign, define. destruct (_ && _); [by right |].
  destruct (assoc k l); [apply elem_of_obj_set |].
  destruct (index_value k); [apply elem_of_insert_index | apply elem_of_obj_set].
Qed.

Lemma data_assign (l : list (string * value)) (k : string) (v : value) :
  forallb (λ p, data p.2) l = true → data v = true →
  forallb (λ p, data p.2) (assign l k v) = true.
Proof.
  intros Hl Hv. apply forallb_forall. intros p Hp%list_elem_of_In.
  destruct (elem_of_assign _ _ _ _ Hp) as [-> | Hin]; [done |].
  apply (proj1 (forallb_forall _ l) Hl). by apply list_elem_of_In.
Qed.

(** The object a loop of assignments builds has, under each key other than
    [__proto__], the value of the last property written with that key. *)
Lemma set_properties_assoc (scope : value) (props : list (string * Expression)) :
  ∀ (acc obj : list (string * value)) (k : string),
    k ≠ "__proto__" →
    set_properties scope props acc = Ok obj →
    match assoc k (rev props) with
    | Some e => ∃ v, evaluateExpression e scope = Ok v ∧ assoc k obj = Some v
    | None => assoc k obj = assoc k acc
    end.
Proof.
  induction props as [| [k0 e0] ps IH]; intros acc obj k Hproto Hset; simpl in *.
  - by injection Hset as ->.
  - destruct (evaluateExpression e0 scope) as [v0 |] eqn:He0; [| done].
    specialize (IH _ _ k Hproto Hset). rewrite assoc_app.
    destruct (assoc k (rev ps)) as [e |]; [done |].
    simpl. destruct (String.eqb k k0) eqn:Hk.
    + apply String.eqb_eq in Hk. subst k0. exists v0. split; [done |].
      by rewrite IH, assoc_assign, String.eqb_refl.
    + rewrite IH. apply assoc_assign_other. by apply String.eqb_neq.
Qed.



(** *** Plain expressions over data never throw *)

Lemma evaluateExpression_data (expr : Expression) (scope : value) :
  plain expr = true → data scope = true →
  ∃ v, evaluateExpression expr scope = Ok v ∧ data v = true.
Proof.
  intros Hplain Hscope. revert Hplain.
  induction expr as [v | path | elements IH | properties IH | type identifier attributes | kind]
    using Expression_nested_ind; intros Hplain.
  - by exists v.
  - by apply resolve_path_data.
  - rewrite evaluate_list. simpl in Hplain.
    assert (H : ∃ vs, map_elements scope elements = Ok vs ∧ forallb data vs = true).
    { induction IH as [| e es He _ IHes]; simpl in *; [by exists [] |].
      apply andb_true_iff in Hplain as [Hp Hps].
      destruct (He Hp) as (v & -> & Hv). destruct (IHes Hps) as (vs & -> & Hvs).
      exists (v :: vs). split; [done |]. simpl. by rewrite Hv, Hvs. }
    destruct H as (vs & -> & Hvs). by exists (VArr vs).
  - rewrite evaluate_map. simpl in Hplain.
    assert (H : ∀ acc, forallb (λ p, data p.2) acc = true →
                       ∃ obj, set_properties scope properties acc = Ok obj ∧
                              forallb (λ p, data p.2) obj = true).
    { induction IH as [| [k e] ps He _ IHps]; intros acc Hacc; simpl in *; [by exists acc |].
      apply andb_true_iff in Hplain as [Hp Hps].
      destruct (He Hp) as (v & -> & Hv). apply (IHps Hps). by apply data_assign. }
    destruct (H [] eq_refl) as (obj & -> & Hobj). by exists (VObj obj).
  - by exists VNull.
  - by exists VNull.
Qed.


End Evaluator.

(** *** A realm for the examples

    The methods of the five prototypes as the fifth edition of the language
    has them, with the accessor methods of its annex; a current host
    defines more. Its built-ins have no further members: the examples read
    none. *)
Definition es5 : Realm :=
  {| method := λ p k,
       includes
         match p with
         | ObjectPrototype =>
             ["constructor"; "toString"; "toLocaleString"; "valueOf"; "hasOwnProperty";
              "isPrototypeOf"; "propertyIsEnumerable"; "__defineGetter__"; "__defineSetter__";
              "__lookupGetter__"; "__lookupSetter__"]
         | ArrayPrototype =>
             ["constructor"; "toString"; "toLocaleString"; "concat"; "join"; "pop"; "push";
              "reverse"; "shift"; "slice"; "sort"; "splice"; "unshift"; "indexOf";
              "lastIndexOf"; "every"; "some"; "forEach"; "map"; "filter"; "reduce";
              "reduceRight"]
         | StringPrototype =>
             ["constructor"; "toString"; "valueOf"; "charAt"; "charCodeAt"; "concat";
              "indexOf"; "lastIndexOf"; "localeCompare"; "match"; "replace"; "search";
              "slice"; "split"; "substring"; "substr"; "toLowerCase"; "toLocaleLowerCase";
              "toUpperCase"; "toLocaleUpperCase"; "trim"]
         | NumberPrototype =>
             ["constructor"; "toString"; "toLocaleString"; "valueOf"; "toFixed";
              "toExponential"; "toPrecision"]
         | BooleanPrototype => ["constructor"; "toString"; "valueOf"]
         end k;
     member := λ _ _, Ok VUndefined |}.



(** *** Blocks, tools and the run time the engine talks to *)

(** A block of the syntax tree. *)
Inductive Block : Type :=
| mkBlock (type identifier : string) (label : option string) (children : list Block)
    (attributes : list (string * Expression)).

Definition block_type (b : Block) : string := let 'mkBlock t _ _ _ _ := b in t.
Definition block_identifier (b : Block) : string := let 'mkBlock _ i _ _ _ := b in i.
Definition block_children (b : Block) : list Block := let 'mkBlock _ _ _ c _ := b in c.
Definition block_attributes (b : Block) : list (string * Expression) :=
  let 'mkBlock _ _ _ _ a := b in a.

(** A tool of the intermediate representation, and the part of the
    representation the engine reads. *)
Record ToolDef : Type := {
  id : string;
  handler : option string;
  security : option Sandbox.ToolSecurityConfig
}.

Record A22IR : Type := {
  tools : list ToolDef
}.

(** What [fetch] resolves to, with the outcome of [response.json()]. *)
Record HttpResponse : Type := {
  ok : bool;
  status : Q;
  json : result value
}.

(** What the engine prints and what it hands to the audit logger. *)
Inductive event : Type :=
| Console (line : string)
| Executing (kind id : string) (inputs : list (string * value))
| AuditToolCall (tool caller : string) (success : bool) (error : option string).

(** [handler.match(/external\("(.+)"\)/)]: the text between the leftmost
    [external("] that can be closed and the last [")] on its line. *)
Definition is_line_terminator (c : ascii) : bool :=
  (nat_of_ascii c =? 10)%nat || (nat_of_ascii c =? 13)%nat.

Fixpoint capture (t : string) : option string :=
  match t with
  | EmptyString => None
  | String c t' =>
      if is_line_terminator c then None
      else match capture t' with
           | Some u => Some (String c u)
           | None =>
               if String.prefix (dquote ++ ")") t' then Some (String c EmptyString) else None
           end
  end.

Definition opening : string := "external(" ++ dquote.

Fixpoint match_external (handler : string) : option string :=
  match handler with
  | EmptyString => None
  | String _ rest =>
      if String.prefix opening handler then
        match capture (String.substring (String.length opening)
                         (String.length handler - String.length opening) handler) with
        | Some url => Some url
        | None => match_external rest
        end
      else match_external rest
  end.

(** [...v] in an array literal or an argument list. *)
Definition iterate (v : value) : result (list value) :=
  match v with
  | VArr elements => Ok elements
  | VStr s => Ok (map (λ c, VStr (String c EmptyString)) (list_ascii_of_string s))
  | _ => Throw (TypeError "Spread syntax requires ...iterable")
  end.

Definition usage_value (u : option Gateway.Usage) : value :=
  match u with
  | Some u =>
      VObj [("prompt_tokens", VNum (Gateway.prompt_tokens u));
            ("completion_tokens", VNum (Gateway.completion_tokens u));
            ("total_tokens", VNum (Gateway.total_tokens u))]
  | None => VUndefined
  end.

Section Engine.

(** The world outside the engine, the services of the JavaScript run time,
    the network behind [fetch], and the [Runtime] the engine was built
    with. [http_post] gives the time the exchange takes and what it comes
    to, or [None] when the request never settles. *)
Variable World : Type.
Variable realm : Realm.
Variable show : Q → string.
Variable regex_test : string → string → bool.
Variable json_bytes : value → Q.
Variable http_post :
  string → list (string * value) → World → World * option (Q * result HttpResponse).

Record Runtime : Type := {
  getIR : option A22IR;
  executeAgent :
    string → list value → value → World → World * result Gateway.ProviderResponse
}.

Variable runtime : Runtime.

Record state : Type := {
  world : World;
  journal : list event
}.

Definition record (e : event) (s : state) : state :=
  {| world := world s; journal := journal s ++ [e] |}.

Definition callToolHandler (handler : string) (input : list (string * value)) (s : state)
  : state * Sandbox.completion :=
  match match_external handler with
  | Some url =>
      let s1 := record (Console ("[Tool] Calling external handler: " ++ url)) s in
      let '(w, settled) := http_post url input (world s1) in
      let s2 := {| world := w; journal := journal s1 |} in
      match settled with
      | None => (s2, None)
      | Some (elapsed, Throw e) =>
          (s2, Some (elapsed, Throw (Error ("Tool handler failed: " ++ message e))))
      | Some (elapsed, Ok response) =>
          if negb (ok response) then
            (s2, Some (elapsed,
                       Throw (Error ("Tool handler failed: " ++
                                     ("Tool handler returned " ++ show (status response))))))
          else
            match json response with
            | Ok v => (s2, Some (elapsed, Ok v))
            | Throw e =>
                (s2, Some (elapsed, Throw (Error ("Tool handler failed: " ++ message e))))
            end
      end
  | None => (s, Some (0%Q, Throw (Error ("Unknown tool handler format: " ++ handler))))
  end.

(** The loop [inputs[attr.key] = this.evaluateExpression(attr.value, scope)]. *)
Definition evaluate_inputs (attributes : list (string * Expression)) (scope : value)
  : result (list (string * value)) :=
  set_properties realm scope attributes [].

(** The function handed to the sandbox by [executeTool]. *)
Definition toolFn (toolDef : ToolDef) (input : list (string * value)) (s : state)
  : state * Sandbox.completion :=
  match handler toolDef with
  | Some h =>
      if negb (String.eqb h "") then callToolHandler h input s
      else (s, Some (0%Q, Ok (VObj [("success", VBool true); ("data", VObj input)])))
  | None => (s, Some (0%Q, Ok (VObj [("success", VBool true); ("data", VObj input)])))
  end.

Definition executeTool (identifier : option string) (attributes : list (string * Expression))
    (scope : value) (ir : A22IR) (s : state) : state * outcome value :=
  let toolName := default "" identifier in
  match List.find (λ t, String.eqb (id t) toolName) (tools ir) with
  | None => (s, Throws (Error ("Tool not found: " ++ toolName)))
  | Some toolDef =>
      match evaluate_inputs attributes scope with
      | Throw e => (s, Throws e)
      | Ok inputs =>
          let s1 := record (Executing "tool" toolName inputs) s in
          match Sandbox.execute show regex_test json_bytes state (security toolDef)
                  (toolFn toolDef) inputs s1 with
          | (s2, Returns r) =>
              (record (AuditToolCall toolName "workflow" true None) s2, Returns r)
          | (s2, Throws e) =>
              (record (AuditToolCall toolName "workflow" false (Some (message e))) s2,
               Throws e)
          | (s2, Hangs) => (s2, Hangs)
          end
      end
  end.

Definition executeAgentStep (identifier : option string)
    (attributes : list (string * Expression)) (scope : value) (s : state)
  : state * outcome value :=
  let agentId := default "" identifier in
  match evaluate_inputs attributes scope with
  | Throw e => (s, Throws e)
  | Ok inputs =>
      let s1 := record (Executing "agent" agentId inputs) s in
      let input k := default VUndefined (assoc k inputs) in
      let messages :=
        if truthy (input "message") then
          Ok [VObj [("role", VStr "user"); ("content", input "message")]]
        else if truthy (input "messages") then iterate (input "messages")
        else Ok [] in
      match messages with
      | Throw e => (s1, Throws e)
      | Ok messages =>
          match executeAgent runtime agentId messages (input "params") (world s1) with
          | (w, Throw e) => ({| world := w; journal := journal s1 |}, Throws e)
          | (w, Ok response) =>
              ({| world := w; journal := journal s1 |},
               Returns (VObj [("content", VStr (Gateway.content response));
                              ("usage", usage_value (Gateway.usage response))]))
          end
      end
  end.

Definition executeCapability (identifier : option string)
    (attributes : list (string * Expression)) (scope : value) (s : state)
  : state * outcome value :=
  let capabilityId := default "" identifier in
  match evaluate_inputs attributes scope with
  | Throw e => (s, Throws e)
  | Ok inputs =>
      (record (Executing "capability" capabilityId inputs) s,
       Returns (VObj [("success", VBool true); ("capability", VStr capabilityId)]))
  end.

(** One turn of the loop over the steps: the scope after the step. *)
Definition run_step (ir : A22IR) (stepName : string) (expr : Expression)
    (scope : list (string * value)) (s : state) : state * outcome (list (string * value)) :=
  match expr with
  | BlockExpression type identifier attributes =>
      let store (r : state * outcome value) :=
        match r with
        | (s', Returns v) => (s', Returns (assign scope stepName v))
        | (s', Throws e) => (s', Throws e)
        | (s', Hangs) => (s', Hangs)
        end in
      if String.eqb type "tool" then
        store (executeTool identifier attributes (VObj scope) ir s)
      else if String.eqb type "agent" then
        store (executeAgentStep identifier attributes (VObj scope) s)
      else if String.eqb type "capability" then
        store (executeCapability identifier attributes (VObj scope) s)
      else
        (record (Console ("[WorkflowStep] " ++ stepName ++ ": Unknown step type '" ++
                          type ++ "'")) s,
         Returns scope)
  | _ => (s, Returns scope)
  end.

(** The loop over [stepsBlock.attributes]; a step that throws or never
    settles ends it. *)
Fixpoint run_steps (ir : A22IR) (steps : list (string * Expression))
    (scope : list (string * value)) (s : state) : state * outcome (list (string * value)) :=
  match steps with
  | [] => (s, Returns scope)
  | (stepName, expr) :: rest =>
      match run_step ir stepName expr scope s with
      | (s', Returns scope') => run_steps ir rest scope' s'
      | (s', Throws e) => (s', Throws e)
      | (s', Hangs) => (s', Hangs)
      end
  end.

(** [WorkflowEngine.execute]. The line printed on completion carries the
    running time in the source; it is left out here. *)
Definition execute (workflowBlock : Block) (input : value) (s : state)
  : state * outcome value :=
  let name := block_identifier workflowBlock in
  let s0 := record (Console ("[Workflow] Starting " ++ name)) s in
  match getIR runtime with
  | None => (s0, Throws (Error "Runtime IR not initialized"))
  | Some ir =>
      match List.find (λ c, String.eqb (block_type c) "steps")
              (block_children workflowBlock) with
      | None => (record (Console ("[Workflow] " ++ name ++ " has no steps.")) s0,
                 Returns VUndefined)
      | Some stepsBlock =>
          match run_steps ir (block_attributes stepsBlock) [("input", input)] s0 with
          | (s1, Returns scope) =>
              (record (Console ("[Workflow] Completed " ++ name)) s1, Returns (VObj scope))
          | (s1, Throws e) =>
              (record (Console ("[Workflow] Failed " ++ name ++ ": " ++ message e)) s1,
               Throws e)
          | (s1, Hangs) => (s1, Hangs)
          end
      end
  end.

(** *** Failure of a step *)

Lemma run_steps_app (ir : A22IR) (before after : list (string * Expression)) :
  ∀ (scope scope1 : list (string * value)) (s s1 : state),
    run_steps ir before scope s = (s1, Returns scope1) →
    run_steps ir (before ++ after) scope s = run_steps ir after scope1 s1.
Proof.
  induction before as [| [stepName expr] rest IH]; intros scope scope1 s s1 Hrun; simpl in *.
  - by injection Hrun as -> ->.
  - destruct (run_step ir stepName expr scope s) as [s' [scope' | e |]]; [| done | done].
    by apply IH.
Qed.

(** Only an executed step can throw. *)
Lemma run_step_throws (ir : A22IR) (stepName : string) (expr : Expression)
    (scope : list (string * value)) (s s' : state) (e : error) :
  run_step ir stepName expr scope s = (s', Throws e) →
  ∃ type identifier attributes,
    expr = BlockExpression type identifier attributes ∧
    (type = "tool" ∨ type = "agent" ∨ type = "capability").
Proof.
  destruct expr as [| | | | type identifier attributes |]; try done.
  intros Hrun. exists type, identifier, attributes. split; [done |]. simpl in Hrun.
  destruct (String.eqb type "tool") eqn:Htool; [left; by apply String.eqb_eq |].
  destruct (String.eqb type "agent") eqn:Hagent; [right; left; by apply String.eqb_eq |].
  destruct (String.eqb type "capability") eqn:Hcap; [right; right; by apply String.eqb_eq |].
  done.
Qed.

(** C3. When the steps before a step have run and that step throws, the
    workflow throws the same error: the steps after it are not run (the
    engine's state is the one the failing step left, plus the line that
    reports the failure) and no scope is returned, so the results of the
    earlier steps are lost to the caller. *)
Theorem failed_step_aborts_workflow
    (workflowBlock stepsBlock : Block) (ir : A22IR) (input : value)
    (before after : list (string * Expression)) (stepName : string) (expr : Expression)
    (scope1 : list (string * value)) (s s1 s2 : state) (e : error) :
  let name := block_identifier workflowBlock in
  getIR runtime = Some ir →
  List.find (λ c, String.eqb (block_type c) "steps") (block_children workflowBlock)
  = Some stepsBlock →
  block_attributes stepsBlock = before ++ (stepName, expr) :: after →
  run_steps ir before [("input", input)] (record (Console ("[Workflow] Starting " ++ name)) s)
  = (s1, Returns scope1) →
  run_step ir stepName expr scope1 s1 = (s2, Throws e) →
  execute workflowBlock input s
  = (record (Console ("[Workflow] Failed " ++ name ++ ": " ++ message e)) s2, Throws e) ∧
  ∀ scope, snd (execute workflowBlock input s) ≠ Returns scope.
Proof.
  intros name Hir Hsteps Hattrs Hbefore Hfail.
  assert (Hexec : execute workflowBlock input s
                  = (record (Console ("[Workflow] Failed " ++ name ++ ": " ++ message e)) s2,
                     Throws e)).
  { unfold execute. rewrite Hir, Hsteps, Hattrs.
    rewrite (run_steps_app ir before _ _ _ _ _ Hbefore).
    simpl. by rewrite Hfail. }
  split; [done |]. intros scope. by rewrite Hexec.
Qed.

End Engine.

Arguments state World : clear implicits.
Arguments world {World} s.
Arguments journal {World} s.
Arguments Runtime World : clear implicits.

(** *** The workflow "greet" against an unreachable tool handler *)

(** No request gets through: every [fetch] rejects after 3 ms. *)
Definition unreachable (url : string) (input : list (string * value)) (w : unit)
  : unit * option (Q * result HttpResponse) :=
  (w, Some (3%Q, Throw (TypeError "fetch failed"))).

Definition echo : ToolDef :=
  {| id := "echo";
     handler := Some ("external(" ++ dquote ++ "http://127.0.0.1:1/echo" ++ dquote ++ ")")%string;
     security := None |}.

Definition offline : Runtime unit :=
  {| getIR := Some {| tools := [echo] |};
     executeAgent := λ _ _ _ w, (w, Throw (Error "Model gateway not initialized. No providers configured.")) |}.

Definition note_step : string * Expression :=
  ("s0", BlockExpression "capability" (Some "note") []).

Definition echo_step : string * Expression :=
  ("s1", BlockExpression "tool" (Some "echo") [("text", Reference ["input"; "text"])]).

Definition last_step : string * Expression :=
  ("s2", BlockExpression "capability" (Some "done") [("seen", Reference ["s1"])]).

Definition greet : Block :=
  mkBlock "workflow" "greet" None
    [mkBlock "steps" "" None [] [note_step; echo_step; last_step]] [].

Definition fresh : state unit := {| world := (); journal := [] |}.

Lemma failed_step_aborts_workflow_witness :
  ∃ s', execute unit es5 (λ _, "n") (λ _ _, true) (λ _, 0%Q) unreachable offline greet
          (VObj [("text", VStr "hi")]) fresh
        = (s', Throws (Error "Tool handler failed: fetch failed")) ∧
        ∀ e, e ∈ journal s' → e ≠ Executing "capability" "done" [("seen", VUndefined)].
Proof.
  eexists. split.
  - refine (proj1 (failed_step_aborts_workflow unit es5 (λ _, "n") (λ _ _, true) (λ _, 0%Q)
                     unreachable offline greet
                     (mkBlock "steps" "" None [] [note_step; echo_step; last_step])
                     {| tools := [echo] |} (VObj [("text", VStr "hi")])
                     [note_step] [last_step] "s1"
                     (BlockExpression "tool" (Some "echo") [("text", Reference ["input"; "text"])])
                     _ fresh _ _ (Error "Tool handler failed: fetch failed")
                     eq_refl eq_refl eq_refl _ _)); reflexivity.
  - intros e He. vm_compute in He.
    repeat (apply elem_of_cons in He as [-> | He]; [discriminate |]).
    by apply elem_of_nil in He.
Defined.

Example greet_fails :
  execute unit es5 (λ _, "n") (λ _ _, true) (λ _, 0%Q) unreachable offline greet
    (VObj [("text", VStr "hi")]) fresh
  = ({| world := ();
        journal :=
          [Console "[Workflow] Starting greet";
           Executing "capability" "note" [];
           Executing "tool" "echo" [("text", VStr "hi")];
           Console "[Tool] Calling external handler: http://127.0.0.1:1/echo";
           AuditToolCall "echo" "workflow" false (Some "Tool handler failed: fetch failed");
           Console "[Workflow] Failed greet: Tool handler failed: fetch failed"] |},
     Throws (Error "Tool handler failed: fetch failed")).
Proof. reflexivity. Qed.

End Workflow.

(** * Further properties of the same code *)

(** ** Permission checker (security/policy.ts) *)

Module Permissions.

Record Permission : Type := {
  resource : string;
  action : string
}.

(** The test inside [grantedPermissions.some(...)]. *)
Definition grants (required granted : Permission) : bool :=
  String.eqb (resource granted) (resource required) &&
  (String.eqb (action granted) (action required) || String.eqb (action granted) "admin").

Definition hasPermission (grantedPermissions : list Permission) (required : Permission) : bool :=
  existsb (grants required) grantedPermissions.

Definition hasAllPermissions (grantedPermissions required : list Permission) : bool :=
  forallb (hasPermission grantedPermissions) required.

Definition describe (p : Permission) : string := resource p ++ ":" ++ action p.

Definition checkPermissions (grantedPermissions required : list Permission) : result unit :=
  let missing := List.filter (λ perm, negb (hasPermission grantedPermissions perm)) required in
  if (0 <? length missing)%nat then
    Throw (PolicyError ("Missing required permissions: " ++ join ", " (map describe missing)))
  else Ok ().

Lemma filter_nil_forallb {A} (f : A → bool) (l : list A) :
  List.filter (λ x, negb (f x)) l = [] ↔ forallb f l = true.
Proof.
  induction l as [| x l IH]; simpl; [done |].
  destruct (f x); simpl; [exact IH | split; discriminate].
Qed.

Lemma hasPermission_spec (granted : list Permission) (required : Permission) :
  hasPermission granted required = true ↔
  ∃ g, g ∈ granted ∧ resource g = resource required ∧
       (action g = action required ∨ action g = "admin").
Proof.
  unfold hasPermission, grants. rewrite existsb_exists. split.
  - intros (g & Hin & Hg). exists g. apply andb_prop in Hg as [Hr Ha].
    apply String.eqb_eq in Hr. apply orb_prop in Ha.
    split; [by apply list_elem_of_In |]. split; [done |].
    destruct Ha as [Ha | Ha]; apply String.eqb_eq in Ha; auto.
  - intros (g & Hin & Hr & Ha). exists g. split; [by apply list_elem_of_In |].
    apply andb_true_intro. split; [by apply String.eqb_eq |].
    apply orb_true_intro. destruct Ha as [Ha | Ha]; [left | right]; by apply String.eqb_eq.
Qed.

(** X1. [checkPermissions] returns normally exactly when
    [hasAllPermissions] is true, that is when every required permission has
    a grant on the same resource whose action is the required one or
    [admin]; with nothing required it always passes. *)
Theorem checkPermissions_iff_all_granted (granted required : list Permission) :
  (checkPermissions granted required = Ok () ↔ hasAllPermissions granted required = true) ∧
  (hasAllPermissions granted required = true ↔
   ∀ p, p ∈ required →
        ∃ g, g ∈ granted ∧ resource g = resource p ∧
             (action g = action p ∨ action g = "admin")) ∧
  checkPermissions granted [] = Ok ().
Proof.
  split; [| split; [| done]].
  - unfold checkPermissions, hasAllPermissions.
    rewrite <- filter_nil_forallb.
    destruct (List.filter _ required) as [| m ms]; simpl; split; done.
  - unfold hasAllPermissions. rewrite forallb_forall. split.
    + intros H p Hp. apply hasPermission_spec, H. by apply list_elem_of_In.
    + intros H p Hp. apply hasPermission_spec, H. by apply list_elem_of_In.
Qed.

(** X2. A grant of [admin] on a resource satisfies a requirement of any
    action on that resource. *)
Theorem admin_grants_every_action (granted : list Permission) (r : string) :
  {| resource := r; action := "admin" |} ∈ granted →
  ∀ a, hasPermission granted {| resource := r; action := a |} = true.
Proof.
  intros Hin a. apply hasPermission_spec.
  exists {| resource := r; action := "admin" |}. simpl. auto.
Qed.

Lemma admin_grants_every_action_witness :
  hasPermission [{| resource := "files"; action := "read" |};
                 {| resource := "db"; action := "admin" |}]
    {| resource := "db"; action := "drop" |} = true.
Proof.
  apply (admin_grants_every_action _ "db"). apply list_elem_of_In. simpl. auto.
Defined.

(** X3. Granting more never takes a permission away: a set of requirements
    that passes keeps passing when grants are added on either side. *)
Theorem more_grants_keep_permissions (granted before after required : list Permission) :
  checkPermissions granted required = Ok () →
  checkPermissions (before ++ granted ++ after) required = Ok ().
Proof.
  unfold checkPermissions.
  destruct (List.filter _ required) as [| m ms] eqn:Hm; simpl; [intros _ | done].
  apply filter_nil_forallb in Hm.
  assert (H : forallb (hasPermission (before ++ granted ++ after)) required = true).
  { rewrite forallb_forall in *. intros p Hp. specialize (Hm p Hp).
    unfold hasPermission in *. rewrite !existsb_app, Hm. by rewrite orb_true_r. }
  apply filter_nil_forallb in H. by rewrite H.
Qed.

Lemma more_grants_keep_permissions_witness :
  checkPermissions
    ([{| resource := "net"; action := "connect" |}] ++
     [{| resource := "files"; action := "admin" |}] ++ [])
    [{| resource := "files"; action := "write" |}] = Ok ().
Proof.
  apply (more_grants_keep_permissions [{| resource := "files"; action := "admin" |}]).
  reflexivity.
Defined.

End Permissions.

(** ** Policy enforcement, continued *)

Module PolicyFacts.

Import Policy.

(** [policy] with its [deny] field replaced. *)
Definition with_deny (policy : Policy) (d : option PolicyDeny) : Policy :=
  {| id := id policy; allow := allow policy; deny := d; limits := limits policy |}.

(** X4. Capabilities have an allow list only: the check passes exactly
    when the policy has no capability allow list or the list contains the
    id, and no deny list of the policy has any effect on it. *)
Theorem capability_check_allow_list_only (policy : Policy) (x : string) :
  (checkCapabilityAccess policy x = Ok () ↔
   allow policy ≫= allow_capabilities = None ∨
   ∃ l, allow policy ≫= allow_capabilities = Some l ∧ x ∈ l) ∧
  (checkCapabilityAccess policy x ≠ Ok () → is_policy_error (checkCapabilityAccess policy x)) ∧
  ∀ d, checkCapabilityAccess (with_deny policy d) x = checkCapabilityAccess policy x.
Proof.
  unfold checkCapabilityAccess. simpl.
  destruct (allow policy ≫= allow_capabilities) as [l |].
  - destruct (includes l x) eqn:Hx; simpl.
    + apply includes_elem_of in Hx. repeat split; try done. right. by exists l.
    + apply includes_not_elem_of in Hx. repeat split; try done.
      * by intros [? | (l' & [= <-] & ?)].
      * intros _. by eexists.
  - repeat split; try done. by left.
Qed.

(** X5. An allow list that exists but is empty allows nothing: every tool,
    workflow, data and capability id is rejected. *)
Theorem empty_allow_list_rejects_all (policy : Policy) (x : string) :
  (allow policy ≫= allow_tools = Some [] → is_policy_error (checkToolAccess policy x)) ∧
  (allow policy ≫= allow_workflows = Some [] →
   is_policy_error (checkWorkflowAccess policy x)) ∧
  (allow policy ≫= allow_data = Some [] → is_policy_error (checkDataAccess policy x)) ∧
  (allow policy ≫= allow_capabilities = Some [] →
   is_policy_error (checkCapabilityAccess policy x)).
Proof.
  unfold checkToolAccess, checkWorkflowAccess, checkDataAccess, checkCapabilityAccess.
  repeat split; intros ->; simpl; try (by eexists);
    destruct (opt_includes _ x); by eexists.
Qed.

(** A policy that lists no tool at all. *)
Definition sealed : Policy :=
  {| id := "sealed";
     allow := Some {| allow_tools := Some []; allow_workflows := Some [];
                      allow_data := Some []; allow_capabilities := Some [] |};
     deny := None; limits := None |}.

Lemma empty_allow_list_rejects_all_witness :
  is_policy_error (checkToolAccess sealed "echo") ∧
  is_policy_error (checkCapabilityAccess sealed "net").
Proof.
  destruct (empty_allow_list_rejects_all sealed "echo") as (Htool & _).
  destruct (empty_allow_list_rejects_all sealed "net") as (_ & _ & _ & Hcap).
  split; [apply Htool | apply Hcap]; reflexivity.
Defined.

Lemma exceeded_spec (limit : option Q) (v : Q) :
  exceeded limit v = true ↔ ∃ l, limit = Some l ∧ ¬ l == 0 ∧ (l < v)%Q.
Proof.
  unfold exceeded, truthy_num, Qgtb. destruct limit as [l |]; simpl.
  - rewrite andb_true_iff, !negb_true_iff, <- !not_true_iff_false.
    rewrite Qeq_bool_iff, Qle_bool_iff. split.
    + intros [Hz Hle]. exists l. split; [done |]. split; [done |]. by apply Qnot_le_lt.
    + intros (l' & [= <-] & Hz & Hlt). split; [done |]. by apply Qlt_not_le.
  - split; [done | by intros (? & ? & _)].
Qed.

(** What a limit check does with the limit [limit] it reads, on the value
    [v], with outcome [r]. *)
Definition threshold (r : result unit) (limit : option Q) (v : Q) : Prop :=
  (r = Ok () ↔ ¬ ∃ l, limit = Some l ∧ ¬ l == 0 ∧ (l < v)%Q) ∧
  (r ≠ Ok () → is_policy_error r).

Lemma threshold_shape (limit : option Q) (v : Q) (m : string) :
  threshold (if exceeded limit v then Throw (PolicyError m) else Ok ()) limit v.
Proof.
  unfold threshold. rewrite <- exceeded_spec.
  destruct (exceeded limit v).
  - split; [| intros _; by eexists].
    split; [discriminate | intros H; by destruct H].
  - split; [| intros H; by destruct H].
    split; [intros _ H; discriminate | done].
Qed.

(** X6. Each limit check is a strict threshold on a limit that is set and
    not 0: it raises a policy error exactly when the value is greater than
    such a limit, so a value equal to the limit passes. *)
Theorem limit_checks_are_strict_thresholds
    (show : Q → string) (policy : Policy) (v : Q) :
  threshold (checkMemoryLimit show policy v) (limits policy ≫= max_memory_mb) v ∧
  threshold (checkExecutionTimeLimit show policy v)
    (limits policy ≫= max_execution_time) v ∧
  threshold (checkToolCallsLimit show policy v) (limits policy ≫= max_tool_calls) v ∧
  threshold (checkWorkflowDepthLimit show policy v)
    (limits policy ≫= max_workflow_depth) v.
Proof.
  repeat split; apply threshold_shape.
Qed.

End PolicyFacts.

(** ** Prefixes and suffixes of strings *)

Module StringFacts.

Local Open Scope string_scope.

Lemma length_app (s t : string) :
  String.length (s ++ t) = (String.length s + String.length t)%nat.
Proof. induction s as [| c s IH]; simpl; [done | by rewrite IH]. Qed.

Lemma app_assoc (s t u : string) : (s ++ t) ++ u = s ++ (t ++ u).
Proof.
  induction s as [| c s IH]; [done |].
  change (String c ((s ++ t) ++ u) = String c (s ++ (t ++ u))). by f_equal.
Qed.

Lemma app_empty_r (s : string) : s ++ "" = s.
Proof.
  induction s as [| c s IH]; [done |].
  change (String c (s ++ "") = String c s). by f_equal.
Qed.

Lemma startsWith_iff (s p : string) : startsWith s p = true ↔ ∃ rest, s = p ++ rest.
Proof.
  unfold startsWith. revert s. induction p as [| c p IH]; intros s; simpl.
  - split; [intros _; exists s; reflexivity | intros _; by destruct s].
  - destruct s as [| d s]; simpl;
      [split; [done | intros (rest & Hrest); discriminate Hrest] |].
    destruct (ascii_dec c d) as [-> | Hne].
    + rewrite IH. split; intros (rest & Hrest); exists rest.
      * subst s. reflexivity.
      * change (String d s = String d (p ++ rest)) in Hrest. by injection Hrest.
    + split; [done |]. intros (rest & Hrest).
      change (String d s = String c (p ++ rest)) in Hrest.
      injection Hrest as -> _. by destruct Hne.
Qed.

Lemma substring_all (s : string) : String.substring 0 (String.length s) s = s.
Proof. induction s as [| c s IH]; simpl; [done | by rewrite IH]. Qed.

Lemma substring_skip (pre s : string) (m : nat) :
  String.substring (String.length pre) m (pre ++ s) = String.substring 0 m s.
Proof. induction pre as [| c pre IH]; simpl; [done | exact IH]. Qed.

Lemma substring_split (s : string) :
  ∀ k, (k <= String.length s)%nat →
       s = String.substring 0 k s ++ String.substring k (String.length s - k) s.
Proof.
  induction s as [| c s IH]; intros k Hk; simpl in *.
  - by replace k with 0%nat by lia.
  - destruct k as [| k]; simpl.
    + by rewrite substring_all.
    + change (String c s
              = String c (String.substring 0 k s
                          ++ String.substring k (String.length s - k) s)).
      f_equal. apply IH. lia.
Qed.

Lemma endsWith_iff (s p : string) : endsWith s p = true ↔ ∃ pre, s = pre ++ p.
Proof.
  unfold endsWith. rewrite andb_true_iff, Nat.leb_le, String.eqb_eq. split.
  - intros [Hlen Hsub].
    exists (String.substring 0 (String.length s - String.length p) s).
    rewrite (substring_split s (String.length s - String.length p)) at 1 by lia.
    f_equal. rewrite <- Hsub at 3. f_equal. lia.
  - intros (pre & ->). rewrite length_app. split; [lia |].
    replace (String.length pre + String.length p - String.length p)%nat
      with (String.length pre) by lia.
    by rewrite substring_skip, substring_all.
Qed.

End StringFacts.

(** ** Tool sandbox, continued *)

Module SandboxFacts.

Import Sandbox.
Local Open Scope string_scope.

Lemma existsb_elem_of {A} (f : A → bool) (l : list A) :
  existsb f l = true ↔ ∃ x, x ∈ l ∧ f x = true.
Proof.
  rewrite existsb_exists. split; intros (x & Hx & Hf); exists x;
    (split; [by apply list_elem_of_In | done]).
Qed.

(** X7. Once a tool has a sandbox configuration, network and filesystem
    access are denied unless switched on: when [network_allowed]
    ([filesystem_allowed]) is not [true], every host (every path, read or
    write) is refused with a sandbox error, whatever the allow lists say. *)
Theorem sandbox_denies_unless_enabled
    (securityConfig : option ToolSecurityConfig) (config : SandboxConfig) :
  securityConfig ≫= sandbox = Some config →
  (network_allowed config ≠ Some true →
   ∀ host, checkNetworkAccess securityConfig host
           = Throw (SandboxError "Network access is not allowed by sandbox policy")) ∧
  (filesystem_allowed config ≠ Some true →
   ∀ path write, checkFilesystemAccess securityConfig path write
                 = Throw (SandboxError "Filesystem access is not allowed by sandbox policy")).
Proof.
  intros Hcfg. unfold checkNetworkAccess, checkFilesystemAccess, falsy_flag. rewrite Hcfg.
  split; intros Hoff.
  - intros host. by destruct (network_allowed config) as [[|] |].
  - intros path write. by destruct (filesystem_allowed config) as [[|] |].
Qed.

(** A sandbox that sets a timeout and lists hosts and paths, but switches
    nothing on. *)
Definition timeout_only : ToolSecurityConfig :=
  {| validate := None; output := None;
     sandbox := Some {| timeout_ms := Some 10%Q; network_allowed := None;
                        network_hosts := Some ["example.org"];
                        filesystem_allowed := Some false;
                        filesystem_mode := None; filesystem_paths := Some ["/tmp"] |} |}.

Lemma sandbox_denies_unless_enabled_witness :
  checkNetworkAccess (Some timeout_only) "example.org"
  = Throw (SandboxError "Network access is not allowed by sandbox policy") ∧
  checkFilesystemAccess (Some timeout_only) "/tmp/x" false
  = Throw (SandboxError "Filesystem access is not allowed by sandbox policy").
Proof.
  destruct (sandbox_denies_unless_enabled (Some timeout_only) _ eq_refl) as [Hnet Hfs].
  split; [apply Hnet | apply Hfs]; discriminate.
Defined.

(** X8. With the network switched on, a host passes exactly when there is
    no host list, or the list is empty, or the host is a listed host or
    ends with a dot followed by a listed host. *)
Theorem network_hosts_match_by_dot_suffix
    (securityConfig : option ToolSecurityConfig) (config : SandboxConfig) (host : string) :
  securityConfig ≫= sandbox = Some config →
  network_allowed config = Some true →
  (checkNetworkAccess securityConfig host = Ok () ↔
   match network_hosts config with
   | None | Some [] => True
   | Some hosts => ∃ h, h ∈ hosts ∧ (host = h ∨ ∃ label, host = label ++ "." ++ h)
   end).
Proof.
  intros Hcfg Hon. unfold checkNetworkAccess, falsy_flag. rewrite Hcfg, Hon. simpl.
  destruct (network_hosts config) as [[| h0 hosts] |]; [done | | done].
  set (l := h0 :: hosts). simpl length. simpl Nat.ltb.
  destruct (existsb _ l) eqn:Hex; simpl.
  - split; [intros _ | done]. apply existsb_elem_of in Hex as (h & Hh & Hm).
    exists h. split; [done |]. apply orb_prop in Hm as [Hm | Hm].
    + left. by apply String.eqb_eq.
    + right. by apply StringFacts.endsWith_iff in Hm.
  - split; [done |]. intros (h & Hh & Hm). exfalso.
    apply not_true_iff_false in Hex. apply Hex, existsb_elem_of.
    exists h. split; [done |]. apply orb_true_intro. destruct Hm as [-> | Hm].
    + left. apply String.eqb_refl.
    + right. by apply StringFacts.endsWith_iff.
Qed.

Definition online : ToolSecurityConfig :=
  {| validate := None; output := None;
     sandbox := Some {| timeout_ms := None; network_allowed := Some true;
                        network_hosts := Some ["example.org"; "api.test"];
                        filesystem_allowed := Some true;
                        filesystem_mode := Some "readonly";
                        filesystem_paths := Some ["/data"] |} |}.

Lemma network_hosts_match_by_dot_suffix_witness :
  checkNetworkAccess (Some online) "cdn.example.org" = Ok ().
Proof.
  apply (network_hosts_match_by_dot_suffix (Some online) _ "cdn.example.org" eq_refl eq_refl).
  exists "example.org". split; [by left | right; by exists "cdn"].
Defined.

(** X9. With the filesystem switched on, an access passes exactly when
    it is not a write in [readonly] mode and, if a non-empty path list is
    given, the path begins with a listed path as a string (so a listed
    [/data] also admits [/database]). *)
Theorem filesystem_access_by_mode_and_prefix
    (securityConfig : option ToolSecurityConfig) (config : SandboxConfig)
    (path : string) (write : bool) :
  securityConfig ≫= sandbox = Some config →
  filesystem_allowed config = Some true →
  (checkFilesystemAccess securityConfig path write = Ok () ↔
   (write = true → filesystem_mode config ≠ Some "readonly") ∧
   match filesystem_paths config with
   | None | Some [] => True
   | Some paths => ∃ p rest, p ∈ paths ∧ path = p ++ rest
   end).
Proof.
  intros Hcfg Hon. unfold checkFilesystemAccess, falsy_flag. rewrite Hcfg, Hon.
  cbn [default from_option negb].
  destruct (write && from_option (String.eqb "readonly") false (filesystem_mode config))
    eqn:Hro.
  - apply andb_prop in Hro as [-> Hmode].
    destruct (filesystem_mode config) as [m |]; [| done]. cbn [from_option] in Hmode.
    apply String.eqb_eq in Hmode. subst m.
    split; [done |]. intros [Hw _]. by destruct (Hw eq_refl).
  - assert (Hmode : write = true → filesystem_mode config ≠ Some "readonly").
    { intros -> Hm. rewrite Hm in Hro. discriminate Hro. }
    destruct (filesystem_paths config) as [[| p0 paths] |]; [done | | done].
    set (l := p0 :: paths). simpl length. simpl Nat.ltb.
    destruct (existsb _ l) eqn:Hex; simpl.
    + split; [intros _ | done]. split; [done |].
      apply existsb_elem_of in Hex as (p & Hp & Hm).
      apply StringFacts.startsWith_iff in Hm as (rest & ->). by exists p, rest.
    + split; [done |]. intros [_ (p & rest & Hp & ->)]. exfalso.
      apply not_true_iff_false in Hex. apply Hex, existsb_elem_of.
      exists p. split; [done |]. apply StringFacts.startsWith_iff. by exists rest.
Qed.

Lemma filesystem_access_by_mode_and_prefix_witness :
  checkFilesystemAccess (Some online) "/database/users.db" false = Ok () ∧
  checkFilesystemAccess (Some online) "/data/report.csv" true ≠ Ok ().
Proof.
  pose proof (filesystem_access_by_mode_and_prefix (Some online) _ "/database/users.db" false
                eq_refl eq_refl) as Hread.
  pose proof (filesystem_access_by_mode_and_prefix (Some online) _ "/data/report.csv" true
                eq_refl eq_refl) as Hwrite.
  split.
  - apply Hread. split; [discriminate |].
    exists "/data", "base/users.db". split; [by left | done].
  - intros Hok. apply Hwrite in Hok as [Hmode _]. by apply Hmode.
Defined.

End SandboxFacts.

(** ** Sandboxed execution *)

Module SandboxExecution.

Import Sandbox.
Local Open Scope string_scope.

(** The timeout [execute] asks for, [config.timeout_ms || 30000], and the
    delay of the timer that is armed for it. *)
Definition requested (config : SandboxConfig) : Q :=
  if truthy_num (timeout_ms config) then default 30000%Q (timeout_ms config) else 30000%Q.

Definition armed (config : SandboxConfig) : Q := setTimeout_delay (requested config).

(** The delay armed is a whole number of milliseconds from 1 to 2^31 - 1:
    the request itself when it is such a number, its integer part when it
    lies between two of them, and 1 when it is out of range. *)
Lemma setTimeout_delay_range (ms : Q) :
  (1 <= setTimeout_delay ms)%Q ∧ (setTimeout_delay ms <= 2147483647)%Q ∧
  ((1 <= ms)%Q → (ms <= 2147483647)%Q →
   (setTimeout_delay ms <= ms)%Q ∧ (ms < setTimeout_delay ms + 1)%Q) ∧
  (¬ ((1 <= ms)%Q ∧ (ms <= 2147483647)%Q) → setTimeout_delay ms = 1%Q).
Proof.
  unfold setTimeout_delay.
  destruct (Qle_bool 1 ms) eqn:Hlow; [destruct (Qle_bool ms 2147483647) eqn:Hhigh |]; simpl.
  - apply Qle_bool_iff in Hlow, Hhigh.
    pose proof (Qfloor_le ms) as Hfloor. pose proof (Qlt_floor ms) as Hnext.
    assert (H1 : (1 <= Qfloor ms)%Z) by (apply (Qfloor_resp_le 1 ms Hlow)).
    rewrite inject_Z_plus in Hnext. change (inject_Z 1) with 1%Q in Hnext.
    rewrite Zle_Qle in H1. change (inject_Z 1) with 1%Q in H1.
    repeat split; lra.
  - split; [lra |]. split; [lra |]. split.
    + intros _ Hle. apply Qle_bool_iff in Hle. congruence.
    + done.
  - split; [lra |]. split; [lra |]. split.
    + intros Hle _. apply Qle_bool_iff in Hle. congruence.
    + done.
Qed.

(** [securityConfig] with its [sandbox] part removed. *)
Definition without_sandbox (securityConfig : option ToolSecurityConfig)
  : option ToolSecurityConfig :=
  match securityConfig with
  | Some sc => Some {| validate := validate sc; sandbox := None; output := output sc |}
  | None => None
  end.

Section Execution.

Variable show : Q → string.
Variable regex_test : string → string → bool.
Variable json_bytes : value → Q.
Variable World : Type.

(** X10. When the input breaks a validation rule, [execute] throws the
    validation error and the tool function is not called: the outcome is the
    same for every tool function and the world is left as it was. *)
Theorem invalid_input_never_reaches_tool
    (securityConfig : option ToolSecurityConfig) (input : list (string * value))
    (e : error) :
  validate_input show regex_test (securityConfig ≫= validate) input = Throw e →
  ∀ (toolFn : ToolFn World) (w : World),
    execute show regex_test json_bytes World securityConfig toolFn input w = (w, Throws e).
Proof.
  intros Hbad toolFn w. unfold execute. by rewrite Hbad.
Qed.

(** X11. Rules constrain strings and numbers only, and only fields that
    are present: a value of any other type passes every rule, and an input
    none of whose fields has a rule passes whatever the rules are (so a
    field that has rules may simply be left out). *)
Theorem validation_skips_untyped_and_absent_fields :
  (∀ fieldName v rules,
      (∀ s, v ≠ VStr s) → (∀ n, v ≠ VNum n) →
      validateField show regex_test fieldName v rules = Ok ()) ∧
  (∀ rules input,
      (∀ k, k ∈ keys input → rules !! k = None) →
      validate_fields show regex_test rules input = Ok ()).
Proof.
  split.
  - intros fieldName v rules Hs Hn.
    destruct v; try done; [by destruct (Hn n) | by destruct (Hs s)].
  - intros rules input. induction input as [| [k v] rest IH]; intros Hnone; [done |].
    simpl. rewrite (Hnone k) by (by left).
    apply IH. intros k' Hk'. apply Hnone. by right.
Qed.

(** X12. Under a sandbox configuration, a tool function that settles
    after the delay armed for the timer, or never, makes [execute] throw a
    timeout error that names the timeout requested; the tool function has
    run all the same, and what it did to the world stays. *)
Theorem slow_tool_times_out
    (securityConfig : option ToolSecurityConfig) (config : SandboxConfig)
    (toolFn : ToolFn World) (input : list (string * value)) (w w' : World)
    (c : completion) :
  securityConfig ≫= sandbox = Some config →
  validate_input show regex_test (securityConfig ≫= validate) input = Ok () →
  toolFn input w = (w', c) →
  (c = None ∨ ∃ elapsed r, c = Some (elapsed, r) ∧ (armed config < elapsed)%Q) →
  execute show regex_test json_bytes World securityConfig toolFn input w
  = (w', Throws (SandboxError
                   ("Tool execution timeout after " ++ show (requested config) ++ "ms"))).
Proof.
  intros Hcfg Hvalid Hrun Hslow. unfold execute. rewrite Hvalid, Hcfg.
  fold (requested config). unfold executeWithTimeout. rewrite Hrun.
  destruct Hslow as [-> | (elapsed & r & -> & Hlt)]; [done |].
  fold (armed config).
  assert (Hle : Qle_bool elapsed (armed config) = false).
  { apply not_true_iff_false. rewrite Qle_bool_iff. by apply Qlt_not_le. }
  by rewrite Hle.
Qed.

(** X13. A tool function that settles no later than the delay armed for
    the timer is treated exactly as if the tool had no sandbox
    configuration: same validation of input and output, same outcome, same
    world. *)
Theorem timely_tool_runs_as_unsandboxed
    (securityConfig : option ToolSecurityConfig) (config : SandboxConfig)
    (toolFn : ToolFn World) (input : list (string * value)) (w w' : World)
    (elapsed : Q) (r : result value) :
  securityConfig ≫= sandbox = Some config →
  toolFn input w = (w', Some (elapsed, r)) →
  (elapsed <= armed config)%Q →
  execute show regex_test json_bytes World securityConfig toolFn input w
  = execute show regex_test json_bytes World (without_sandbox securityConfig) toolFn input w.
Proof.
  intros Hcfg Hrun Hle. destruct securityConfig as [sc |]; [| done].
  unfold execute. simpl in *. rewrite Hcfg.
  destruct (validate_input show regex_test (validate sc) input); [| done].
  fold (requested config). unfold executeWithTimeout. rewrite Hrun.
  fold (armed config). apply Qle_bool_iff in Hle. rewrite Hle. by destruct r.
Qed.

End Execution.

(** A tool with a 10 ms timeout, a rule on [text], and two tool functions:
    one that answers after 2 ms, one that never settles. All tool functions
    bump the world, a counter of calls. A timeout of -5 ms arms a timer of
    1 ms, which a tool that answers at once beats. *)
Definition strict : ToolSecurityConfig :=
  {| validate :=
       Some {[ "text" := {| max_length := Some 5%Q; min_length := None; pattern := None;
                            deny_patterns := None; min := None; max := None |} ]};
     sandbox := Some {| timeout_ms := Some 10%Q; network_allowed := None;
                        network_hosts := None; filesystem_allowed := None;
                        filesystem_mode := None; filesystem_paths := None |};
     output := None |}.

Definition hasty : ToolSecurityConfig :=
  {| validate := None;
     sandbox := Some {| timeout_ms := Some (-5)%Q; network_allowed := None;
                        network_hosts := None; filesystem_allowed := None;
                        filesystem_mode := None; filesystem_paths := None |};
     output := None |}.

Definition quick : ToolFn nat :=
  λ input calls, (S calls, Some (2%Q, Ok (VObj input))).

Definition instant : ToolFn nat :=
  λ input calls, (S calls, Some (0%Q, Ok (VObj input))).

Definition stuck : ToolFn nat :=
  λ input calls, (S calls, None).

Definition shown (q : Q) : string := "10".

Lemma invalid_input_never_reaches_tool_witness :
  ∃ e, execute shown (λ _ _, true) (λ _, 0%Q) nat (Some strict) quick
         [("text", VStr "too long")] 0%nat = (0%nat, Throws e).
Proof.
  eexists.
  apply (invalid_input_never_reaches_tool shown (λ _ _, true) (λ _, 0%Q) nat (Some strict)
           [("text", VStr "too long")]).
  reflexivity.
Defined.

Lemma validation_skips_untyped_and_absent_fields_witness :
  validateField shown (λ _ _, true) "text" (VArr [VStr "too long"])
    {| max_length := Some 5%Q; min_length := None; pattern := None;
       deny_patterns := None; min := None; max := None |} = Ok () ∧
  validate_input shown (λ _ _, true) (validate strict) [("other", VStr "too long")] = Ok ().
Proof.
  destruct (validation_skips_untyped_and_absent_fields shown (λ _ _, true)) as [Htype Habsent].
  split.
  - apply Htype; discriminate.
  - apply Habsent. intros k Hk. apply list_elem_of_In in Hk as [<- | []]. reflexivity.
Defined.

Lemma slow_tool_times_out_witness :
  execute (λ _, "-5") (λ _ _, true) (λ _, 0%Q) nat (Some hasty) quick
    [("text", VStr "hi")] 0%nat
  = (1%nat, Throws (SandboxError "Tool execution timeout after -5ms")).
Proof.
  apply (slow_tool_times_out (λ _, "-5") (λ _ _, true) (λ _, 0%Q) nat (Some hasty) _ quick
           [("text", VStr "hi")] 0%nat 1%nat _ eq_refl eq_refl eq_refl).
  right. exists 2%Q, (Ok (VObj [("text", VStr "hi")])). split; reflexivity.
Defined.

Lemma timely_tool_runs_as_unsandboxed_witness :
  execute shown (λ _ _, true) (λ _, 0%Q) nat (Some hasty) instant [("text", VStr "hi")] 0%nat
  = (1%nat, Returns (VObj [("text", VStr "hi")])).
Proof.
  rewrite (timely_tool_runs_as_unsandboxed shown (λ _ _, true) (λ _, 0%Q) nat (Some hasty) _
             instant [("text", VStr "hi")] 0%nat 1%nat 0%Q (Ok (VObj [("text", VStr "hi")]))
             eq_refl eq_refl).
  - reflexivity.
  - vm_compute. discriminate.
Defined.

End SandboxExecution.

(** ** Provider registry (gateway/provider.ts) *)

Module Registry.

(** [ProviderRegistry]: a [Map] from names to providers. A [Map] lists its
    keys in the order they were first set, which [obj_set] keeps. *)
Definition t (A : Type) : Type := list (string * A).

Definition new {A} : t A := [].
Definition register {A} (name : string) (provider : A) (r : t A) : t A :=
  obj_set r name provider.
Definition get {A} (name : string) (r : t A) : option A := assoc name r.
Definition has {A} (name : string) (r : t A) : bool := bool_decide (is_Some (assoc name r)).
Lemma assoc_Some_keys {A} (k : string) (l : list (string * A)) :
  is_Some (assoc k l) ↔ k ∈ keys l.
Proof.
  induction l as [| [k' a] l IH]; simpl.
  - split; [by intros [? ?] | by intros ?%elem_of_nil].
  - destruct (String.eqb k k') eqn:Hk.
    + apply String.eqb_eq in Hk. subst k'. split; [intros _; by left | by eexists].
    + rewrite IH. split; [by right |]. intros [-> | H]%elem_of_cons; [| done].
      by rewrite String.eqb_refl in Hk.
Qed.

Lemma keys_obj_set {A} (l : list (string * A)) (k : string) (v : A) :
  keys (obj_set l k v) = if bool_decide (is_Some (assoc k l)) then keys l else keys l ++ [k].
Proof.
  induction l as [| [k' a] l IH].
  - cbn [obj_set assoc]. case_bool_decide as H; [by destruct H | done].
  - cbn [obj_set assoc]. destruct (String.eqb k k') eqn:Hk.
    + clear IH. case_bool_decide as H; [done |]. destruct H. by eexists.
    + unfold keys in *. cbn [map fst]. rewrite IH. clear IH. by case_bool_decide.
Qed.

Definition list {A} (r : t A) : Datatypes.list string := keys r.

(** X14. The registry is a map that remembers the order of first
    registration: a lookup returns the provider registered last under the
    name and is unaffected by registrations under other names; [has] agrees
    with [list]; registering a known name replaces it in place and a new
    name goes last, so [list] never repeats a name. *)
Theorem registry_keeps_one_entry_per_name {A} (r : t A) (name : string) (provider : A) :
  (∀ name', get name' (register name provider r)
            = if String.eqb name' name then Some provider else get name' r) ∧
  (∀ name', has name' r = true ↔ name' ∈ list r) ∧
  list (register name provider r) = (if has name r then list r else list r ++ [name]) ∧
  (NoDup (list r) → NoDup (list (register name provider r))).
Proof.
  unfold get, register, has, list. split; [| split; [| split]].
  - intros name'. apply Workflow.assoc_obj_set.
  - intros name'. rewrite bool_decide_eq_true. apply assoc_Some_keys.
  - apply keys_obj_set.
  - intros Hnd. rewrite keys_obj_set. case_bool_decide as Hin; [done |].
    apply NoDup_app. split; [done |]. split; [| apply NoDup_singleton].
    intros x Hx ->%list_elem_of_singleton. by apply Hin, assoc_Some_keys.
Qed.

Lemma registry_keeps_one_entry_per_name_witness :
  list (register "openai" 2 (register "anthropic" 1 (register "openai" 0 new)))
  = ["openai"; "anthropic"] ∧
  NoDup (list (register "openai" 2 (register "anthropic" 1 (register "openai" 0 new)))).
Proof.
  split; [reflexivity |].
  destruct (registry_keeps_one_entry_per_name
              (register "anthropic" 1 (register "openai" 0 new)) "openai" 2)
    as (_ & _ & _ & Hnd).
  apply Hnd. change (NoDup ["openai"; "anthropic"]).
  apply NoDup_cons. split; [| apply NoDup_singleton].
  by intros ?%list_elem_of_singleton.
Defined.

End Registry.

(** ** Model gateway, continued *)

Module GatewayFacts.

Import Gateway.
Local Open Scope string_scope.

(** The characters of a string. *)
Abbreviation chars := list_ascii_of_string.

Lemma split_nonempty (c : ascii) (s : string) : split c s ≠ [].
Proof.
  destruct s as [| d s]; simpl; [done |].
  destruct (Ascii.eqb d c); [done |]. by destruct (split c s).
Qed.

Lemma last_cons_nonempty {A} (x : A) (l : list A) (d : A) :
  l ≠ [] → List.last (x :: l) d = List.last l d.
Proof. by destruct l. Qed.

Lemma last_app_nonempty {A} (l1 l2 : list A) (d : A) :
  l2 ≠ [] → List.last (l1 ++ l2)%list d = List.last l2 d.
Proof.
  intros Hne. induction l1 as [| x l1 IH]; [done |].
  rewrite <- app_comm_cons, last_cons_nonempty; [done |].
  destruct l1; [done | discriminate].
Qed.

Lemma split_no_separator (c : ascii) (s : string) :
  ¬ In c (chars s) → split c s = [s].
Proof.
  induction s as [| d s IH]; simpl; [done |]. intros Hnot.
  destruct (Ascii.eqb d c) eqn:Hd.
  - apply Ascii.eqb_eq in Hd. destruct Hnot. by left.
  - rewrite IH; [done |]. intros Hin. apply Hnot. by right.
Qed.

Lemma split_at_separator (c : ascii) (pre s : string) :
  ∃ segs, segs ≠ [] ∧ split c (pre ++ String c s) = (segs ++ split c s)%list.
Proof.
  induction pre as [| d pre (segs & Hne & IH)].
  - exists [""]. split; [done |]. simpl. by rewrite Ascii.eqb_refl.
  - change (String d pre ++ String c s) with (String d (pre ++ String c s)).
    cbn [split]. rewrite IH. destruct (Ascii.eqb d c).
    + exists ("" :: segs). by split.
    + destruct segs as [| g gs]; [done |]. exists (String d g :: gs). by split.
Qed.

Lemma last_split_clean (c : ascii) (s : string) :
  ¬ In c (chars (List.last (split c s) "")).
Proof.
  induction s as [| d s IH]; [by intros [] |].
  cbn [split]. destruct (Ascii.eqb d c) eqn:Hd.
  - rewrite last_cons_nonempty by apply split_nonempty. exact IH.
  - pose proof (split_nonempty c s) as Hne.
    destruct (split c s) as [| seg segs]; [done |].
    destruct segs as [| seg' segs].
    + simpl in *. intros [-> | Hin]; [by rewrite Ascii.eqb_refl in Hd | by apply IH].
    + rewrite last_cons_nonempty by done. rewrite last_cons_nonempty in IH by done. exact IH.
Qed.

(** X15. [extractProviderId] keeps what follows the last dot: the result
    never contains a dot, a reference without a dot is its own id, and any
    qualifier put in front of an id, dots included, is dropped. *)
Theorem extractProviderId_keeps_last_segment :
  (∀ ref, ¬ In "."%char (chars (extractProviderId ref))) ∧
  (∀ id, ¬ In "."%char (chars id) → extractProviderId id = id) ∧
  (∀ qualifier id, ¬ In "."%char (chars id) →
                   extractProviderId (qualifier ++ "." ++ id) = id).
Proof.
  unfold extractProviderId. split; [| split].
  - intros ref. apply last_split_clean.
  - intros id Hid. by rewrite split_no_separator.
  - intros qualifier id Hid.
    change (qualifier ++ "." ++ id) with (qualifier ++ String "." id).
    destruct (split_at_separator "." qualifier id) as (segs & Hne & ->).
    rewrite last_app_nonempty by apply split_nonempty.
    by rewrite split_no_separator.
Qed.

Lemma extractProviderId_keeps_last_segment_witness :
  extractProviderId ("provider.eu.west" ++ "." ++ "openai") = "openai".
Proof.
  destruct extractProviderId_keeps_last_segment as (_ & _ & Hqual).
  apply Hqual. simpl. intros H. repeat (destruct H as [H | H]; [discriminate H |]). done.
Defined.

(** *** Ordering candidates by cost *)

Definition cost (p : IR.ModelProviderConfig.t) : nat :=
  estimateCost (IR.ModelProviderConfig.name p).

Definition cheaper (p q : IR.ModelProviderConfig.t) : Prop := (cost p ≤ cost q)%nat.

Lemma insert_by_cost_perm (p : IR.ModelProviderConfig.t) (l : list IR.ModelProviderConfig.t) :
  insert_by_cost p l ≡ₚ p :: l.
Proof.
  induction l as [| q l IH]; simpl; [done |].
  fold (cost p) (cost q). destruct (cost p <=? cost q)%nat; [done |].
  rewrite IH. apply Permutation_swap.
Qed.

Lemma insert_by_cost_sorted (p : IR.ModelProviderConfig.t)
    (l : list IR.ModelProviderConfig.t) :
  StronglySorted cheaper l → StronglySorted cheaper (insert_by_cost p l).
Proof.
  induction l as [| q l IH]; intros Hs; simpl.
  - by repeat constructor.
  - fold (cost p) (cost q). apply StronglySorted_inv in Hs as [Hl Hq].
    destruct (cost p <=? cost q)%nat eqn:Hle.
    + apply Nat.leb_le in Hle. constructor; [by constructor |].
      constructor; [done |]. eapply Forall_impl; [exact Hq |].
      intros x Hx. unfold cheaper in *. lia.
    + apply Nat.leb_gt in Hle. constructor; [by apply IH |].
      rewrite insert_by_cost_perm. constructor; [unfold cheaper; lia | done].
Qed.

Lemma insert_by_cost_stable (n : nat) (p : IR.ModelProviderConfig.t)
    (l : list IR.ModelProviderConfig.t) :
  List.filter (λ x, cost x =? n)%nat (insert_by_cost p l)
  = List.filter (λ x, cost x =? n)%nat (p :: l).
Proof.
  induction l as [| q l IH]; [done |].
  cbn [insert_by_cost]. fold (cost p) (cost q).
  destruct (cost p <=? cost q)%nat eqn:Hle; [done |].
  apply Nat.leb_gt in Hle. cbn [List.filter] in *. rewrite IH.
  destruct (cost p =? n)%nat eqn:Hp, (cost q =? n)%nat eqn:Hq; try done.
  apply Nat.eqb_eq in Hp, Hq. lia.
Qed.

(** X16. The order in which [cost_optimized] tries the candidates is a
    stable sort by estimated cost: the same candidates, in ascending cost,
    and candidates of equal cost in the order they were given. *)
Theorem cost_order_is_a_stable_sort (providers : list IR.ModelProviderConfig.t) :
  sort_by_cost providers ≡ₚ providers ∧
  StronglySorted cheaper (sort_by_cost providers) ∧
  ∀ n, List.filter (λ p, cost p =? n)%nat (sort_by_cost providers)
       = List.filter (λ p, cost p =? n)%nat providers.
Proof.
  unfold sort_by_cost. induction providers as [| p l (Hperm & Hsorted & Hstable)]; simpl.
  - split; [done | split; [constructor | done]].
  - split; [| split].
    + rewrite insert_by_cost_perm. by apply Permutation_skip.
    + by apply insert_by_cost_sorted.
    + intros n. rewrite insert_by_cost_stable. simpl. by rewrite Hstable.
Qed.

End GatewayFacts.

(** ** What a running gateway keeps *)

Module GatewayInvariants.

Import Gateway.
Local Open Scope string_scope.

(** The counters [s'] of a provider later than [s]: nothing counted down,
    and no more new errors than new requests. *)
Definition grows (s s' : UsageStats) : Prop :=
  (requests s ≤ requests s')%nat ∧ (errors s ≤ errors s')%nat ∧
  (errors s' - errors s ≤ requests s' - requests s)%nat.

Lemma grows_refl (s : UsageStats) : grows s s.
Proof. unfold grows. lia. Qed.

Lemma grows_trans (s1 s2 s3 : UsageStats) : grows s1 s2 → grows s2 s3 → grows s1 s3.
Proof. unfold grows. lia. Qed.

Lemma alter_grows (f : UsageStats → UsageStats) (providerId : string)
    (m : gmap string UsageStats) :
  (∀ s, grows s (f s)) →
  ∀ i s, m !! i = Some s → ∃ s', alter f providerId m !! i = Some s' ∧ grows s s'.
Proof.
  intros Hf i s Hs. rewrite lookup_alter. case_decide as Hi.
  - subst i. rewrite Hs. simpl. eauto.
  - exists s. split; [done | apply grows_refl].
Qed.

Section Invariants.

Variable World : Type.
Variable clock : World → Q.
Variable sleep : Q → World → World.
Variable adapter_complete :
  Adapter → list (string * value) → World → World * result ProviderResponse.

(** What every operation of a gateway that is up and running preserves. *)
Definition evolves (st st' : state World) : Prop :=
  registry st' = registry st ∧
  dom (rateLimiters st') = dom (rateLimiters st) ∧
  dom (usageStats st') = dom (usageStats st) ∧
  ∀ i s, usageStats st !! i = Some s → ∃ s', usageStats st' !! i = Some s' ∧ grows s s'.

Lemma evolves_refl (st : state World) : evolves st st.
Proof. repeat split. intros i s Hs. exists s. split; [done | apply grows_refl]. Qed.

Lemma evolves_trans (st1 st2 st3 : state World) :
  evolves st1 st2 → evolves st2 st3 → evolves st1 st3.
Proof.
  intros (Hr1 & Hl1 & Hd1 & Hs1) (Hr2 & Hl2 & Hd2 & Hs2).
  split; [congruence |]. split; [congruence |]. split; [congruence |].
  intros i s Hs. destruct (Hs1 i s Hs) as (s' & Hs' & Hg).
  destruct (Hs2 i s' Hs') as (s'' & Hs'' & Hg').
  exists s''. split; [done | by eapply grows_trans].
Qed.

Lemma evolves_same_maps (st st' : state World) :
  registry st' = registry st → rateLimiters st' = rateLimiters st →
  usageStats st' = usageStats st → evolves st st'.
Proof.
  intros Hr Hl Hu. unfold evolves. rewrite Hr, Hl, Hu. repeat split.
  intros i s Hs. exists s. split; [done | apply grows_refl].
Qed.

Lemma evolves_log (line : string) (st : state World) : evolves st (log World line st).
Proof. by apply evolves_same_maps. Qed.

Lemma evolves_set_stats (f : UsageStats → UsageStats) (providerId : string)
    (st : state World) :
  (∀ s, grows s (f s)) → evolves st (set_stats World f providerId st).
Proof.
  intros Hf. split; [done |]. split; [done |]. split; [apply dom_alter_L |].
  by apply alter_grows.
Qed.

Lemma completeWithProvider_evolves
    (providerId modelName : string) (messages : value) (params : list (string * value))
    (st : state World) :
  evolves st
    (fst (completeWithProvider World clock sleep adapter_complete providerId modelName
            messages params st)).
Proof.
  unfold completeWithProvider.
  destruct (registry st !! providerId) as [provider |]; [| apply evolves_refl].
  set (st1 := match rateLimiters st !! providerId with
              | Some limiter => _
              | None => st
              end).
  assert (H1 : evolves st st1).
  { subst st1. destruct (rateLimiters st !! providerId) as [limiter |] eqn:Hl;
      [| apply evolves_refl].
    destruct (acquire World clock sleep limiter (world st)) as [limiter' w'].
    split; [done |]. split; [| split; [done |]].
    - simpl. apply dom_insert_lookup_L. by eexists.
    - intros i s Hs. exists s. split; [done | apply grows_refl]. }
  destruct (usageStats st1 !! providerId) as [s0 |]; [| done].
  assert (H2 : evolves st1 (set_stats World count_request providerId st1)).
  { apply evolves_set_stats. intros s. unfold grows. simpl. lia. }
  set (st2 := set_stats World count_request providerId st1) in *.
  destruct (adapter_complete provider _ (world st2)) as [w' r].
  set (st3 := {| registry := registry st2; rateLimiters := rateLimiters st2;
                 usageStats := usageStats st2; console := console st2;
                 calls := (calls st2 ++ _)%list; world := w' |}).
  assert (H3 : evolves st2 st3) by (by apply evolves_same_maps).
  assert (H03 : evolves st st3) by eauto using evolves_trans.
  destruct r as [response | e]; simpl.
  - destruct (usage response) as [u |]; simpl; [| done].
    eapply evolves_trans; [exact H03 |]. apply evolves_set_stats.
    intros s. unfold grows. simpl. lia.
  - (* the request was counted before the error is *)
    assert (Hboth : evolves st1 (set_stats World count_error providerId st3)).
    { unfold evolves. subst st3 st2. unfold set_stats.
      cbn [registry rateLimiters usageStats].
      split; [done |]. split; [done |]. split.
      - by rewrite !dom_alter_L.
      - intros i s Hs. destruct (decide (providerId = i)) as [<- | Hi].
        + rewrite !lookup_alter_eq, Hs. simpl. eexists. split; [done |].
          unfold grows. simpl. lia.
        + rewrite !lookup_alter_ne by done. exists s. split; [done | apply grows_refl]. }
    eapply evolves_trans; [exact H1 | exact Hboth].
Qed.

Lemma failover_evolves (providers : list IR.ModelProviderConfig.t) (messages : value)
    (params : option (list (string * value))) :
  ∀ (lastError : option error) (st : state World),
    evolves st
      (fst (failover World clock sleep adapter_complete providers messages params
              lastError st)).
Proof.
  induction providers as [| c rest IH]; intros lastError st; simpl; [apply evolves_refl |].
  pose proof (completeWithProvider_evolves
                (extractProviderId (IR.ModelProviderConfig.provider c))
                (IR.ModelProviderConfig.name c) messages
                (spread (default [] params) (default [] (IR.ModelProviderConfig.params c))) st)
    as Hc.
  unfold attempt.
  destruct (completeWithProvider _ _ _ _ _ _ _ _ st) as [st' [response | e]]; [done |].
  eapply evolves_trans; [exact Hc |].
  eapply evolves_trans; [apply (evolves_log (warning c)) | apply IH].
Qed.

Lemma strategy_evolves (strategy : string) (providers : list IR.ModelProviderConfig.t)
    (messages : value) (params : option (list (string * value))) (st : state World) :
  evolves st
    (fst (completeWithStrategy World clock sleep adapter_complete strategy providers
            messages params st)).
Proof.
  unfold completeWithStrategy, costOptimizedStrategy, latencyOptimizedStrategy,
    failoverStrategy.
  repeat case_match; try apply failover_evolves.
  unfold roundRobinStrategy. destruct providers as [| p ps]; [apply evolves_refl |].
  cbv zeta. case_match; [| apply evolves_refl].
  apply completeWithProvider_evolves.
Qed.

(** X17. Whatever the strategy, the candidates and the behaviour of the
    adapters, a completion leaves the set of registered providers, the set
    of rate-limited providers and the set of providers with counters as
    they were: only counters, limiter contents and the console change. *)
Theorem completion_keeps_registry_fixed
    (strategy : string) (providers : list IR.ModelProviderConfig.t) (messages : value)
    (params : option (list (string * value))) (st : state World) :
  let st' := fst (completeWithStrategy World clock sleep adapter_complete strategy
                    providers messages params st) in
  registry st' = registry st ∧
  dom (rateLimiters st') = dom (rateLimiters st) ∧
  dom (usageStats st') = dom (usageStats st).
Proof.
  destruct (strategy_evolves strategy providers messages params st) as (Hr & Hl & Hd & _).
  by repeat split.
Qed.

(** X18. Counters only count up, and errors never outnumber requests: a
    completion, whatever its strategy and outcome, leaves each provider's
    request and error counters at least where they were, and a provider
    whose errors did not exceed its requests before still has that after. *)
Theorem counters_grow_and_errors_stay_below_requests
    (strategy : string) (providers : list IR.ModelProviderConfig.t) (messages : value)
    (params : option (list (string * value))) (st : state World)
    (providerId : string) (s : UsageStats) :
  usageStats st !! providerId = Some s →
  ∃ s', usageStats (fst (completeWithStrategy World clock sleep adapter_complete strategy
                           providers messages params st)) !! providerId = Some s' ∧
        (requests s ≤ requests s')%nat ∧ (errors s ≤ errors s')%nat ∧
        ((errors s ≤ requests s)%nat → (errors s' ≤ requests s')%nat).
Proof.
  intros Hs.
  destruct (strategy_evolves strategy providers messages params st) as (_ & _ & _ & Hg).
  destruct (Hg providerId s Hs) as (s' & Hs' & Hle1 & Hle2 & Hle3).
  exists s'. repeat split; try done. lia.
Qed.

End Invariants.

Lemma counters_grow_and_errors_stay_below_requests_witness :
  ∃ s', usageStats (fst (completeWithStrategy Q id tick answer "cost_optimized"
                           [gpt4; haiku] hello None busy)) !! "openai" = Some s' ∧
        (2 ≤ requests s')%nat ∧ (0 ≤ errors s')%nat ∧
        ((0 ≤ 2)%nat → (errors s' ≤ requests s')%nat).
Proof.
  apply (counters_grow_and_errors_stay_below_requests Q id tick answer "cost_optimized"
           [gpt4; haiku] hello None busy "openai"
           {| requests := 2; tokens := 0; errors := 0 |}).
  reflexivity.
Defined.

End GatewayInvariants.

(** ** Starting a gateway *)

Module GatewayStartup.

Import Gateway.
Local Open Scope string_scope.

Definition zero : UsageStats := {| requests := 0; tokens := 0%Q; errors := 0 |}.

Section Startup.

Variable World : Type.
Variable clock : World → Q.
Variable resolver : CredentialResolver.

Definition initialize := initializeProviders World clock resolver.

(** A gateway in which registry and counters go together. *)
Definition paired (st : state World) : Prop :=
  dom (registry st) = dom (usageStats st) ∧
  dom (rateLimiters st) ⊆ dom (registry st).

Lemma initializeProvider_paired (st : state World) (p : IR.Provider.t) :
  paired st → paired (initializeProvider World clock resolver st p).
Proof.
  intros [Hd Hl]. unfold initializeProvider, paired.
  destruct (createProvider resolver p) as [a | e]; [| done]. simpl.
  rewrite !dom_insert_L. split; [by rewrite Hd |].
  destruct (IR.Provider.limits p).
  - rewrite dom_insert_L. by apply union_mono_l.
  - etrans; [exact Hl | apply union_subseteq_r].
Qed.

Lemma initializeProvider_registry (st : state World) (p : IR.Provider.t) (i : string) :
  i ∈ dom (registry (initializeProvider World clock resolver st p)) ↔
  i ∈ dom (registry st) ∨ (IR.Provider.id p = i ∧ is_ok (createProvider resolver p)).
Proof.
  unfold initializeProvider.
  destruct (createProvider resolver p) as [a | e]; simpl.
  - rewrite dom_insert_L, elem_of_union, elem_of_singleton. split.
    + intros [-> | H]; [right; split; [done | by eexists] | by left].
    + intros [H | [<- _]]; [by right | by left].
  - split; [by left |]. intros [H | [_ [a Ha]]]; [done | discriminate Ha].
Qed.

Lemma initializeProvider_quiet (st : state World) (p : IR.Provider.t) :
  calls (initializeProvider World clock resolver st p) = calls st ∧
  world (initializeProvider World clock resolver st p) = world st ∧
  ((∀ i s, usageStats st !! i = Some s → s = zero) →
   ∀ i s, usageStats (initializeProvider World clock resolver st p) !! i = Some s → s = zero).
Proof.
  unfold initializeProvider. destruct (createProvider resolver p) as [a | e]; simpl;
    [| done].
  repeat split. intros Hz i s. rewrite lookup_insert. case_decide; [by intros [= <-] |].
  apply Hz.
Qed.

Lemma initialize_fold (providers : list IR.Provider.t) :
  ∀ st : state World,
    let st' := initialize providers st in
    (∀ i, i ∈ dom (registry st') ↔
          i ∈ dom (registry st) ∨
          ∃ p, p ∈ providers ∧ IR.Provider.id p = i ∧ is_ok (createProvider resolver p)) ∧
    (paired st → paired st') ∧
    calls st' = calls st ∧ world st' = world st ∧
    ((∀ i s, usageStats st !! i = Some s → s = zero) →
     ∀ i s, usageStats st' !! i = Some s → s = zero).
Proof.
  unfold initialize, initializeProviders.
  induction providers as [| p ps IH]; intros st; cbn [fold_left].
  - split; [| split; [tauto | split; [done | split; [done | tauto]]]].
    intros i. split; [by left |].
    intros [H | (p & Hp & _)]; [done |]. by apply elem_of_nil in Hp.
  - specialize (IH (initializeProvider World clock resolver st p)).
    cbv zeta in *. destruct IH as (Hdom & Hpair & Hcalls & Hworld & Hzero).
    destruct (initializeProvider_quiet st p) as (Hc & Hw & Hz).
    split; [| split; [| split; [| split]]].
    + intros i. rewrite Hdom, initializeProvider_registry. split.
      * intros [[H | [Hid Hok]] | (q & Hq & Hid & Hok)].
        -- by left.
        -- right. exists p. split; [by left | done].
        -- right. exists q. split; [by right | done].
      * intros [H | (q & Hq & Hid & Hok)]; [by left; left |].
        apply elem_of_cons in Hq as [-> | Hq]; [left; by right |].
        right. by exists q.
    + intros H. by apply Hpair, initializeProvider_paired.
    + congruence.
    + congruence.
    + intros H. by apply Hzero, Hz.
Qed.

(** X19. Initialization is per provider: from a fresh gateway, a provider
    id ends up registered exactly when some configured provider with that
    id could be created, whatever happened to the others. Every registered
    provider gets counters, all at zero, and only registered providers get
    a rate limiter; no adapter is called and the world is not touched. *)
Theorem initialization_is_per_provider (providers : list IR.Provider.t) (w : World) :
  let st := initialize providers (empty w) in
  (∀ i, i ∈ dom (registry st) ↔
        ∃ p, p ∈ providers ∧ IR.Provider.id p = i ∧ is_ok (createProvider resolver p)) ∧
  dom (usageStats st) = dom (registry st) ∧
  dom (rateLimiters st) ⊆ dom (registry st) ∧
  (∀ i s, usageStats st !! i = Some s → s = zero) ∧
  calls st = [] ∧ world st = w.
Proof.
  destruct (initialize_fold providers (empty w)) as (Hdom & Hpair & Hcalls & Hworld & Hzero).
  cbv zeta in *. simpl in *.
  destruct Hpair as [Hd Hl]; [split; simpl; by rewrite !dom_empty_L |].
  split.
  { intros i. rewrite Hdom, dom_empty_L. split; [| by right].
    intros [H | H]; [by apply not_elem_of_empty in H | done]. }
  split; [done |]. split; [done |]. split; [| done].
  apply Hzero. intros i s Hs. by rewrite lookup_empty in Hs.
Qed.

End Startup.

(** X20. A provider is created only with a non-empty key that the
    resolver returned for its credentials, and only for type [llm]; it is
    an OpenAI adapter exactly when its lower-cased name or its id contains
    [openai], which therefore wins over [anthropic] when both occur. *)
Theorem created_provider_has_resolved_key
    (resolver : CredentialResolver) (config : IR.Provider.t) (a : Adapter) :
  createProvider resolver config = Ok a →
  resolve_credentials resolver (IR.Provider.credentials config) = Ok (Some (apiKey a)) ∧
  apiKey a ≠ "" ∧
  IR.Provider.type config = "llm" ∧
  (kind a = OpenAI ↔
   str_includes (toLowerCase (IR.Provider.name config)) "openai"
   || str_includes (IR.Provider.id config) "openai" = true) ∧
  (kind a = Anthropic →
   str_includes (toLowerCase (IR.Provider.name config)) "anthropic"
   || str_includes (IR.Provider.id config) "anthropic" = true).
Proof.
  unfold createProvider.
  destruct (resolve_credentials resolver (IR.Provider.credentials config)) as [[key |] | e];
    [| done | done].
  cbn [from_option default]. destruct (String.eqb key "") eqn:Hkey; [done |].
  cbn [negb]. destruct (String.eqb (IR.Provider.type config) "llm") eqn:Htype; [| done].
  apply String.eqb_eq in Htype. apply String.eqb_neq in Hkey.
  destruct (str_includes (toLowerCase (IR.Provider.name config)) "openai"
            || str_includes (IR.Provider.id config) "openai") eqn:Hopenai.
  - intros [= <-]. by repeat split.
  - destruct (str_includes (toLowerCase (IR.Provider.name config)) "anthropic"
              || str_includes (IR.Provider.id config) "anthropic") eqn:Hanthropic; [| done].
    intros [= <-]. by repeat split.
Qed.

(** A provider whose name mentions both vendors. *)
Definition relay : IR.Provider.t :=
  {| IR.Provider.id := "relay";
     IR.Provider.name := "Anthropic-via-OpenAI";
     IR.Provider.type := "llm";
     IR.Provider.credentials := Some (IR.CredentialReference "env" "RELAY_KEY");
     IR.Provider.config := None;
     IR.Provider.limits := None |}.

Lemma created_provider_has_resolved_key_witness :
  kind (OpenAIProvider "sk-relay" None None) = OpenAI ∧
  IR.Provider.type relay = "llm".
Proof.
  destruct (created_provider_has_resolved_key
              (DefaultCredentialResolver [("RELAY_KEY", "sk-relay")]) relay
              (OpenAIProvider "sk-relay" None None) eq_refl)
    as (_ & _ & Htype & Hkind & _).
  split; [by apply Hkind | exact Htype].
Defined.

End GatewayStartup.

(** ** Candidates that name no registered provider *)

Module GatewayEdges.

Import Gateway.
Local Open Scope string_scope.

Section Edges.

Variable World : Type.
Variable clock : World → Q.
Variable sleep : Q → World → World.
Variable adapter_complete :
  Adapter → list (string * value) → World → World * result ProviderResponse.

Definition candidate_id (c : IR.ModelProviderConfig.t) : string :=
  extractProviderId (IR.ModelProviderConfig.provider c).

(** The state after the warnings for [providers] have been printed. *)
Definition warned (providers : list IR.ModelProviderConfig.t) (st : state World)
  : state World :=
  fold_left (λ st c, log World (warning c) st) providers st.

Lemma warned_fields (providers : list IR.ModelProviderConfig.t) :
  ∀ st : state World,
    registry (warned providers st) = registry st ∧
    rateLimiters (warned providers st) = rateLimiters st ∧
    usageStats (warned providers st) = usageStats st ∧
    calls (warned providers st) = calls st ∧
    world (warned providers st) = world st ∧
    console (warned providers st) = (console st ++ map warning providers)%list.
Proof.
  induction providers as [| c rest IH]; intros st; simpl.
  - by rewrite app_nil_r.
  - destruct (IH (log World (warning c) st)) as (-> & -> & -> & -> & -> & ->).
    simpl. by rewrite <- app_assoc.
Qed.

Lemma failover_unregistered (providers : list IR.ModelProviderConfig.t) (messages : value)
    (params : option (list (string * value))) :
  ∀ (lastError : option error) (st : state World),
    Forall (λ c, registry st !! candidate_id c = None) providers →
    failover World clock sleep adapter_complete providers messages params lastError st
    = (warned providers st,
       Throw (Error ("All providers failed. Last error: " ++
                     from_option message "undefined"
                       (from_option
                          (λ c, Some (Error ("Provider not found: " ++ candidate_id c)))
                          lastError (last providers))))).
Proof.
  induction providers as [| c rest IH]; intros lastError st Hall; [done |].
  apply Forall_cons in Hall as [Hc Hrest]. cbn [failover]. unfold attempt.
  fold (candidate_id c).
  rewrite (completeWithProvider_unregistered World clock sleep adapter_complete) by done.
  rewrite IH by done. cbn [warned fold_left].
  assert (Hlast :
    from_option (λ c, Some (Error ("Provider not found: " ++ candidate_id c)))
      (Some (Error ("Provider not found: " ++ candidate_id c))) (last rest)
    = from_option (λ c, Some (Error ("Provider not found: " ++ candidate_id c)))
        lastError (last (c :: rest))).
  { destruct rest as [| c' rest']; [done |]. rewrite last_cons_cons.
    destruct (proj2 (last_is_Some (c' :: rest'))) as [x ->]; done. }
  by rewrite Hlast.
Qed.

(** X21. When none of the candidates names a registered provider, failover
    raises the aggregate error naming the last candidate's "Provider not
    found", having called no adapter, consumed no rate-limit token and
    touched no counter: the only effect is one warning per candidate on the
    console. *)
Theorem failover_over_unregistered_providers
    (front : list IR.ModelProviderConfig.t) (c : IR.ModelProviderConfig.t)
    (messages : value) (params : option (list (string * value))) (st : state World) :
  Forall (λ c, registry st !! candidate_id c = None) (front ++ [c]) →
  ∃ st',
    failoverStrategy World clock sleep adapter_complete (front ++ [c]) messages params st
    = (st', Throw (Error ("All providers failed. Last error: Provider not found: " ++
                          candidate_id c))) ∧
    registry st' = registry st ∧ rateLimiters st' = rateLimiters st ∧
    usageStats st' = usageStats st ∧ calls st' = calls st ∧ world st' = world st ∧
    console st' = (console st ++ map warning (front ++ [c]))%list.
Proof.
  intros Hall. exists (warned (front ++ [c]) st). split.
  - unfold failoverStrategy. rewrite failover_unregistered by done.
    by rewrite last_snoc.
  - apply warned_fields.
Qed.

End Edges.

Definition mistral : IR.ModelProviderConfig.t :=
  {| IR.ModelProviderConfig.provider := "provider.mistral";
     IR.ModelProviderConfig.name := "mistral-large";
     IR.ModelProviderConfig.params := None |}.

Definition llama : IR.ModelProviderConfig.t :=
  {| IR.ModelProviderConfig.provider := "local.llama";
     IR.ModelProviderConfig.name := "llama-3";
     IR.ModelProviderConfig.params := None |}.

Lemma failover_over_unregistered_providers_witness :
  ∃ st',
    failoverStrategy Q id tick answer ([mistral] ++ [llama]) hello None busy
    = (st', Throw (Error "All providers failed. Last error: Provider not found: llama")) ∧
    usageStats st' = usageStats busy ∧ calls st' = [].
Proof.
  destruct (failover_over_unregistered_providers Q id tick answer [mistral] llama hello None
              busy) as (st' & Hrun & _ & _ & Hstats & Hcalls & _).
  { repeat constructor. }
  exists st'. by repeat split.
Defined.

End GatewayEdges.

(** ** Tool handlers (workflow.ts) *)

Module Handlers.

Import Workflow.
Local Open Scope string_scope.

(** What closes a descriptor: a double quote and a closing parenthesis. *)
Definition closing : string := dquote ++ ")".

Lemma capture_closing : capture closing = None.
Proof. reflexivity. Qed.

Lemma capture_url (url : string) :
  url ≠ "" →
  Forall (λ c, is_line_terminator c = false) (list_ascii_of_string url) →
  capture (url ++ closing) = Some url.
Proof.
  induction url as [| c url IH]; [done |]. intros _ Hline.
  cbn [list_ascii_of_string] in Hline. apply Forall_cons in Hline as [Hc Hrest].
  change (String c url ++ closing) with (String c (url ++ closing)).
  cbn [capture]. rewrite Hc. destruct url as [| d url'].
  - change ("" ++ closing) with closing. by rewrite capture_closing.
  - by rewrite IH.
Qed.

Lemma match_external_absent (handler : string) :
  (∀ before after, handler ≠ before ++ opening ++ after) →
  match_external handler = None.
Proof.
  induction handler as [| c rest IH]; intros Habsent; [done |].
  cbn [match_external].
  destruct (String.prefix opening (String c rest)) eqn:Hp.
  - apply (StringFacts.startsWith_iff (String c rest) opening) in Hp as [after Hafter].
    by destruct (Habsent "" after).
  - apply IH. intros before after ->. by apply (Habsent (String c before) after).
Qed.

(** X22. Parsing a handler descriptor gives back the URL it was written
    with: [opening ++ url ++ closing], for any non-empty [url] without a
    line break, parses to [url], quotes and parentheses inside the URL
    included; a descriptor in which [opening] does not occur does not
    parse. *)
Theorem handler_descriptor_round_trip :
  (∀ url, url ≠ "" →
          Forall (λ c, is_line_terminator c = false) (list_ascii_of_string url) →
          match_external (opening ++ url ++ closing) = Some url) ∧
  (∀ handler, (∀ before after, handler ≠ before ++ opening ++ after) →
              match_external handler = None).
Proof.
  split; [| apply match_external_absent].
  intros url Hne Hline.
  assert (Hp : String.prefix opening (opening ++ url ++ closing) = true).
  { apply (StringFacts.startsWith_iff _ opening). by eexists. }
  assert (Hrest : String.substring (String.length opening)
                    (String.length (opening ++ url ++ closing) - String.length opening)
                    (opening ++ url ++ closing) = url ++ closing).
  { rewrite StringFacts.substring_skip, StringFacts.length_app.
    replace (String.length opening + String.length (url ++ closing)
             - String.length opening)%nat with (String.length (url ++ closing)) by lia.
    apply StringFacts.substring_all. }
  remember (opening ++ url ++ closing) as h eqn:Hh.
  destruct h as [| c rest]; [discriminate Hh |].
  cbn [match_external]. rewrite Hp, Hrest. by rewrite capture_url.
Qed.

Lemma handler_descriptor_round_trip_witness :
  match_external (opening ++ "http://127.0.0.1:1/echo?q=(a)" ++ closing)
  = Some "http://127.0.0.1:1/echo?q=(a)".
Proof.
  destruct handler_descriptor_round_trip as [Hparse _].
  apply Hparse; [discriminate |]. repeat constructor.
Defined.

End Handlers.

(** ** Workflow engine, continued *)

Module WorkflowFacts.

Import Workflow.
Local Open Scope string_scope.

(** A step the loop of [execute] does something for. *)
Definition executable (expr : Expression) : Prop :=
  ∃ type identifier attributes,
    expr = BlockExpression type identifier attributes ∧
    (type = "tool" ∨ type = "agent" ∨ type = "capability").

(** The keys of an object after an assignment. *)
Lemma keys_assign {A} (l : list (string * A)) (k0 : string) (v : A) :
  (∀ k, k ∈ keys l → k ∈ keys (assign l k0 v)) ∧
  (∀ k, k ∈ keys (assign l k0 v) → k ∈ keys l ∨ k = k0).
Proof.
  unfold assign. destruct (_ && _); [by auto |]. split; intros k.
  - rewrite <- !Registry.assoc_Some_keys, assoc_define.
    by destruct (String.eqb k k0).
  - rewrite <- !Registry.assoc_Some_keys, assoc_define.
    destruct (String.eqb k k0) eqn:Hk; [| by left].
    right. by apply String.eqb_eq.
Qed.

(** An expression whose value cannot be the scope object itself: no
    reference in it has the empty path. The scope is the one object the
    engine changes after it has been read. *)
Fixpoint direct (expr : Expression) : bool :=
  match expr with
  | Reference path => negb (bool_decide (path = []))
  | ListExpression elements => forallb direct elements
  | MapExpression properties => forallb (λ p, direct p.2) properties
  | _ => true
  end.

Section Engine.

Variable World : Type.
Variable realm : Realm.
Variable show : Q → string.
Variable regex_test : string → string → bool.
Variable json_bytes : value → Q.
Variable http_post :
  string → list (string * value) → World → World * option (Q * result HttpResponse).
Variable runtime : Runtime World.

(** X23. A tool handler throws plain errors of two shapes only. A
    descriptor that is not of the [external] form fails at once with
    "Unknown tool handler format", before any request is made; every other
    failure (a rejected request, a status that is not OK, a body that is
    not JSON) comes out as "Tool handler failed: ..." . *)
Theorem tool_handler_failures_are_wrapped
    (handler : string) (input : list (string * value)) (s : state World) :
  (match_external handler = None →
   callToolHandler World show http_post handler input s
   = (s, Some (0%Q, Throw (Error ("Unknown tool handler format: " ++ handler))))) ∧
  (∀ s' elapsed e,
      callToolHandler World show http_post handler input s = (s', Some (elapsed, Throw e)) →
      (match_external handler = None ∧ s' = s ∧
       e = Error ("Unknown tool handler format: " ++ handler)) ∨
      ∃ m, e = Error ("Tool handler failed: " ++ m)).
Proof.
  unfold callToolHandler. split; [by intros -> |].
  intros s' elapsed e. destruct (match_external handler) as [url |].
  - destruct (http_post url input _) as [w [[t [response | e0]] |]]; [| | done].
    + destruct (ok response); cbn [negb].
      * destruct (json response) as [v | e1]; [done |].
        intros [= _ _ <-]. right. by eexists.
      * intros [= _ _ <-]. right. by eexists.
    + intros [= _ _ <-]. right. by eexists.
  - intros [= <- _ <-]. by left.
Qed.

(** *** Steps that are not executed *)

Lemma run_step_skips (ir : A22IR) (stepName : string) (expr : Expression)
    (scope : list (string * value)) (s : state World) :
  ¬ executable expr →
  ∃ s', run_step World realm show regex_test json_bytes http_post runtime ir stepName expr scope s
        = (s', Returns scope) ∧ world s' = world s.
Proof.
  intros Hskip. destruct expr as [| | | | type identifier attributes |];
    try (by exists s).
  simpl.
  destruct (String.eqb type "tool") eqn:Htool.
  { apply String.eqb_eq in Htool. destruct Hskip. exists type, identifier, attributes. auto. }
  destruct (String.eqb type "agent") eqn:Hagent.
  { apply String.eqb_eq in Hagent. destruct Hskip. exists type, identifier, attributes. auto. }
  destruct (String.eqb type "capability") eqn:Hcap.
  { apply String.eqb_eq in Hcap. destruct Hskip. exists type, identifier, attributes. auto. }
  by eexists.
Qed.

Lemma run_steps_skip (ir : A22IR) (steps : list (string * Expression))
    (scope : list (string * value)) :
  Forall (λ step, ¬ executable step.2) steps →
  ∀ s, ∃ s', run_steps World realm show regex_test json_bytes http_post runtime ir steps scope s
             = (s', Returns scope) ∧ world s' = world s.
Proof.
  induction 1 as [| [stepName expr] rest Hskip _ IH]; intros s; [by exists s |].
  cbn [run_steps].
  destruct (run_step_skips ir stepName expr scope s Hskip) as (s1 & -> & Hw1).
  destruct (IH s1) as (s2 & -> & Hw2). exists s2. split; [done | congruence].
Qed.

(** X24. Only blocks of type [tool], [agent] or [capability] are
    executed. A workflow whose steps are all of another shape (a reference,
    a literal, a block of an unknown type) completes without touching the
    world and returns just its input; a workflow with no [steps] block
    returns [undefined]. Neither can fail once the runtime has its IR. *)
Theorem inert_workflow_returns_its_input
    (workflowBlock : Block) (ir : A22IR) (input : value) (s : state World) :
  getIR World runtime = Some ir →
  (List.find (λ c, String.eqb (block_type c) "steps") (block_children workflowBlock) = None →
   ∃ s', execute World realm show regex_test json_bytes http_post runtime workflowBlock input s
         = (s', Returns VUndefined) ∧ world s' = world s) ∧
  (∀ stepsBlock,
      List.find (λ c, String.eqb (block_type c) "steps") (block_children workflowBlock)
      = Some stepsBlock →
      Forall (λ step, ¬ executable step.2) (block_attributes stepsBlock) →
      ∃ s', execute World realm show regex_test json_bytes http_post runtime workflowBlock input s
            = (s', Returns (VObj [("input", input)])) ∧ world s' = world s).
Proof.
  intros Hir. unfold execute. rewrite Hir. split.
  - intros ->. by eexists.
  - intros stepsBlock -> Hinert.
    destruct (run_steps_skip ir (block_attributes stepsBlock) [("input", input)] Hinert
                (record World (Console ("[Workflow] Starting " ++
                                        block_identifier workflowBlock)) s))
      as (s1 & -> & Hw). eexists. split; [done |]. simpl. by rewrite Hw.
Qed.

(** *** What a scope holds *)

Lemma run_step_keys (ir : A22IR) (stepName : string) (expr : Expression)
    (scope scope' : list (string * value)) (s s' : state World) :
  run_step World realm show regex_test json_bytes http_post runtime ir stepName expr scope s
  = (s', Returns scope') →
  (∀ k, k ∈ keys scope → k ∈ keys scope') ∧
  (∀ k, k ∈ keys scope' → k ∈ keys scope ∨ k = stepName).
Proof.
  destruct expr as [| | | | type identifier attributes |];
    try (intros [= _ <-]; by auto).
  simpl.
  assert (Hstore : ∀ r : state World * outcome value,
             match r with
             | (s1, Returns v) => (s1, Returns (assign scope stepName v))
             | (s1, Throws e) => (s1, Throws e)
             | (s1, Hangs) => (s1, Hangs)
             end = (s', Returns scope') →
             (∀ k, k ∈ keys scope → k ∈ keys scope') ∧
             (∀ k, k ∈ keys scope' → k ∈ keys scope ∨ k = stepName)).
  { intros [s1 [v | e |]]; simpl; intros Heq; [| discriminate Heq ..].
    injection Heq as _ <-. apply keys_assign. }
  destruct (String.eqb type "tool"); [apply Hstore |].
  destruct (String.eqb type "agent"); [apply Hstore |].
  destruct (String.eqb type "capability"); [apply Hstore |].
  intros [= _ <-]. by auto.
Qed.

Lemma run_steps_keys (ir : A22IR) (steps : list (string * Expression)) :
  ∀ (scope scope' : list (string * value)) (s s' : state World),
    run_steps World realm show regex_test json_bytes http_post runtime ir steps scope s
    = (s', Returns scope') →
    (∀ k, k ∈ keys scope → k ∈ keys scope') ∧
    (∀ k, k ∈ keys scope' → k ∈ keys scope ∨ k ∈ keys steps).
Proof.
  induction steps as [| [stepName expr] rest IH]; intros scope scope' s s' Hrun.
  - injection Hrun as _ <-. split; [done | by left].
  - cbn [run_steps] in Hrun.
    destruct (run_step World realm show regex_test json_bytes http_post runtime ir stepName expr
                scope s) as [s1 [scope1 | e |]] eqn:Hstep; [| done | done].
    apply run_step_keys in Hstep as [Hup1 Hdown1].
    destruct (IH _ _ _ _ Hrun) as [Hup Hdown].
    split.
    + intros k Hk. by apply Hup, Hup1.
    + intros k Hk. destruct (Hdown k Hk) as [H | H].
      * destruct (Hdown1 k H) as [H1 | ->]; [by left |]. right. by left.
      * right. by right.
Qed.

(** X25. The object a workflow returns is its scope: it always has the key
    [input], and its only other keys are names of steps of the workflow. *)
Theorem returned_scope_has_input_and_step_names
    (workflowBlock : Block) (input v : value) (s s' : state World) :
  execute World realm show regex_test json_bytes http_post runtime workflowBlock input s
  = (s', Returns v) →
  v = VUndefined ∨
  ∃ scope stepsBlock,
    v = VObj scope ∧
    List.find (λ c, String.eqb (block_type c) "steps") (block_children workflowBlock)
    = Some stepsBlock ∧
    "input" ∈ keys scope ∧
    ∀ k, k ∈ keys scope → k = "input" ∨ k ∈ keys (block_attributes stepsBlock).
Proof.
  unfold execute. destruct (getIR World runtime) as [ir |]; [| done].
  destruct (List.find _ (block_children workflowBlock)) as [stepsBlock |];
    [| intros [= _ <-]; by left].
  destruct (run_steps _ _ _ _ _ _ _ _ _ _ _) as [s1 [scope | e |]] eqn:Hrun; [| done | done].
  intros [= _ <-]. right. exists scope, stepsBlock.
  destruct (run_steps_keys _ _ _ _ _ _ Hrun) as [Hup Hdown].
  split; [done |]. split; [done |]. split.
  - apply Hup. by left.
  - intros k Hk. destruct (Hdown k Hk) as [H | H]; [left | by right].
    by apply list_elem_of_singleton in H.
Qed.

(** *** Tool and capability steps *)

Lemma evaluate_inputs_data (attributes : list (string * Expression)) (scope : value) :
  forallb (λ p, plain realm p.2) attributes = true → data scope = true →
  ∃ inputs, evaluate_inputs realm attributes scope = Ok inputs.
Proof.
  intros Hplain Hscope. unfold evaluate_inputs.
  destruct (evaluateExpression_data realm (MapExpression attributes) scope Hplain Hscope)
    as (v & Hv & _).
  rewrite evaluate_map in Hv.
  destruct (set_properties realm scope attributes []) as [inputs |]; [by exists inputs | done].
Qed.

(** X26. Every tool call that gets as far as the tool is audited at its
    end. When [executeTool] returns, the last entry of the journal is the
    audit record of a successful call of that tool. When it throws, either
    nothing at all was printed, audited or run (the tool does not exist, or
    the evaluation of an input threw, which happens before the audited
    part), or the last entry is the audit record of a failed call carrying
    the message of the error thrown. *)
Theorem tool_calls_are_audited
    (identifier : option string) (attributes : list (string * Expression))
    (scope : value) (ir : A22IR) (s s' : state World) (o : outcome value) :
  executeTool World realm show regex_test json_bytes http_post identifier attributes scope ir s
  = (s', o) →
  let toolName := default "" identifier in
  match o with
  | Returns _ => last (journal s') = Some (AuditToolCall toolName "workflow" true None)
  | Throws e =>
      (List.find (λ t, String.eqb (id t) toolName) (tools ir) = None ∧ s' = s ∧
       e = Error ("Tool not found: " ++ toolName)) ∨
      (evaluate_inputs realm attributes scope = Throw e ∧ s' = s) ∨
      last (journal s') = Some (AuditToolCall toolName "workflow" false (Some (message e)))
  | Hangs => True
  end.
Proof.
  unfold executeTool. destruct (List.find _ (tools ir)) as [toolDef |].
  - destruct (evaluate_inputs realm attributes scope) as [inputs | e0].
    + destruct (Sandbox.execute _ _ _ _ _ _ _ _) as [s2 [r | e |]]; intros [= <- <-]; simpl.
      * apply last_snoc.
      * right. right. apply last_snoc.
      * done.
    + intros [= <- <-]. simpl. right. by left.
  - intros [= <- <-]. simpl. by left.
Qed.

(** X27. A capability step does nothing outside the engine. When the
    evaluation of one of its inputs throws, the step throws that error and
    nothing is printed. Otherwise it prints one line and binds the name of
    the step to the placeholder [{success: true, capability: id}], leaving
    every other property of the scope as it was. It cannot fail when its
    inputs are plain expressions and the scope is data. The name
    [__proto__] is left out: an assignment to it binds nothing. *)
Theorem capability_step_stores_placeholder
    (ir : A22IR) (stepName : string) (identifier : option string)
    (attributes : list (string * Expression)) (scope : list (string * value))
    (s : state World) :
  stepName ≠ "__proto__" →
  match run_step World realm show regex_test json_bytes http_post runtime ir stepName
          (BlockExpression "capability" identifier attributes) scope s with
  | (s', Returns scope') =>
      (∃ inputs, evaluate_inputs realm attributes (VObj scope) = Ok inputs ∧
                 s' = record World (Executing "capability" (default "" identifier) inputs) s) ∧
      assoc stepName scope'
      = Some (VObj [("success", VBool true); ("capability", VStr (default "" identifier))]) ∧
      ∀ k, k ≠ stepName → assoc k scope' = assoc k scope
  | (s', Throws e) => s' = s ∧ evaluate_inputs realm attributes (VObj scope) = Throw e
  | (s', Hangs) => False
  end ∧
  (forallb (λ p, plain realm p.2) attributes = true → data (VObj scope) = true →
   ∃ s' scope',
     run_step World realm show regex_test json_bytes http_post runtime ir stepName
       (BlockExpression "capability" identifier attributes) scope s
     = (s', Returns scope')).
Proof.
  intros Hname. simpl. unfold executeCapability. split.
  - destruct (evaluate_inputs realm attributes (VObj scope)) as [inputs | e]; [| done].
    split; [by exists inputs |]. split.
    + by rewrite assoc_assign, String.eqb_refl.
    + intros k Hk. by apply assoc_assign_other.
  - intros Hplain Hscope.
    destruct (evaluate_inputs_data attributes (VObj scope) Hplain Hscope) as [inputs ->].
    by eexists _, _.
Qed.

(** X28. Later steps read what earlier steps stored. A step that calls a
    tool with no handler and no security configuration, and whose inputs
    evaluate, succeeds without touching the world and stores the tool's
    inputs under [data]: a reference [step.data.k] evaluated afterwards
    gives the value the input expression written under [k] had when the
    step ran. Neither the step nor the input is named [__proto__], and the
    input expression is direct. *)
Theorem passthrough_tool_feeds_later_steps
    (ir : A22IR) (stepName tool : string) (attributes : list (string * Expression))
    (scope inputs : list (string * value)) (toolDef : ToolDef) (k : string) (e : Expression)
    (s : state World) :
  List.find (λ t, String.eqb (id t) tool) (tools ir) = Some toolDef →
  handler toolDef = None →
  security toolDef = None →
  stepName ≠ "__proto__" →
  k ≠ "__proto__" →
  assoc k (rev attributes) = Some e →
  direct e = true →
  evaluate_inputs realm attributes (VObj scope) = Ok inputs →
  ∃ s' scope' v,
    run_step World realm show regex_test json_bytes http_post runtime ir stepName
      (BlockExpression "tool" (Some tool) attributes) scope s
    = (s', Returns scope') ∧
    world s' = world s ∧
    evaluateExpression realm e (VObj scope) = Ok v ∧
    evaluateExpression realm (Reference [stepName; "data"; k]) (VObj scope') = Ok v.
Proof.
  intros Hfind Hhandler Hsecurity Hname Hkey Hk _ Hin.
  pose proof (set_properties_assoc realm (VObj scope) attributes [] inputs k Hkey Hin)
    as Hassoc.
  rewrite Hk in Hassoc. destruct Hassoc as (v & Hv & Hkv).
  eexists _, _, v. split; [| split; [| split]].
  - unfold run_step, executeTool.
    change (String.eqb "tool" "tool") with true. cbv iota.
    change (default "" (Some tool)) with tool.
    rewrite Hfind, Hin.
    unfold Sandbox.execute, toolFn. rewrite Hsecurity, Hhandler.
    cbn. reflexivity.
  - reflexivity.
  - exact Hv.
  - cbn [evaluateExpression resolve_path opt_get get].
    rewrite assoc_assign, String.eqb_refl by done. cbn. by rewrite Hkv.
Qed.

End Engine.

(** A workflow whose only step copies a field of the input, and one that
    stores the input through a tool without a handler. *)
Definition copy_text : Block :=
  mkBlock "workflow" "copy" None
    [mkBlock "steps" "" None [] [("s2", Reference ["input"; "text"])]] [].

Definition keep : ToolDef := {| id := "keep"; handler := None; security := None |}.

Definition archive : Runtime unit :=
  {| getIR := Some {| tools := [keep] |};
     executeAgent := λ _ _ _ w, (w, Throw (Error "no gateway")) |}.

Definition store_text : Block :=
  mkBlock "workflow" "store" None
    [mkBlock "steps" "" None []
       [("s1", BlockExpression "tool" (Some "keep") [("text", Reference ["input"; "text"])])]]
    [].

Lemma inert_workflow_returns_its_input_witness :
  ∃ s', execute unit es5 (λ _, "n") (λ _ _, true) (λ _, 0%Q) unreachable archive copy_text
          (VObj [("text", VStr "hi")]) fresh
        = (s', Returns (VObj [("input", VObj [("text", VStr "hi")])])) ∧
        world s' = ().
Proof.
  destruct (inert_workflow_returns_its_input unit es5 (λ _, "n") (λ _ _, true) (λ _, 0%Q)
              unreachable archive copy_text {| tools := [keep] |}
              (VObj [("text", VStr "hi")]) fresh eq_refl) as [_ Hinert].
  apply (Hinert _ eq_refl). constructor; [| constructor].
  intros (type & identifier & attributes & Heq & _). discriminate Heq.
Defined.

Lemma returned_scope_has_input_and_step_names_witness :
  let v := VObj [("input", VObj [("text", VStr "hi")]);
                 ("s1", VObj [("success", VBool true);
                              ("data", VObj [("text", VStr "hi")])])] in
  v = VUndefined ∨
  ∃ scope stepsBlock,
    v = VObj scope ∧
    List.find (λ c, String.eqb (block_type c) "steps") (block_children store_text)
    = Some stepsBlock ∧
    "input" ∈ keys scope ∧
    ∀ k, k ∈ keys scope → k = "input" ∨ k ∈ keys (block_attributes stepsBlock).
Proof.
  apply (returned_scope_has_input_and_step_names unit es5 (λ _, "n") (λ _ _, true) (λ _, 0%Q)
           unreachable archive store_text (VObj [("text", VStr "hi")]) _ fresh
           (fst (execute unit es5 (λ _, "n") (λ _ _, true) (λ _, 0%Q) unreachable archive
                   store_text (VObj [("text", VStr "hi")]) fresh))).
  reflexivity.
Defined.

Lemma tool_calls_are_audited_witness :
  last (journal (fst (executeTool unit es5 (λ _, "n") (λ _ _, true) (λ _, 0%Q) unreachable
                        (Some "echo") [] (VObj []) {| tools := [echo] |} fresh)))
  = Some (AuditToolCall "echo" "workflow" false (Some "Tool handler failed: fetch failed")).
Proof.
  pose proof (tool_calls_are_audited unit es5 (λ _, "n") (λ _ _, true) (λ _, 0%Q) unreachable
                (Some "echo") [] (VObj []) {| tools := [echo] |} fresh _
                (Throws (Error "Tool handler failed: fetch failed")) eq_refl) as H.
  destruct H as [(Hnone & _) | [(Hthrow & _) | H]];
    [discriminate Hnone | discriminate Hthrow | exact H].
Defined.

Lemma capability_step_stores_placeholder_witness :
  ∃ s' scope',
    run_step unit es5 (λ _, "n") (λ _ _, true) (λ _, 0%Q) unreachable archive
      {| tools := [keep] |} "7"
      (BlockExpression "capability" (Some "note") [("seen", Reference ["input"; "text"])])
      [("input", VObj [("text", VStr "hi")])] fresh
    = (s', Returns scope').
Proof.
  apply (capability_step_stores_placeholder unit es5 (λ _, "n") (λ _ _, true) (λ _, 0%Q)
           unreachable archive {| tools := [keep] |} "7" (Some "note")
           [("seen", Reference ["input"; "text"])]
           [("input", VObj [("text", VStr "hi")])] fresh); [discriminate | reflexivity ..].
Defined.

Lemma passthrough_tool_feeds_later_steps_witness :
  ∃ s' scope' v,
    run_step unit es5 (λ _, "n") (λ _ _, true) (λ _, 0%Q) unreachable archive
      {| tools := [keep] |} "s1"
      (BlockExpression "tool" (Some "keep") [("text", Reference ["input"; "text"])])
      [("input", VObj [("text", VStr "hi")])] fresh
    = (s', Returns scope') ∧
    world s' = () ∧
    evaluateExpression es5 (Reference ["input"; "text"])
      (VObj [("input", VObj [("text", VStr "hi")])]) = Ok v ∧
    evaluateExpression es5 (Reference ["s1"; "data"; "text"]) (VObj scope') = Ok v.
Proof.
  apply (passthrough_tool_feeds_later_steps unit es5 (λ _, "n") (λ _ _, true) (λ _, 0%Q)
           unreachable archive {| tools := [keep] |} "s1" "keep"
           [("text", Reference ["input"; "text"])]
           [("input", VObj [("text", VStr "hi")])] [("text", VStr "hi")] keep "text"
           (Reference ["input"; "text"]) fresh);
    first [reflexivity | discriminate].
Defined.

End WorkflowFacts.

(** ** The audit log behind [logToolCall] (security/audit.ts) *)

Module Audit.

Local Open Scope string_scope.

(** [AuditConfig] of the intermediate representation; a flag that is absent
    counts as [false]. *)
Record AuditConfig : Type := {
  enabled : bool;
  destination : option string;
  log_events : option (list string);
  include_payloads : bool;
  format : option string
}.

(** [Partial<AuditEvent>], the argument of [log]. *)
Module Partial.
Record t : Type := {
  event : option string;
  success : option bool;
  agent : option string;
  tool : option string;
  workflow : option string;
  user : option string;
  error : option string;
  payload : option value;
  metadata : option value
}.
End Partial.

Record AuditEvent : Type := {
  timestamp : string;
  event : string;
  success : bool;
  agent : option string;
  tool : option string;
  workflow : option string;
  user : option string;
  error : option string;
  metadata : option value;
  payload : option value
}.

(** What the logger emits: [logStream.write(data)] on the file opened at
    [path], or [console.log(...args)]. *)
Inductive output : Type :=
  | FileWrite (path data : string)
  | ConsoleLog (args : list string).

Definition newline : string := String (Ascii.ascii_of_nat 10) EmptyString.

(** [s || d] and the truthiness of an optional string: [undefined] and the
    empty string are falsy. *)
Definition or_else (s : option string) (d : string) : string :=
  match s with
  | Some x => if String.eqb x "" then d else x
  | None => d
  end.

Definition given (s : option string) : bool :=
  match s with
  | Some x => negb (String.eqb x "")
  | None => false
  end.

(** [s.replace(pat, rep)] with a string pattern: the first occurrence only. *)
Fixpoint replace_first (pat rep s : string) {struct s} : string :=
  if String.prefix pat s then
    rep ++ String.substring (String.length pat) (String.length s - String.length pat) s
  else
    match s with
    | EmptyString => EmptyString
    | String c s' => String c (replace_first pat rep s')
    end.

(** The path of the stream opened by [initializeLogger], if any. *)
Definition initializeLogger (config : AuditConfig) : option string :=
  if negb (enabled config) then None
  else
    let destination := or_else (destination config) "file://./audit.log" in
    if startsWith destination "file://" then Some (replace_first "file://" "" destination)
    else None.

Record AuditLogger : Type := {
  config : AuditConfig;
  logStream : option string
}.

Definition new (config : AuditConfig) : AuditLogger :=
  {| config := config; logStream := initializeLogger config |}.

(** [if (c) parts.push(item)]. *)
Definition push_if (c : bool) (item : string) (parts : list string) : list string :=
  if c then (parts ++ [item])%list else parts.

Definition formatAsText (e : AuditEvent) : string :=
  let parts := [timestamp e; event e; if success e then "SUCCESS" else "FAILURE"] in
  let parts := push_if (given (agent e)) ("agent=" ++ default "" (agent e)) parts in
  let parts := push_if (given (tool e)) ("tool=" ++ default "" (tool e)) parts in
  let parts := push_if (given (workflow e)) ("workflow=" ++ default "" (workflow e)) parts in
  let parts := push_if (given (user e)) ("user=" ++ default "" (user e)) parts in
  let parts := push_if (given (error e)) ("error=" ++ quoted (default "" (error e))) parts in
  join " | " parts.

Definition formatAsCEF (e : AuditEvent) : string :=
  let extension := [] in
  let extension := push_if (given (agent e)) ("agent=" ++ default "" (agent e)) extension in
  let extension := push_if (given (tool e)) ("tool=" ++ default "" (tool e)) extension in
  let extension :=
    push_if (given (workflow e)) ("workflow=" ++ default "" (workflow e)) extension in
  let extension := push_if (given (user e)) ("suser=" ++ default "" (user e)) extension in
  let severity := if success e then "3" else "7" in
  join "|" ["CEF:1"; "A22"; "Runtime"; "1.0"; event e; event e; severity; join " " extension].

Section Logger.

(** [JSON.stringify] on an audit event. *)
Variable stringify : AuditEvent → string.

Definition writeLog (lg : AuditLogger) (e : AuditEvent) : list output :=
  let format := or_else (format (config lg)) "json" in
  let logLine :=
    if String.eqb format "json" then stringify e
    else if String.eqb format "text" then formatAsText e
    else if String.eqb format "cef" then formatAsCEF e
    else stringify e in
  match logStream lg with
  | Some path => [FileWrite path (logLine ++ newline)]
  | None => [ConsoleLog ["[AUDIT]"; logLine]]
  end.

(** [log(event)], at the time [now] read from the clock. *)
Definition log (lg : AuditLogger) (now : string) (e : Partial.t) : list output :=
  if negb (enabled (config lg)) then []
  else if match log_events (config lg) with
          | Some l => negb (includes l (or_else (Partial.event e) ""))
          | None => false
          end then []
  else
    let auditEvent :=
      {| timestamp := now;
         event := or_else (Partial.event e) "unknown";
         success := default true (Partial.success e);
         agent := Partial.agent e;
         tool := Partial.tool e;
         workflow := Partial.workflow e;
         user := Partial.user e;
         error := Partial.error e;
         metadata := Partial.metadata e;
         payload := None |} in
    let auditEvent :=
      if include_payloads (config lg) && truthy (default VUndefined (Partial.payload e)) then
        {| timestamp := timestamp auditEvent;
           event := event auditEvent;
           success := success auditEvent;
           agent := agent auditEvent;
           tool := tool auditEvent;
           workflow := workflow auditEvent;
           user := user auditEvent;
           error := error auditEvent;
           metadata := metadata auditEvent;
           payload := Partial.payload e |}
      else auditEvent in
    writeLog lg auditEvent.

Definition logToolCall (lg : AuditLogger) (now : string) (toolId agent : string)
    (success : bool) (error : option string) : list output :=
  log lg now
    {| Partial.event := Some "tool.call";
       Partial.success := Some success;
       Partial.agent := Some agent;
       Partial.tool := Some toolId;
       Partial.workflow := None;
       Partial.user := None;
       Partial.error := error;
       Partial.payload := None;
       Partial.metadata := None |}.

(** The event [e] with another payload and other metadata. *)
Definition with_details (e : Partial.t) (p m : option value) : Partial.t :=
  {| Partial.event := Partial.event e;
     Partial.success := Partial.success e;
     Partial.agent := Partial.agent e;
     Partial.tool := Partial.tool e;
     Partial.workflow := Partial.workflow e;
     Partial.user := Partial.user e;
     Partial.error := Partial.error e;
     Partial.payload := p;
     Partial.metadata := m |}.

Lemma replace_first_unfold (pat rep s : string) :
  replace_first pat rep s
  = if String.prefix pat s then
      rep ++ String.substring (String.length pat) (String.length s - String.length pat) s
    else
      match s with
      | EmptyString => EmptyString
      | String c s' => String c (replace_first pat rep s')
      end.
Proof. by destruct s. Qed.

Lemma replace_first_prefix (pat rep rest : string) :
  replace_first pat rep (pat ++ rest) = rep ++ rest.
Proof.
  rewrite replace_first_unfold.
  assert (String.prefix pat (pat ++ rest) = true) as ->.
  { apply (StringFacts.startsWith_iff (pat ++ rest) pat). by exists rest. }
  rewrite StringFacts.length_app.
  replace (String.length pat + String.length rest - String.length pat)%nat
    with (String.length rest) by lia.
  by rewrite StringFacts.substring_skip, StringFacts.substring_all.
Qed.

Ltac skip_filter :=
  match goal with
  | |- context [if ?c then [] else _] => destruct c; [done |]
  end.

(** X29. A payload is written only when the configuration asks for
    payloads and the format is JSON (or unknown): with [include_payloads]
    off the output of [log] does not depend on the payload of the event,
    and in the text and CEF formats it depends neither on the payload nor on
    the metadata. *)
Theorem payload_stays_out_unless_configured
    (lg : AuditLogger) (now : string) (e : Partial.t) (p p' m m' : option value) :
  (include_payloads (config lg) = false ∧ m = m') ∨
  format (config lg) = Some "text" ∨ format (config lg) = Some "cef" →
  log lg now (with_details e p m) = log lg now (with_details e p' m').
Proof.
  intros [[Hoff <-] | [Hformat | Hformat]]; unfold log; cbn [with_details Partial.event
    Partial.success Partial.agent Partial.tool Partial.workflow Partial.user Partial.error
    Partial.payload Partial.metadata].
  - by rewrite Hoff.
  - destruct (negb _); [done |]. skip_filter.
    unfold writeLog. rewrite Hformat. cbn [or_else].
    change (String.eqb "text" "") with false. change (String.eqb "text" "json") with false.
    change (String.eqb "text" "text") with true. cbv iota.
    by destruct (include_payloads _ && _), (include_payloads _ && _).
  - destruct (negb _); [done |]. skip_filter.
    unfold writeLog. rewrite Hformat. cbn [or_else].
    change (String.eqb "cef" "") with false. change (String.eqb "cef" "json") with false.
    change (String.eqb "cef" "text") with false.
    change (String.eqb "cef" "cef") with true. cbv iota.
    by destruct (include_payloads _ && _), (include_payloads _ && _).
Qed.

Lemma join_snoc (sep : string) (l : list string) (x : string) :
  l ≠ [] → join sep (l ++ [x]) = join sep l ++ sep ++ x.
Proof.
  unfold join. induction l as [| a [| b l] IH]; intros Hne; [done | done |].
  change (a ++ sep ++ String.concat sep ((b :: l) ++ [x])
          = (a ++ sep ++ String.concat sep (b :: l)) ++ sep ++ x).
  rewrite IH by done. by rewrite !StringFacts.app_assoc.
Qed.

Lemma push_if_nonempty (c : bool) (item : string) (parts : list string) :
  parts ≠ [] → push_if c item parts ≠ [].
Proof. unfold push_if. destruct c; [| done]. by destruct parts. Qed.

(** The text format ends with the error message as it was given. *)
Lemma formatAsText_error (ev : AuditEvent) (msg : string) :
  error ev = Some msg → msg ≠ "" →
  ∃ before, formatAsText ev = before ++ " | error=" ++ quoted msg.
Proof.
  intros Herr Hne. unfold formatAsText. rewrite Herr. cbn [given default from_option id].
  rewrite (proj2 (String.eqb_neq msg "") Hne). cbn [negb].
  unfold push_if at 1. rewrite join_snoc by (by repeat apply push_if_nonempty).
  eexists. reflexivity.
Qed.

(** X30. Where the records go is fixed when the logger is built. Whatever
    a logger built from [config] emits for an event is one record: the
    formatted text, appended with a line break to the file named after the
    [file://] prefix of the destination (the default destination being
    [file://./audit.log]), and printed on the console behind the tag
    [AUDIT] when the destination has another scheme. In the text format
    the record ends with the error message as it was given, so that a
    message with a line break in it spreads the record over two lines. *)
Theorem audit_records_go_to_destination
    (config : AuditConfig) (now : string) (e : Partial.t) (o : output) :
  o ∈ log (new config) now e →
  ∃ text,
    log (new config) now e = [o] ∧
    (∀ path, or_else (destination config) "file://./audit.log" = "file://" ++ path →
             o = FileWrite path (text ++ newline)) ∧
    (startsWith (or_else (destination config) "file://./audit.log") "file://" = false →
     o = ConsoleLog ["[AUDIT]"; text]) ∧
    (format config = Some "text" →
     ∀ msg, Partial.error e = Some msg → msg ≠ "" →
            ∃ before, text = before ++ " | error=" ++ quoted msg).
Proof.
  unfold log, new. cbn [Audit.config logStream].
  destruct (enabled config) eqn:Henabled; cbn [negb]; [| by intros ?%elem_of_nil].
  match goal with
  | |- context [if ?c then [] else _] => destruct c; [by intros ?%elem_of_nil |]
  end.
  unfold writeLog, initializeLogger. cbn [Audit.config logStream]. rewrite Henabled.
  cbn [negb].
  set (d := or_else (destination config) "file://./audit.log").
  match goal with
  | |- context [FileWrite _ (?l ++ newline)] => set (text := l)
  end.
  assert (Htext : format config = Some "text" →
                  ∀ msg, Partial.error e = Some msg → msg ≠ "" →
                         ∃ before, text = before ++ " | error=" ++ quoted msg).
  { intros Hformat msg Hmsg Hne. subst text. rewrite Hformat. cbn [or_else].
    change (String.eqb "text" "") with false. change (String.eqb "text" "json") with false.
    change (String.eqb "text" "text") with true. cbv iota.
    apply formatAsText_error; [| done]. by destruct (include_payloads _ && _). }
  clearbody text. destruct (startsWith d "file://") eqn:Hstarts.
  - apply StringFacts.startsWith_iff in Hstarts as (rest & Hrest). rewrite Hrest.
    rewrite replace_first_prefix. change ("" ++ rest) with rest.
    intros ->%list_elem_of_singleton. exists text. split; [done |].
    split; [| split; [done | exact Htext]].
    intros path Hpath. cbv [String.append] in Hpath. by simplify_eq.
  - intros ->%list_elem_of_singleton. exists text. split; [done |].
    split; [| split; [done | exact Htext]].
    intros path Hpath.
    assert (startsWith d "file://" = true) as Hyes
      by (apply StringFacts.startsWith_iff; by exists path).
    congruence.
Qed.

End Logger.

(** A configuration without payloads that writes to a file, and a tool
    call to audit. *)
Definition plain : AuditConfig :=
  {| enabled := true;
     destination := Some "file:///var/log/a22.log";
     log_events := Some ["tool.call"];
     include_payloads := false;
     format := None |}.

Definition call : Partial.t :=
  {| Partial.event := Some "tool.call";
     Partial.success := Some true;
     Partial.agent := Some "workflow";
     Partial.tool := Some "echo";
     Partial.workflow := None;
     Partial.user := None;
     Partial.error := None;
     Partial.payload := None;
     Partial.metadata := None |}.

Lemma payload_stays_out_unless_configured_witness :
  log event (new plain) "t0" (with_details call (Some (VStr "secret")) None)
  = log event (new plain) "t0" (with_details call None None).
Proof.
  apply (payload_stays_out_unless_configured event (new plain) "t0" call
           (Some (VStr "secret")) None None None).
  left. split; reflexivity.
Defined.

(** A failed call whose error message has a line break in it, logged in
    the text format. *)
Definition readable : AuditConfig :=
  {| enabled := true;
     destination := Some "file:///var/log/a22.log";
     log_events := None;
     include_payloads := false;
     format := Some "text" |}.

Definition failed : Partial.t :=
  {| Partial.event := Some "tool.call";
     Partial.success := Some false;
     Partial.agent := Some "workflow";
     Partial.tool := Some "echo";
     Partial.workflow := None;
     Partial.user := None;
     Partial.error := Some ("down" ++ newline ++ "again");
     Partial.payload := None;
     Partial.metadata := None |}.

Definition record_text : string :=
  "t0 | tool.call | FAILURE | agent=workflow | tool=echo | error=" ++
  quoted ("down" ++ newline ++ "again").

Lemma audit_records_go_to_destination_witness :
  log event (new readable) "t0" failed
  = [FileWrite "/var/log/a22.log" (record_text ++ newline)].
Proof.
  destruct (audit_records_go_to_destination event readable "t0" failed
              (FileWrite "/var/log/a22.log" (record_text ++ newline)))
    as (text & Hlog & _).
  - vm_compute. apply list_elem_of_here.
  - exact Hlog.
Defined.

End Audit.
